(** * opt_einsum: the contraction-path search and its bookkeeping

    A shallow embedding of [opt_einsum.py] (Python 2): the size estimate
    [_compute_size_by_dict], the reducer [_find_contraction], the two searches
    [_path_optimal] and [_path_opportunistic], and of [contract] the parsing
    of the subscripts (up to the expansion of an ellipsis), the validation of
    the operand shapes, the choice of the path, the construction of the
    contraction list and the loop that runs it ([contract] stops where the
    contraction list is built, [contract_call] is the call as a whole, with
    [np.einsum] as a parameter).

    Python values are modelled as follows.
    - an index label is a character ([ascii]); a [set] of labels is a
      [gset ascii]; a [str] is a [string];
    - a Python integer is a [Z] (Python 2 integers do not overflow);
    - a [dict] from labels to sizes is a [gmap ascii Z]; subscripting a
      missing key raises [KeyError];
    - a raised exception is a value of the error monad [result]. *)

From Stdlib Require Import ZArith List Ascii String Lia.
From stdpp Require Import base option gmap sets list strings sorting.

Local Open Scope Z_scope.
#[local] Set Warnings "-clear-no-such-hyp".

Module OptEinsum.

(** ** Exceptions *)

Inductive exn : Type :=
  | KeyError
  | IndexError
  | TypeError
  | ValueError
  | UnboundLocalError.

Inductive result (A : Type) : Type :=
  | Ok (a : A)
  | Raise (e : exn).
Arguments Ok {A} a.
Arguments Raise {A} e.

#[global] Instance result_ret : MRet result := fun A a => Ok a.
#[global] Instance result_bind : MBind result := fun A B f c =>
  match c with
  | Ok a => f a
  | Raise e => Raise e
  end.

(** A [for] loop whose body may raise: the state is threaded through the
    elements in order and the first exception ends the loop. *)
Fixpoint for_each {A S : Type} (body : S -> A -> result S) (l : list A) (s : S)
  : result S :=
  match l with
  | [] => Ok s
  | x :: l' => s' ← body s x; for_each body l' s'
  end.

(** ** Python built-ins used by the source *)

Definition label : Type := ascii.

(** [enumerate(l)] *)
Definition enumerate {A : Type} (l : list A) : list (Z * A) :=
  imap (fun i x => (Z.of_nat i, x)) l.

(** [x in positions] for a tuple or list of integers *)
Definition py_in (x : Z) (positions : list Z) : bool :=
  existsb (Z.eqb x) positions.

(** [range(n)] *)
Definition range (n : nat) : list Z := map Z.of_nat (seq 0 n).

(** [d[k]] *)
Definition getitem (d : gmap label Z) (k : label) : result Z :=
  match d !! k with
  | Some v => Ok v
  | None => Raise KeyError
  end.

(** [set(term)] for a string [term] *)
Definition set_of_str (term : string) : gset label :=
  list_to_set (list_ascii_of_string term).

(** The comparison [<] of two lists (or two tuples): the first position where
    the elements differ decides, and a proper prefix is smaller. *)
Fixpoint list_lt {A : Type} (eqb ltb : A -> A -> bool) (l1 l2 : list A) : bool :=
  match l1, l2 with
  | [], [] => false
  | [], _ :: _ => true
  | _ :: _, [] => false
  | x :: l1', y :: l2' => if eqb x y then list_lt eqb ltb l1' l2' else ltb x y
  end.

(** [list.sort()] and [sorted]: a stable comparison sort that only asks [<].
    Insertion from the right places an element before the first one that is
    not smaller than it, so equal elements keep their order. *)
Fixpoint sort_insert {A : Type} (ltb : A -> A -> bool) (x : A) (l : list A) : list A :=
  match l with
  | [] => [x]
  | y :: l' => if ltb y x then y :: sort_insert ltb x l' else x :: y :: l'
  end.

Definition py_sort {A : Type} (ltb : A -> A -> bool) (l : list A) : list A :=
  foldr (sort_insert ltb) [] l.

(** ** [_compute_size_by_dict] *)

Definition _compute_size_by_dict (inds : list label) (ind_dict : gmap label Z)
  : result Z :=
  for_each (fun ret i => v ← getitem ind_dict i; Ok (ret * v)) inds 1.

(** A set is iterated through its elements. *)
Definition size_of_set (s : gset label) (ind_dict : gmap label Z) : result Z :=
  _compute_size_by_dict (elements s) ind_dict.

(** ** [_find_contraction] *)

Record contraction : Type := Contraction {
  new_result : gset label;
  remaining : list (gset label);
  idx_removed : gset label;
  idx_contract : gset label
}.

Definition find_contraction_body (positions : list Z)
    (st : gset label * gset label * list (gset label)) (iv : Z * gset label)
  : gset label * gset label * list (gset label) :=
  let '(idx_contract, idx_remain, remaining) := st in
  let '(ind, value) := iv in
  if py_in ind positions
  then (idx_contract ∪ value, idx_remain, remaining)
  else (idx_contract, idx_remain ∪ value, remaining ++ [value]).

Definition _find_contraction (positions : list Z) (input_sets : list (gset label))
    (output_set : gset label) : contraction :=
  let '(idx_contract, idx_remain, remaining) :=
    fold_left (find_contraction_body positions) (enumerate input_sets)
              (∅, output_set, []) in
  let new_result := idx_remain ∩ idx_contract in
  let idx_removed := idx_contract ∖ new_result in
  Contraction new_result (remaining ++ [new_result]) idx_removed idx_contract.

(** ** [_path_optimal] *)

(** [np.triu_indices(n, 1)], zipped: the pairs [(i, j)] with [i < j < n], row
    by row.  Under Python 2 [zip] returns a list, so the same pairs are
    visited again for every candidate. *)
Definition triu_indices (n : nat) : list (list Z) :=
  flat_map (fun i => map (fun j => [Z.of_nat i; Z.of_nat j]) (seq (S i) (n - S i)))
           (seq 0 n).

(** Comparison of tuples of integers, of lists of such tuples, and of lists
    of sets ([<] on sets is proper inclusion). *)
Definition tuple_lt : list Z -> list Z -> bool := list_lt Z.eqb Z.ltb.

Definition positions_lt : list (list Z) -> list (list Z) -> bool :=
  list_lt (fun a b => bool_decide (a = b)) tuple_lt.

Definition sets_lt : list (gset label) -> list (gset label) -> bool :=
  list_lt (fun a b => bool_decide (a = b)) (fun a b => bool_decide (a ⊂ b)).

(** A candidate is the tuple [(total_cost, positions, indices_remaining)]. *)
Definition candidate : Type := Z * list (list Z) * list (gset label).

Definition candidate_lt (a b : candidate) : bool :=
  let '(cost1, pos1, rem1) := a in
  let '(cost2, pos2, rem2) := b in
  if negb (cost1 =? cost2) then cost1 <? cost2
  else if negb (bool_decide (pos1 = pos2)) then positions_lt pos1 pos2
  else sets_lt rem1 rem2.

Definition optimal_body (output_set : gset label) (ind_dict : gmap label Z)
    (memory : Z) (curr : candidate) (new : list candidate) (con : list Z)
  : result (list candidate) :=
  let '(cost, positions, remaining) := curr in
  let '(Contraction new_result new_input_sets idx_removed idx_contract) :=
    _find_contraction con remaining output_set in
  (* Sieve the results based on memory *)
  result_size ← size_of_set new_result ind_dict;
  if memory <? result_size then Ok new
  else
    (* Find cost *)
    new_cost ← size_of_set idx_contract ind_dict;
    let new_cost :=
      if bool_decide (0 < size idx_removed)%nat then new_cost * 2 else new_cost in
    let new_cost := new_cost + cost in
    let new_pos := positions ++ [con] in
    Ok (new ++ [(new_cost, new_pos, new_input_sets)]).

Definition optimal_level (output_set : gset label) (ind_dict : gmap label Z)
    (memory : Z) (comb_iter : list (list Z)) (current : list candidate)
  : result (list candidate) :=
  for_each (fun new curr =>
              for_each (optimal_body output_set ind_dict memory curr) comb_iter new)
           current [].

(** The state of the outer loop is [current] and [new]; [new] is unbound
    until the first iteration has run. *)
Definition optimal_iteration (input_sets : list (gset label))
    (output_set : gset label) (ind_dict : gmap label Z) (memory : Z)
    (st : list candidate * option (list candidate)) (iteration : nat)
  : result (list candidate * option (list candidate)) :=
  let comb_iter := triu_indices (length input_sets - iteration) in
  new ← optimal_level output_set ind_dict memory comb_iter st.1;
  Ok (new, Some new).

Definition _path_optimal (input_sets : list (gset label)) (output_set : gset label)
    (ind_dict : gmap label Z) (memory : Z) : result (list (list Z)) :=
  let current : list candidate := [(0, [], input_sets)] in
  st ← for_each (optimal_iteration input_sets output_set ind_dict memory)
                (seq 0 (length input_sets - 1)) (current, None);
  match st.2 with
  | None => Raise UnboundLocalError
  | Some new =>
      (* If we have not found anything return single einsum contraction *)
      if (length new =? 0)%nat then Ok [range (length input_sets)]
      else
        match py_sort candidate_lt new with
        | best :: _ => Ok best.1.2
        | [] => Raise IndexError
        end
  end.

(** ** [_path_opportunistic] *)

(** An entry of [iteration_results] is the list
    [[sort, positions, new_input_sets]] with [sort = (-removed_size, cost)]. *)
Definition choice : Type := list Z * list Z * list (gset label).

Definition choice_lt (a b : choice) : bool :=
  let '(sort1, pos1, rem1) := a in
  let '(sort2, pos2, rem2) := b in
  if negb (bool_decide (sort1 = sort2)) then tuple_lt sort1 sort2
  else if negb (bool_decide (pos1 = pos2)) then tuple_lt pos1 pos2
  else sets_lt rem1 rem2.

Definition opportunistic_body (input_sets : list (gset label))
    (output_set : gset label) (ind_dict : gmap label Z) (memory : Z)
    (iteration_results : list choice) (positions : list Z)
  : result (list choice) :=
  let '(Contraction idx_result new_input_sets idx_removed idx_contract) :=
    _find_contraction positions input_sets output_set in
  (* Sieve the results based on memory *)
  result_size ← size_of_set idx_result ind_dict;
  if memory <? result_size then Ok iteration_results
  else
    (* Build sort tuple *)
    removed_size ← size_of_set idx_removed ind_dict;
    cost ← size_of_set idx_contract ind_dict;
    let sort := [- removed_size; cost] in
    (* Add contraction to possible choices *)
    Ok (iteration_results ++ [(sort, positions, new_input_sets)]).

(** The loop runs over [range(len(input_sets) - 1)], evaluated once; [break]
    leaves it and the path is returned. *)
Fixpoint opportunistic_loop (iterations : list nat) (output_set : gset label)
    (ind_dict : gmap label Z) (memory : Z) (path : list (list Z))
    (input_sets : list (gset label)) : result (list (list Z)) :=
  match iterations with
  | [] => Ok path
  | _ :: iterations' =>
      iteration_results ←
        for_each (opportunistic_body input_sets output_set ind_dict memory)
                 (triu_indices (length input_sets)) [];
      (* If we did not find a new contraction contract remaining *)
      if (length iteration_results =? 0)%nat
      then Ok (path ++ [range (length input_sets)])
      else
        (* Sort based on first idx *)
        match py_sort choice_lt iteration_results with
        | best :: _ =>
            opportunistic_loop iterations' output_set ind_dict memory
                               (path ++ [best.1.2]) best.2
        | [] => Raise IndexError
        end
  end.

Definition _path_opportunistic (input_sets : list (gset label))
    (output_set : gset label) (ind_dict : gmap label Z) (memory : Z)
  : result (list (list Z)) :=
  opportunistic_loop (seq 0 (length input_sets - 1)) output_set ind_dict memory
                     [] input_sets.

(** ** [contract]

    The model starts where the subscripts string has been split into
    [input_list] and [output_subscript] (an implicit output already built)
    and covers the operand-count check, the dimension dictionary, the choice
    of the path and the construction of [contraction_list].  An operand is
    represented by its shape. *)

(** An entry of a path: a tuple or list of positions, or a bare integer (the
    one-operand path is written [[(0)]], which is the list holding [0]). *)
Inductive group : Type :=
  | GInt (x : Z)
  | GTuple (positions : list Z).

(** The [path] keyword: a strategy name or an explicit path. *)
Inductive path_kw : Type :=
  | PathName (name : string)
  | PathList (path : list group).

Record kwargs : Type := Kwargs {
  kw_path : option path_kw;
  kw_memory : option Z;
  kw_return_path : option bool
}.

Definition shape : Type := list N.

(** A contraction tuple [(contract_inds, gemm, einsum_str, remaining)]. *)
Definition contraction_tuple : Type := list Z * bool * string * list string.

(** Indexing a list of length [len] with [x]: a negative index counts from
    the end, and an index outside [-len, len) raises [IndexError]. *)
Definition py_index (len : nat) (x : Z) : result nat :=
  let i := if x <? 0 then x + Z.of_nat len else x in
  if (i <? 0) || (Z.of_nat len <=? i) then Raise IndexError
  else Ok (Z.to_nat i).

(** [l[x]] *)
Definition list_getitem {A : Type} (l : list A) (x : Z) : result A :=
  i ← py_index (length l) x;
  match l !! i with
  | Some a => Ok a
  | None => Raise IndexError
  end.

(** [l.pop(x)]: the element and the list without it *)
Definition list_pop {A : Type} (l : list A) (x : Z) : result (A * list A) :=
  i ← py_index (length l) x;
  match l !! i with
  | Some a => Ok (a, delete i l)
  | None => Raise IndexError
  end.

Definition dimension_body (sh : shape) (dimension_dict : gmap label Z)
    (cc : Z * ascii) : result (gmap label Z) :=
  let '(cnum, char) := cc in
  dim ← list_getitem sh cnum;
  if bool_decide (char ∈ dom dimension_dict)
  then
    known ← getitem dimension_dict char;
    if negb (known =? Z.of_N dim) then Raise ValueError else Ok dimension_dict
  else Ok (<[char := Z.of_N dim]> dimension_dict).

Definition dimension_term (operands : list shape) (dimension_dict : gmap label Z)
    (tt : Z * string) : result (gmap label Z) :=
  let '(tnum, term) := tt in
  sh ← list_getitem operands tnum;
  if negb (length sh =? String.length term)%nat then Raise ValueError
  else for_each (dimension_body sh) (enumerate (list_ascii_of_string term))
                dimension_dict.

(** Get length of each unique dimension and ensure all dimension are correct *)
Definition build_dimension_dict (input_list : list string) (operands : list shape)
  : result (gmap label Z) :=
  for_each (dimension_term operands) (enumerate input_list) ∅.

Definition size_list_body (dimension_dict : gmap label Z) (size_list : list Z)
    (term : string) : result (list Z) :=
  sz ← _compute_size_by_dict (list_ascii_of_string term) dimension_dict;
  Ok (size_list ++ [sz]).

(** Compute size of each input array plus the output array *)
Definition compute_size_list (terms : list string) (dimension_dict : gmap label Z)
  : result (list Z) :=
  for_each (size_list_body dimension_dict) terms [].

(** [max(size_list)] of a list that is never empty *)
Definition py_max (l : list Z) : result Z :=
  match l with
  | [] => Raise ValueError
  | x :: l' => Ok (fold_left Z.max l' x)
  end.

(** Compute path *)
Definition compute_path (path_arg : path_kw) (input_list : list string)
    (input_sets : list (gset label)) (output_set : gset label)
    (dimension_dict : gmap label Z) (memory_arg out_size : Z)
  : result (list group) :=
  match path_arg with
  | PathList path => Ok path
  | PathName name =>
      if (length input_list =? 1)%nat then Ok [GInt 0]
      else if (length input_list =? 2)%nat then Ok [GTuple [0; 1]]
      else if String.eqb name "opportunistic" then
        (* Maximum memory should be at most out_size for this algorithm *)
        let memory_arg := Z.min memory_arg out_size in
        path ← _path_opportunistic input_sets output_set dimension_dict memory_arg;
        Ok (map GTuple path)
      else if String.eqb name "optimal" then
        path ← _path_optimal input_sets output_set dimension_dict memory_arg;
        Ok (map GTuple path)
      else Raise KeyError
  end.

(** [(dimension_dict[ind], ind)] pairs are compared by size, then by label. *)
Definition sized_label_lt (a b : Z * label) : bool :=
  if negb (a.1 =? b.1) then a.1 <? b.1
  else (N_of_ascii a.2 <? N_of_ascii b.2)%N.

(** The state of the loop that builds the contraction tuples. *)
Record build_state : Type := BuildState {
  bs_input_sets : list (gset label);
  bs_input_list : list string;
  bs_contraction_list : list contraction_tuple
}.

(** [tmp_inputs.append(input_list.pop(x))] for every [x] of [contract_inds] *)
Definition pop_body (st : list string * list string) (x : Z)
  : result (list string * list string) :=
  let '(tmp_inputs, input_list) := st in
  popped ← list_pop input_list x;
  Ok (tmp_inputs ++ [popped.1], popped.2).

(** The result of a step that is not the last: the labels of [out_inds]
    sorted by size, then by label. *)
Definition sorted_result (dimension_dict : gmap label Z) (out_inds : gset label)
  : result string :=
  sort_result ←
    for_each (fun acc ind => d ← getitem dimension_dict ind; Ok (acc ++ [(d, ind)]))
             (elements out_inds) [];
  Ok (string_of_list_ascii (snd <$> py_sort sized_label_lt sort_result)).

Definition build_body (output_subscript : string) (output_set : gset label)
    (dimension_dict : gmap label Z) (len_path : nat) (st : build_state)
    (step : Z * group) : result build_state :=
  let '(cnum, contract_inds) := step in
  (* Make sure we remove inds from right to left *)
  contract_inds ←
    match contract_inds with
    | GInt _ => Raise TypeError
    | GTuple positions => Ok (py_sort (fun a b => b <? a) positions)
    end;
  let '(Contraction out_inds input_sets idx_removed idx_contract) :=
    _find_contraction contract_inds (bs_input_sets st) output_set in
  popped ← for_each pop_body contract_inds ([], bs_input_list st);
  let '(tmp_inputs, input_list) := popped in
  (* Last contraction, make sure indices match the final result *)
  idx_result ←
    (if cnum - Z.of_nat len_path =? -1 then Ok output_subscript
     else sorted_result dimension_dict out_inds);
  let input_list := input_list ++ [idx_result] in
  let einsum_str := (String.concat "," tmp_inputs ++ "->" ++ idx_result)%string in
  let contraction := (contract_inds, false, einsum_str, input_list) in
  Ok (BuildState input_sets input_list (bs_contraction_list st ++ [contraction])).

(** Build contraction tuple (positions, gemm, einsum_str, remaining) *)
Definition build_contraction_list (path : list group) (input_list : list string)
    (input_sets : list (gset label)) (output_subscript : string)
    (output_set : gset label) (dimension_dict : gmap label Z) : result build_state :=
  for_each (build_body output_subscript output_set dimension_dict (length path))
           (enumerate path) (BuildState input_sets input_list []).

(** What [contract] has computed once the contraction list is built. *)
Record plan : Type := Plan {
  plan_path : list group;
  plan_state : build_state
}.

Definition contract_plan (input_list : list string) (output_subscript : string)
    (operands : list shape) (kw : kwargs) : result plan :=
  (* Make sure number operands is equivalent to the number of terms *)
  if negb (length input_list =? length operands)%nat then Raise ValueError
  else
    (* Build a few useful list and sets *)
    let input_sets := set_of_str <$> input_list in
    let output_set := set_of_str output_subscript in
    let indices := ⋃ input_sets in
    dimension_dict ← build_dimension_dict input_list operands;
    size_list ← compute_size_list (input_list ++ [output_subscript]) dimension_dict;
    out_size ← py_max size_list;
    (* Grab a few kwargs *)
    let path_arg := default (PathName "opportunistic") (kw_path kw) in
    let memory_arg := default out_size (kw_memory kw) in
    total_flops ← size_of_set indices dimension_dict;
    path ← compute_path path_arg input_list input_sets output_set dimension_dict
                        memory_arg out_size;
    st ← build_contraction_list path input_list input_sets output_subscript
                                output_set dimension_dict;
    Ok (Plan path st).

(** What [contract] has reached when its contraction list is built (line
    408).  With [return_path] that is the value of the call: the path and the
    rows of the printed table (each row an [einsum_str] and the remaining
    terms).  Without it, [Evaluate] is no value of the call: it is the
    contraction list with which the contraction loop is entered, where
    [np.einsum] can still raise.  The loop is [run_contractions] and the call
    as a whole is [contract_call], below. *)
Inductive outcome : Type :=
  | ReturnPath (path : list group) (rows : list (string * list string))
  | Evaluate (contraction_list : list contraction_tuple).

Definition contract (input_list : list string) (output_subscript : string)
    (operands : list shape) (kw : kwargs) : result outcome :=
  p ← contract_plan input_list output_subscript operands kw;
  let contraction_list := bs_contraction_list (plan_state p) in
  if default false (kw_return_path kw)
  then Ok (ReturnPath (plan_path p) ((fun c => (c.1.2, c.2)) <$> contraction_list))
  else Ok (Evaluate contraction_list).

(** ** The contraction loop of [contract]

    The loop that runs the contraction list.  [np.einsum] is a parameter of
    the model: it receives the [einsum] string of a contraction tuple and the
    operands popped for it, and may raise. *)

Section ContractionLoop.
Context {T : Type}.
Variable einsum : string -> list T -> result T.

(** [tmp_operands.append(operands.pop(x))] for every [x] of [inds] *)
Definition pop_operand (st : list T * list T) (x : Z) : result (list T * list T) :=
  let '(tmp_operands, operands) := st in
  popped ← list_pop operands x;
  Ok (tmp_operands ++ [popped.1], popped.2).

Definition run_body (operands : list T) (c : contraction_tuple) : result (list T) :=
  let '(inds, gemm, einsum_str, remaining) := c in
  popped ← for_each pop_operand inds ([], operands);
  (* Do the contraction *)
  new_view ← einsum einsum_str popped.1;
  (* Append new items *)
  Ok (popped.2 ++ [new_view]).

(** Start contraction loop *)
Definition run_contractions (contraction_list : list contraction_tuple)
    (operands : list T) : result T :=
  operands ← for_each run_body contraction_list operands;
  list_getitem operands 0.

End ContractionLoop.

(** ** The call as a whole

    [contract] from the terms on, the contraction loop included.  The
    operands are values of any type [T]: [shape_of] reads the shape of one
    ([operands[tnum].shape]) and [einsum] stands for [np.einsum]. *)

Section Call.
Context {T : Type}.
Variable shape_of : T -> shape.
Variable einsum : string -> list T -> result T.

(** The value returned: [(path, path_print)], of which the rows are kept, or
    [operands[0]]. *)
Inductive returned : Type :=
  | ReturnedPath (path : list group) (rows : list (string * list string))
  | ReturnedArray (view : T).

Definition contract_call (input_list : list string) (output_subscript : string)
    (operands : list T) (kw : kwargs) : result returned :=
  reached ← contract input_list output_subscript (shape_of <$> operands) kw;
  match reached with
  | ReturnPath path rows => Ok (ReturnedPath path rows)
  | Evaluate contraction_list =>
      (* Start contraction loop *)
      view ← run_contractions einsum contraction_list operands;
      Ok (ReturnedArray view)
  end.

End Call.

(** ** Parsing the subscripts

    The first part of [contract]: the checks on the subscripts string, its
    split into the input terms and the output subscript, and the output built
    when none is given.  The branch that expands an ellipsis names the new
    labels in the iteration order of a Python set; the model stops where that
    branch is entered. *)

(** [c in s] for a one-character string [c] *)
Definition char_in (c : ascii) (s : string) : bool :=
  existsb (Ascii.eqb c) (list_ascii_of_string s).

(** [sub in s] for strings *)
Fixpoint contains (sub s : string) : bool :=
  match s with
  | EmptyString => String.prefix sub s
  | String _ s' => String.prefix sub s || contains sub s'
  end.

(** [s.count(c)] for a one-character string [c] *)
Definition count_char (c : ascii) (s : string) : nat :=
  length (filter (fun x => x = c) (list_ascii_of_string s)).

(** [s.count('->')]: occurrences are counted from the left and do not
    overlap *)
Fixpoint count_arrow (s : string) : nat :=
  match s with
  | EmptyString => 0
  | String a s' =>
      match s' with
      | String b s'' =>
          if Ascii.eqb a "-" && Ascii.eqb b ">" then S (count_arrow s'')
          else count_arrow s'
      | EmptyString => 0
      end
  end.

(** A character put in front of the first part of a split. *)
Definition cons_first (a : ascii) (parts : list string) : list string :=
  match parts with
  | p :: ps => String a p :: ps
  | [] => [String a EmptyString]
  end.

(** [s.split(sep)] for a one-character separator *)
Fixpoint split_char (sep : ascii) (s : string) : list string :=
  match s with
  | EmptyString => [EmptyString]
  | String a s' =>
      if Ascii.eqb a sep then EmptyString :: split_char sep s'
      else cons_first a (split_char sep s')
  end.

(** [s.split('->')] *)
Fixpoint split_arrow (s : string) : list string :=
  match s with
  | EmptyString => [EmptyString]
  | String a s' =>
      match s' with
      | String b s'' =>
          if Ascii.eqb a "-" && Ascii.eqb b ">" then EmptyString :: split_arrow s''
          else cons_first a (split_arrow s')
      | EmptyString => [String a EmptyString]
      end
  end.

(** [s.replace(c, '')] for a one-character string [c] *)
Definition remove_char (c : ascii) (s : string) : string :=
  string_of_list_ascii (filter (fun x => x <> c) (list_ascii_of_string s)).

Definition symbols : gset ascii :=
  set_of_str "abcdefghijklmnopqrstuvwxyzABCDEFGHIJKLMNOPQRSTUVWXYZ".

Definition check_arrow (subscripts : string) : result unit :=
  if char_in "-" subscripts || char_in ">" subscripts then
    let invalid := (1 <? count_char "-" subscripts)%nat
                   || (1 <? count_char ">" subscripts)%nat in
    if invalid || negb (count_arrow subscripts =? 1)%nat then Raise ValueError
    else Ok ()
  else Ok ().

Definition check_symbols (subscripts : string) : result unit :=
  for_each (fun _ s =>
              if char_in s ",.->" then Ok ()
              else if negb (bool_decide (s ∈ symbols)) then Raise ValueError
              else Ok ())
           (list_ascii_of_string subscripts) ().

(** Split into input and output subscripts; unpacking a list that has not
    two items raises [ValueError]. *)
Definition split_subscripts (subscripts : string) : result (string * option string) :=
  if contains "->" subscripts then
    match split_arrow subscripts with
    | [input_subscripts; output_subscript] =>
        Ok (input_subscripts, Some output_subscript)
    | _ => Raise ValueError
    end
  else Ok (subscripts, None).

(** One-character strings are compared by their code. *)
Definition char_lt (a b : ascii) : bool := (N_of_ascii a <? N_of_ascii b)%N.

(** Build output subscripts *)
Definition implicit_output (input_subscripts : string) : string :=
  let tmp_subscripts := remove_char "," input_subscripts in
  fold_left (fun output_subscript s =>
               if (count_char s tmp_subscripts =? 1)%nat
               then (output_subscript ++ String s EmptyString)%string
               else output_subscript)
            (py_sort char_lt (elements (set_of_str tmp_subscripts))) EmptyString.

(** What the parser hands on: the terms and the output subscript, or the
    state in which the ellipsis branch is entered. *)
Inductive parsed : Type :=
  | Plain (input_list : list string) (output_subscript : string)
  | WithEllipsis (input_list : list string) (output_subscript : string).

Definition parse_subscripts (subscripts : string) (n_operands : nat) : result parsed :=
  _ ← check_arrow subscripts;
  _ ← check_symbols subscripts;
  io ← split_subscripts subscripts;
  let input_subscripts := io.1 in
  let input_list := split_char "," input_subscripts in
  (* Make sure number operands is equivalent to the number of terms *)
  if negb (length input_list =? n_operands)%nat then Raise ValueError
  else if contains "..." input_subscripts then
    match io.2 with
    | None => Raise ValueError
    | Some output_subscript => Ok (WithEllipsis input_list output_subscript)
    end
  else
    match io.2 with
    | Some output_subscript =>
        if char_in "." output_subscript then Raise ValueError
        else Ok (Plain input_list output_subscript)
    | None => Ok (Plain input_list (implicit_output input_subscripts))
    end.

End OptEinsum.

Import OptEinsum.

(** * Vocabulary of the specification *)

(** The descriptors at the selected positions, and the others, in their
    original order. *)
Definition selected (positions : list Z) (input_sets : list (gset label))
  : list (gset label) :=
  (filter (fun iv => iv.1 ∈ positions) (enumerate input_sets)).*2.

Definition not_selected (positions : list Z) (input_sets : list (gset label))
  : list (gset label) :=
  (filter (fun iv => iv.1 ∉ positions) (enumerate input_sets)).*2.

(** Lexicographic order on lists. *)
Inductive lex_lt {A : Type} (lt : A -> A -> Prop) : list A -> list A -> Prop :=
  | lex_lt_nil y l2 : lex_lt lt [] (y :: l2)
  | lex_lt_head x y l1 l2 : lt x y -> lex_lt lt (x :: l1) (y :: l2)
  | lex_lt_tail x l1 l2 : lex_lt lt l1 l2 -> lex_lt lt (x :: l1) (x :: l2).

(** The order on paths: position tuples are compared as integer sequences. *)
Definition path_lt : list (list Z) -> list (list Z) -> Prop :=
  lex_lt (lex_lt Z.lt).

Section Vocabulary.
Variable output : gset label.
Variable sizes : gmap label Z.
Variable memoryLimit : Z.

(** Every label of the operands has a size. *)
Definition covers (operands : list (gset label)) : Prop :=
  ⋃ operands ⊆ dom sizes.

(** The product of the sizes of the labels; 1 for the empty set. *)
Definition estimateSize (labels : gset label) : Z :=
  foldr Z.mul 1 ((fun l => default 0 (sizes !! l)) <$> elements labels).

(** A pair of positions [i < j] of a sequence of [n] descriptors. *)
Definition is_pair (n : nat) (g : list Z) : Prop :=
  exists i j : Z, g = [i; j] /\ 0 <= i < j /\ j < Z.of_nat n.

(** The sequence left by a step, and by a whole path. *)
Definition after_step (operands : list (gset label)) (g : list Z)
  : list (gset label) :=
  remaining (_find_contraction g operands output).

Definition replay (path : list (list Z)) (operands : list (gset label))
  : list (gset label) :=
  fold_left after_step path operands.

(** The result of a step respects the memory limit. *)
Definition within_memory (operands : list (gset label)) (g : list Z) : Prop :=
  estimateSize (new_result (_find_contraction g operands output)) <= memoryLimit.

(** The cost of a step: the size of the contracted labels, doubled when a
    label is removed. *)
Definition step_cost (operands : list (gset label)) (g : list Z) : Z :=
  let c := _find_contraction g operands output in
  if decide (idx_removed c = ∅) then estimateSize (idx_contract c)
  else 2 * estimateSize (idx_contract c).

(** A property of every step of a path, each step seeing the sequence left
    by the steps before it. *)
Fixpoint each_step (P : list (gset label) -> list Z -> Prop)
    (path : list (list Z)) (operands : list (gset label)) : Prop :=
  match path with
  | [] => True
  | g :: path' => P operands g /\ each_step P path' (after_step operands g)
  end.

(** A feasible pairwise path: every step contracts a pair of positions of
    the current sequence and keeps within the memory limit.  It is complete
    when it has one step less than there are operands. *)
Definition feasible_step (operands : list (gset label)) (g : list Z) : Prop :=
  is_pair (length operands) g /\ within_memory operands g.

Definition feasible_path (path : list (list Z)) (operands : list (gset label))
  : Prop :=
  each_step feasible_step path operands.

Definition complete (path : list (list Z)) (operands : list (gset label)) : Prop :=
  length path = (length operands - 1)%nat.

(** The cumulative cost of a path. *)
Fixpoint path_cost (path : list (list Z)) (operands : list (gset label)) : Z :=
  match path with
  | [] => 0
  | g :: path' => step_cost operands g + path_cost path' (after_step operands g)
  end.

(** The ranking key of the opportunistic search, compared lexicographically. *)
Definition rank_key (operands : list (gset label)) (g : list Z) : Z * Z :=
  let c := _find_contraction g operands output in
  (- estimateSize (idx_removed c), estimateSize (idx_contract c)).

Definition key_le (a b : Z * Z) : Prop :=
  a.1 < b.1 \/ (a.1 = b.1 /\ a.2 <= b.2).

(** The step contracting the whole current sequence. *)
Definition fallback (operands : list (gset label)) : list Z :=
  range (length operands).
End Vocabulary.

#[global] Instance within_memory_dec output sizes memoryLimit operands g :
  Decision (within_memory output sizes memoryLimit operands g).
Proof. unfold within_memory. apply _. Defined.

(** The candidates held by the optimal search after [k] levels: the feasible
    pairwise paths of [k] steps, each with its cumulative cost and the
    sequence it leaves. *)
Definition level_inv (output : gset label) (sizes : gmap label Z) (memoryLimit : Z)
    (operands : list (gset label)) (k : nat) (L : list candidate) : Prop :=
  forall x, x ∈ L <->
    exists path, length path = k /\
      feasible_path output sizes memoryLimit path operands /\
      x = (path_cost output sizes path operands, path, replay output path operands).

(** The order in which [_path_optimal] ranks candidates: by cost, then by the
    sequence of position pairs. *)
Definition cost_path_lt (a b : Z * list (list Z)) : Prop :=
  a.1 < b.1 \/ (a.1 = b.1 /\ path_lt a.2 b.2).

(** The order in which [_path_opportunistic] ranks the pairs of one step: by
    the sort tuple, then by the positions. *)
Definition sort_positions_lt (a b : list Z * list Z) : Prop :=
  lex_lt Z.lt a.1 b.1 \/ (a.1 = b.1 /\ lex_lt Z.lt a.2 b.2).

(** A best step: a feasible pair whose ranking key no feasible pair of the
    same sequence undercuts. *)
Definition best_step (output : gset label) (sizes : gmap label Z) (memoryLimit : Z)
    (operands : list (gset label)) (g : list Z) : Prop :=
  feasible_step output sizes memoryLimit operands g /\
  forall g', feasible_step output sizes memoryLimit operands g' ->
    key_le (rank_key output sizes operands g) (rank_key output sizes operands g').

(** The entry of [iteration_results] recorded for a pair that passes the
    sieve. *)
Definition choice_of (output : gset label) (sizes : gmap label Z)
    (operands : list (gset label)) (g : list Z) : choice :=
  let key := rank_key output sizes operands g in
  ([key.1; key.2], g, after_step output operands g).

(** The order of the labels in the result of an intermediate step: by
    ascending size, then by label. *)
Definition label_size (sizes : gmap label Z) (l : label) : Z :=
  default 0 (sizes !! l).

Definition label_before (sizes : gmap label Z) (a b : label) : Prop :=
  label_size sizes a < label_size sizes b \/
  (label_size sizes a = label_size sizes b /\ (N_of_ascii a < N_of_ascii b)%N).

(** [r] lists the labels of [s], each once, in that order. *)
Definition ordered_result (sizes : gmap label Z) (s : gset label) (r : string)
  : Prop :=
  list_ascii_of_string r ≡ₚ elements s /\
  StronglySorted (label_before sizes) (list_ascii_of_string r).

(** The groups proposed by the searches: a pair of positions, or the whole
    sequence. *)
Definition search_group (n : nat) (g : list Z) : Prop :=
  is_pair n g \/ g = range n.

(** The result label order [r] of a contraction tuple: the term after the
    arrow of its [einsum_str], which is also the last of its remaining terms. *)
Definition instruction_result (c : contraction_tuple) (r : string) : Prop :=
  last c.2 = Some r /\
  exists tmp_inputs, c.1.2 = (String.concat "," tmp_inputs ++ "->" ++ r)%string.

(** The length of the list of terms after the steps of a path, each step
    removing its positions and appending its result. *)
Definition live_length (path : list group) (n : Z) : Z :=
  fold_left (fun n grp =>
               match grp with
               | GTuple g => n - Z.of_nat (length g) + 1
               | GInt _ => n
               end) path n.

(** A path that cannot be applied to [n] terms: one of its steps is a bare
    integer, or holds a position outside the list of terms current at that
    step. *)
Definition out_of_range (path : list group) (n : nat) : Prop :=
  exists k grp, path !! k = Some grp /\
    match grp with
    | GInt _ => True
    | GTuple g =>
        exists x, x ∈ g /\
          ~ (- live_length (take k path) (Z.of_nat n) <= x
             < live_length (take k path) (Z.of_nat n))
    end.

(** ** A running example: the chain [ab,bc,cd->ad] *)

Definition chain_terms : list string := ["ab"; "bc"; "cd"]%string.

Definition chain_shapes : list shape := [[2; 3]; [3; 4]; [4; 5]]%N.

Definition chain_sets : list (gset label) := set_of_str <$> chain_terms.

Definition chain_output : gset label := set_of_str "ad".

Definition chain_sizes : gmap label Z :=
  list_to_map [("a", 2); ("b", 3); ("c", 4); ("d", 5)]%char.

(** ** Vocabulary of the further properties *)

(** The product of the sizes of a sequence of labels. *)
Definition size_product (sizes : gmap label Z) (inds : list label) : Z :=
  foldr Z.mul 1 ((fun l => default 0 (sizes !! l)) <$> inds).

(** Every size is at least one. *)
Definition positive_sizes (sizes : gmap label Z) : Prop :=
  forall l v, sizes !! l = Some v -> 1 <= v.

(** The dictionary gives each label of a term the extent of the operand
    along the axis of that label (so they have as many labels as axes). *)
Definition agrees (sizes : gmap label Z) (term : string) (sh : shape) : Prop :=
  Forall2 (fun c dim => sizes !! c = Some (Z.of_N dim)) (list_ascii_of_string term) sh.

(** The terms and the shapes fit together: some assignment of sizes to the
    labels agrees with every operand. *)
Definition shapes_consistent (input_list : list string) (operands : list shape)
  : Prop :=
  exists sizes : gmap label Z, Forall2 (agrees sizes) input_list operands.

(** The number of elements of an array of a given shape. *)
Definition element_count (sh : shape) : Z := foldr Z.mul 1 (Z.of_N <$> sh).

(** The strategy names [contract] knows. *)
Definition known_strategy (name : string) : Prop :=
  name = "opportunistic"%string \/ name = "optimal"%string.

(** Every label of the output subscript is a label of some input term. *)
Definition output_in_inputs (input_list : list string) (output_subscript : string)
  : Prop :=
  set_of_str output_subscript ⊆ ⋃ (set_of_str <$> input_list).

(** A symbolic run of the contraction loop.  A symbolic operand is the term
    that describes an array together with the positions of the original
    operands it was computed from; the symbolic [einsum] accepts a call only
    when its string lists the terms of its arguments, in order, before the
    arrow, and returns the term after the arrow. *)
Fixpoint strip_prefix (p s : string) : option string :=
  match p, s with
  | EmptyString, _ => Some s
  | String a p', String b s' => if Ascii.eqb a b then strip_prefix p' s' else None
  | String _ _, EmptyString => None
  end.

Definition symbolic : Type := string * list nat.

Definition symbolic_einsum (einsum_str : string) (args : list symbolic)
  : result symbolic :=
  match strip_prefix (String.concat "," args.*1 ++ "->") einsum_str with
  | Some idx_result => Ok (idx_result, concat args.*2)
  | None => Raise ValueError
  end.

Definition symbolic_operands (input_list : list string) : list symbolic :=
  imap (fun i term => (term, [i])) input_list.

(** An [np.einsum] that refuses every call, on operands that stand for their
    shapes. *)
Definition refusing_einsum (einsum_str : string) (args : list shape)
  : result shape :=
  Raise ValueError.

(** Characters ordered by their code. *)
Definition char_before (a b : ascii) : Prop := (N_of_ascii a < N_of_ascii b)%N.

(** * Properties *)

Section FindContraction.
Implicit Types (positions : list Z) (input_sets : list (gset label)).

Lemma py_in_spec x positions : py_in x positions = true <-> x ∈ positions.
Proof.
  unfold py_in. rewrite existsb_exists. split.
  - intros (y & Hy & Heq). apply Z.eqb_eq in Heq. subst y. by apply list_elem_of_In.
  - intros H. exists x. split; [by apply list_elem_of_In | apply Z.eqb_refl].
Qed.

Lemma py_in_false x positions : py_in x positions = false <-> x ∉ positions.
Proof.
  rewrite <- py_in_spec. destruct (py_in x positions); split; congruence.
Qed.

(** The loop of [_find_contraction], from any intermediate state. *)
Lemma find_contraction_loop positions (ivs : list (Z * gset label)) c r rem :
  fold_left (find_contraction_body positions) ivs (c, r, rem) =
  (c ∪ ⋃ (filter (fun iv => iv.1 ∈ positions) ivs).*2,
   r ∪ ⋃ (filter (fun iv => iv.1 ∉ positions) ivs).*2,
   rem ++ (filter (fun iv => iv.1 ∉ positions) ivs).*2).
Proof.
  revert c r rem. induction ivs as [|[ind value] ivs IH]; intros c r rem; simpl.
  - f_equal; [f_equal; set_solver | by rewrite app_nil_r].
  - destruct (py_in ind positions) eqn:Hin.
    + apply py_in_spec in Hin. rewrite IH.
      rewrite filter_cons_True by done.
      rewrite (filter_cons_False (fun iv => iv.1 ∉ positions)) by (simpl; tauto).
      simpl. f_equal. f_equal. set_solver.
    + apply py_in_false in Hin. rewrite IH.
      rewrite filter_cons_False by done.
      rewrite (filter_cons_True (fun iv => iv.1 ∉ positions)) by done.
      simpl. rewrite <- app_assoc. simpl. f_equal. f_equal. set_solver.
Qed.

Lemma find_contraction_unfold positions input_sets output_set :
  _find_contraction positions input_sets output_set =
  let idx_contract := ⋃ selected positions input_sets in
  let new_result :=
    (output_set ∪ ⋃ not_selected positions input_sets) ∩ idx_contract in
  Contraction new_result (not_selected positions input_sets ++ [new_result])
              (idx_contract ∖ new_result) idx_contract.
Proof.
  unfold _find_contraction. rewrite find_contraction_loop.
  fold (selected positions input_sets) (not_selected positions input_sets).
  simpl. by rewrite (left_id_L ∅ (∪)).
Qed.

(** C2: [_find_contraction] returns the union of the selected descriptors as
    the contracted labels, the part of them still needed by the output or by
    a descriptor that is not selected as the surviving labels, the rest as
    the removed labels (so the surviving and the removed labels partition the
    contracted ones), and the descriptors that are not selected, in their
    original order, followed by the surviving labels. *)
Theorem find_contraction_spec positions input_sets output_set :
  let c := _find_contraction positions input_sets output_set in
  idx_contract c = ⋃ selected positions input_sets /\
  new_result c =
    (output_set ∪ ⋃ not_selected positions input_sets) ∩ idx_contract c /\
  idx_removed c = idx_contract c ∖ new_result c /\
  new_result c ∪ idx_removed c = idx_contract c /\
  new_result c ∩ idx_removed c = ∅ /\
  remaining c = not_selected positions input_sets ++ [new_result c].
Proof.
  rewrite find_contraction_unfold. simpl.
  repeat split; try reflexivity.
  - apply set_eq. intros l. rewrite elem_of_union, elem_of_difference.
    rewrite !elem_of_intersection.
    destruct (decide (l ∈ output_set ∪ ⋃ not_selected positions input_sets));
      tauto.
  - set_solver.
Qed.

End FindContraction.

(** ** Orders and sorting *)

Section LexOrder.
Context {A : Type} (lt : A -> A -> Prop).
Hypothesis lt_irrefl : forall x, ~ lt x x.
Hypothesis lt_trans : forall x y z, lt x y -> lt y z -> lt x z.
Hypothesis lt_total : forall x y, lt x y \/ x = y \/ lt y x.

Lemma lex_lt_irrefl (l : list A) : ~ lex_lt lt l l.
Proof.
  induction l as [|x l IH]; intros H; inversion H; subst; eauto.
  by eapply lt_irrefl.
Qed.

Lemma lex_lt_trans (l1 l2 l3 : list A) :
  lex_lt lt l1 l2 -> lex_lt lt l2 l3 -> lex_lt lt l1 l3.
Proof.
  intros H12. revert l3. induction H12; intros l3 H23; inversion H23; subst.
  - constructor.
  - constructor.
  - apply lex_lt_head. eauto.
  - by apply lex_lt_head.
  - by apply lex_lt_head.
  - apply lex_lt_tail. eauto.
Qed.

Lemma lex_lt_total (l1 l2 : list A) :
  lex_lt lt l1 l2 \/ l1 = l2 \/ lex_lt lt l2 l1.
Proof.
  revert l2. induction l1 as [|x l1 IH]; intros [|y l2].
  - right. by left.
  - left. constructor.
  - right. right. constructor.
  - destruct (lt_total x y) as [Hxy|[->|Hyx]].
    + left. by apply lex_lt_head.
    + destruct (IH l2) as [H|[->|H]].
      * left. by apply lex_lt_tail.
      * right. by left.
      * right. right. by apply lex_lt_tail.
    + right. right. by apply lex_lt_head.
Qed.

(** The comparison computed by [list_lt] is the lexicographic order. *)
Lemma list_lt_spec (eqb ltb : A -> A -> bool) :
  (forall x y, eqb x y = true <-> x = y) ->
  (forall x y, ltb x y = true <-> lt x y) ->
  forall l1 l2, list_lt eqb ltb l1 l2 = true <-> lex_lt lt l1 l2.
Proof.
  intros Heq Hlt. induction l1 as [|x l1 IH]; intros [|y l2]; simpl.
  - split; [done | intros H; inversion H].
  - split; [constructor | done].
  - split; [done | intros H; inversion H].
  - destruct (eqb x y) eqn:E.
    + apply Heq in E. subst y. rewrite IH. split.
      * apply lex_lt_tail.
      * intros H. inversion H; subst; [by destruct (lt_irrefl x) | done].
    + rewrite Hlt. split.
      * apply lex_lt_head.
      * intros H. inversion H; subst; [done |].
        assert (eqb y y = true) by by apply Heq. congruence.
Qed.

End LexOrder.

Lemma list_lt_irrefl {A : Type} (eqb ltb : A -> A -> bool) (l : list A) :
  (forall x, eqb x x = true) -> list_lt eqb ltb l l = false.
Proof. intros Heq. induction l as [|x l IH]; simpl; [done | by rewrite Heq]. Qed.

Lemma tuple_lt_spec (t1 t2 : list Z) : tuple_lt t1 t2 = true <-> lex_lt Z.lt t1 t2.
Proof.
  apply list_lt_spec.
  - apply Z.lt_irrefl.
  - apply Z.eqb_eq.
  - apply Z.ltb_lt.
Qed.

Lemma tuple_lt_total (t1 t2 : list Z) :
  lex_lt Z.lt t1 t2 \/ t1 = t2 \/ lex_lt Z.lt t2 t1.
Proof. apply lex_lt_total. lia. Qed.

Lemma positions_lt_spec (p1 p2 : list (list Z)) :
  positions_lt p1 p2 = true <-> path_lt p1 p2.
Proof.
  apply list_lt_spec.
  - apply lex_lt_irrefl, Z.lt_irrefl.
  - intros x y. apply bool_decide_eq_true.
  - apply tuple_lt_spec.
Qed.

Lemma path_lt_irrefl (p : list (list Z)) : ~ path_lt p p.
Proof. apply lex_lt_irrefl, lex_lt_irrefl, Z.lt_irrefl. Qed.

Lemma path_lt_trans (p1 p2 p3 : list (list Z)) :
  path_lt p1 p2 -> path_lt p2 p3 -> path_lt p1 p3.
Proof. apply lex_lt_trans, lex_lt_trans, Z.lt_trans. Qed.

Lemma path_lt_total (p1 p2 : list (list Z)) :
  path_lt p1 p2 \/ p1 = p2 \/ path_lt p2 p1.
Proof. apply lex_lt_total, tuple_lt_total. Qed.

(** The head of a sorted list is a least element, provided the comparison
    behaves on the elements of the list like a strict total order on keys. *)
Section SortHead.
Context {A K : Type} (ltb : A -> A -> bool) (key : A -> K) (R : K -> K -> Prop).
Hypothesis R_irrefl : forall k, ~ R k k.
Hypothesis R_trans : forall k1 k2 k3, R k1 k2 -> R k2 k3 -> R k1 k3.
Hypothesis R_total : forall k1 k2, R k1 k2 \/ k1 = k2 \/ R k2 k1.

Lemma py_sort_head (l : list A) :
  (forall a b, a ∈ l -> b ∈ l -> ltb a b = true <-> R (key a) (key b)) ->
  l <> [] ->
  exists h rest, py_sort ltb l = h :: rest /\ h ∈ l /\
                 forall x, x ∈ l -> ~ R (key x) (key h).
Proof.
  induction l as [|x l IH]; intros Hltb Hne; [done |]. clear Hne.
  destruct l as [|y l'].
  - exists x, []. split; [done |]. split; [set_solver |].
    intros z Hz. apply list_elem_of_singleton in Hz. subst z. apply R_irrefl.
  - destruct IH as (h & rest & Hsort & Hin & Hmin); [| done |].
    { intros a b Ha Hb. apply Hltb; by right. }
    unfold py_sort in *. simpl in *. rewrite Hsort. simpl.
    destruct (ltb h x) eqn:E.
    + eexists _, _. split; [done |]. split; [by right |].
      intros z Hz. apply elem_of_cons in Hz as [->|Hz]; [| by apply Hmin].
      apply Hltb in E; [| by right | by left].
      intros Hxh. eapply R_irrefl, R_trans; eauto.
    + eexists _, _. split; [done |]. split; [by left |].
      assert (~ R (key h) (key x)) as Hhx.
      { intros HR. apply Hltb in HR; [congruence | by right | by left]. }
      intros z Hz. apply elem_of_cons in Hz as [->|Hz]; [apply R_irrefl |].
      intros Hzx. specialize (Hmin z Hz).
      destruct (R_total (key h) (key z)) as [H|[H|H]]; [| | done].
      * apply Hhx. eauto.
      * apply Hhx. by rewrite H.
Qed.

End SortHead.

(** ** Loops in the error monad *)

Lemma bind_Ok {A B : Type} (a : A) (f : A -> result B) : (Ok a ≫= f) = f a.
Proof. reflexivity. Qed.

Lemma bind_Ok_inv {A B : Type} (c : result A) (f : A -> result B) (b : B) :
  (c ≫= f) = Ok b -> exists a, c = Ok a /\ f a = Ok b.
Proof. destruct c as [a|e]; [eauto | done]. Qed.

Lemma for_each_cons {A S : Type} (body : S -> A -> result S) x l (s : S) :
  for_each body (x :: l) s = (body s x ≫= for_each body l).
Proof. reflexivity. Qed.

Lemma getitem_Some (d : gmap label Z) (k : label) (v : Z) :
  d !! k = Some v -> getitem d k = Ok v.
Proof. unfold getitem. by intros ->. Qed.

Lemma getitem_None (d : gmap label Z) (k : label) :
  d !! k = None -> getitem d k = Raise KeyError.
Proof. unfold getitem. by intros ->. Qed.

(** ** The size estimate *)

Section Sizes.
Variable sizes : gmap label Z.

Lemma compute_size_loop (inds : list label) (acc : Z) :
  Forall (fun l => l ∈ dom sizes) inds ->
  for_each (fun ret i => v ← getitem sizes i; Ok (ret * v)) inds acc =
  Ok (acc * foldr Z.mul 1 ((fun l => default 0 (sizes !! l)) <$> inds)).
Proof.
  revert acc. induction inds as [|l inds IH]; intros acc Hall.
  - simpl. f_equal. lia.
  - inversion Hall as [|? ? Hl Hall']; subst.
    apply elem_of_dom in Hl as [v Hv].
    rewrite for_each_cons, (getitem_Some _ _ _ Hv), !bind_Ok, IH by done.
    rewrite fmap_cons, Hv. simpl. f_equal. lia.
Qed.

Lemma compute_size_raises (inds : list label) (acc : Z) :
  ~ Forall (fun l => l ∈ dom sizes) inds ->
  for_each (fun ret i => v ← getitem sizes i; Ok (ret * v)) inds acc = Raise KeyError.
Proof.
  revert acc. induction inds as [|l inds IH]; intros acc Hnot.
  - destruct Hnot. constructor.
  - rewrite for_each_cons. destruct (sizes !! l) as [v|] eqn:Hv.
    + rewrite (getitem_Some _ _ _ Hv), !bind_Ok.
      apply IH. intros Hall. apply Hnot. constructor; [| done].
      apply elem_of_dom. eauto.
    + by rewrite (getitem_None _ _ Hv).
Qed.

(** Under a size map that covers the labels, the estimate is the product. *)
Lemma size_of_set_covered (s : gset label) :
  s ⊆ dom sizes -> size_of_set s sizes = Ok (estimateSize sizes s).
Proof.
  intros Hsub. unfold size_of_set, _compute_size_by_dict, estimateSize.
  rewrite compute_size_loop; [f_equal; lia |].
  apply Forall_forall. intros l Hl. apply Hsub. by apply elem_of_elements.
Qed.

Lemma size_of_set_ok (s : gset label) (v : Z) :
  size_of_set s sizes = Ok v -> s ⊆ dom sizes /\ v = estimateSize sizes s.
Proof.
  intros H.
  destruct (decide (Forall (fun l => l ∈ dom sizes) (elements s))) as [Hall|Hnot].
  - assert (s ⊆ dom sizes) as Hsub.
    { intros l Hl. rewrite Forall_forall in Hall. apply Hall.
      by apply elem_of_elements. }
    rewrite size_of_set_covered in H by done. split; [done | congruence].
  - unfold size_of_set, _compute_size_by_dict in H.
    rewrite compute_size_raises in H by done. done.
Qed.

End Sizes.

(** ** Steps keep the labels among those of the operands *)

Section Steps.
Variable output : gset label.
Implicit Types (operands : list (gset label)) (g : list Z).

Lemma selected_subseteq g operands : selected g operands ⊆ operands.
Proof.
  intros s Hs. unfold selected in Hs. apply list_elem_of_fmap in Hs as ([i v] & -> & Hin).
  apply list_elem_of_filter in Hin as [_ Hin]. unfold enumerate in Hin.
  apply list_elem_of_lookup in Hin as [k Hk]. rewrite list_lookup_imap in Hk.
  destruct (operands !! k) eqn:E; simplify_eq/=. by eapply list_elem_of_lookup_2.
Qed.

Lemma not_selected_subseteq g operands : not_selected g operands ⊆ operands.
Proof.
  intros s Hs. unfold not_selected in Hs.
  apply list_elem_of_fmap in Hs as ([i v] & -> & Hin).
  apply list_elem_of_filter in Hin as [_ Hin]. unfold enumerate in Hin.
  apply list_elem_of_lookup in Hin as [k Hk]. rewrite list_lookup_imap in Hk.
  destruct (operands !! k) eqn:E; simplify_eq/=. by eapply list_elem_of_lookup_2.
Qed.

Lemma union_list_mono (l1 l2 : list (gset label)) : l1 ⊆ l2 -> ⋃ l1 ⊆ ⋃ l2.
Proof.
  intros Hsub x Hx. apply elem_of_union_list in Hx as (s & Hs & Hx).
  apply elem_of_union_list. exists s. split; [by apply Hsub | done].
Qed.

Lemma idx_contract_subseteq g operands :
  idx_contract (_find_contraction g operands output) ⊆ ⋃ operands.
Proof.
  rewrite find_contraction_unfold. simpl. apply union_list_mono, selected_subseteq.
Qed.

Lemma new_result_subseteq g operands :
  new_result (_find_contraction g operands output) ⊆ ⋃ operands.
Proof.
  etrans; [| apply (idx_contract_subseteq g)].
  rewrite find_contraction_unfold. simpl. set_solver.
Qed.

Lemma idx_removed_subseteq g operands :
  idx_removed (_find_contraction g operands output) ⊆ ⋃ operands.
Proof.
  etrans; [| apply (idx_contract_subseteq g)].
  rewrite find_contraction_unfold. simpl. set_solver.
Qed.

Lemma after_step_unfold g operands :
  after_step output operands g =
  not_selected g operands ++ [new_result (_find_contraction g operands output)].
Proof. unfold after_step. by rewrite find_contraction_unfold. Qed.

Lemma after_step_subseteq g operands :
  ⋃ after_step output operands g ⊆ ⋃ operands.
Proof.
  rewrite after_step_unfold, union_list_app. simpl.
  pose proof (new_result_subseteq g operands).
  pose proof (union_list_mono _ _ (not_selected_subseteq g operands)).
  set_solver.
Qed.

Lemma replay_subseteq (path : list (list Z)) operands :
  ⋃ replay output path operands ⊆ ⋃ operands.
Proof.
  revert operands. induction path as [|g path IH]; intros operands; simpl; [done |].
  etrans; [apply IH | apply after_step_subseteq].
Qed.

Lemma covers_after_step sizes g operands :
  covers sizes operands -> covers sizes (after_step output operands g).
Proof. unfold covers. intros H. etrans; [apply after_step_subseteq | done]. Qed.

Lemma covers_replay sizes (path : list (list Z)) operands :
  covers sizes operands -> covers sizes (replay output path operands).
Proof. unfold covers. intros H. etrans; [apply replay_subseteq | done]. Qed.

End Steps.

(** ** Pairs of positions *)

Lemma triu_indices_spec (n : nat) (g : list Z) :
  g ∈ triu_indices n <-> is_pair n g.
Proof.
  unfold triu_indices, is_pair. rewrite list_elem_of_In, in_flat_map. split.
  - intros (i & Hi & Hg). apply in_map_iff in Hg as (j & <- & Hj).
    apply in_seq in Hi, Hj. exists (Z.of_nat i), (Z.of_nat j). split; [done | lia].
  - intros (i & j & -> & Hij & Hj). exists (Z.to_nat i). split.
    + apply in_seq. lia.
    + apply in_map_iff. exists (Z.to_nat j). split.
      * f_equal; [lia | f_equal; lia].
      * apply in_seq. lia.
Qed.

Lemma filter_length_split {A : Type} (P : A -> Prop) `{!forall x, Decision (P x)}
    (l : list A) :
  (length (filter P l) + length (filter (fun x => ~ P x) l) = length l)%nat.
Proof.
  induction l as [|x l IH]; [done |].
  destruct (decide (P x)) as [HP|HP].
  - rewrite filter_cons_True, (filter_cons_False (fun x => ~ P x)) by tauto.
    simpl. lia.
  - rewrite filter_cons_False, (filter_cons_True (fun x => ~ P x)) by tauto.
    simpl. lia.
Qed.

Lemma filter_none {A : Type} (P : A -> Prop) `{!forall x, Decision (P x)}
    (l : list A) :
  (forall x, x ∈ l -> ~ P x) -> filter P l = [].
Proof.
  intros Hall. destruct (filter P l) as [|x l'] eqn:E; [done |].
  assert (x ∈ filter P l) as Hx by (rewrite E; by left).
  apply list_elem_of_filter in Hx as [HP Hx]. by destruct (Hall x).
Qed.

Lemma selected_length (g : list Z) (operands : list (gset label)) :
  (length (selected g operands) + length (not_selected g operands) =
   length operands)%nat.
Proof.
  unfold selected, not_selected. rewrite !length_fmap.
  rewrite (filter_length_split (fun iv : Z * gset label => iv.1 ∈ g)).
  unfold enumerate. by rewrite length_imap.
Qed.

Lemma pair_count (l : list (gset label)) (k : nat) (i j : Z) :
  i < j ->
  length (filter (fun iv : Z * gset label => iv.1 ∈ [i; j])
                 (imap (fun a v => (Z.of_nat (k + a), v)) l)) =
  ((if decide (Z.of_nat k <= i < Z.of_nat (k + length l))%Z then 1 else 0) +
   (if decide (Z.of_nat k <= j < Z.of_nat (k + length l))%Z then 1 else 0))%nat.
Proof.
  intros Hij. revert k. induction l as [|v l IH]; intros k.
  - simpl. repeat case_decide; lia.
  - rewrite imap_cons.
    rewrite (imap_ext _ (fun a v => (Z.of_nat (S k + a), v))); last first.
    { intros a x _. simpl. do 2 f_equal. lia. }
    destruct (decide (Z.of_nat (k + 0) ∈ [i; j])) as [Hin|Hin].
    + rewrite filter_cons_True by done. rewrite length_cons, IH, length_cons.
      assert (Z.of_nat (k + 0) = i \/ Z.of_nat (k + 0) = j) by set_solver.
      repeat case_decide; lia.
    + rewrite filter_cons_False by done. rewrite IH.
      assert (Z.of_nat (k + 0) <> i /\ Z.of_nat (k + 0) <> j) by set_solver.
      rewrite length_cons. repeat case_decide; lia.
Qed.

Section PairSteps.
Variable output : gset label.
Implicit Types (operands : list (gset label)) (g : list Z).

(** A pair step shortens the sequence by one. *)
Lemma after_pair_length operands g :
  is_pair (length operands) g ->
  length (after_step output operands g) = (length operands - 1)%nat.
Proof.
  intros (i & j & -> & Hij & Hj). rewrite after_step_unfold, length_app. simpl.
  pose proof (selected_length [i; j] operands) as Hlen.
  unfold selected in Hlen at 1. rewrite length_fmap in Hlen.
  unfold enumerate in Hlen.
  rewrite (imap_ext _ (fun a v => (Z.of_nat (0 + a), v))) in Hlen by done.
  rewrite pair_count in Hlen by lia.
  repeat case_decide; lia.
Qed.

Lemma feasible_path_length (sizes : gmap label Z) (memoryLimit : Z)
    (path : list (list Z)) operands :
  feasible_path output sizes memoryLimit path operands ->
  (length path + length (replay output path operands) = length operands)%nat /\
  (path <> [] -> length path < length operands)%nat.
Proof.
  revert operands. induction path as [|g path IH]; intros operands Hf.
  - simpl. split; [done | congruence].
  - destruct Hf as [[Hpair Hmem] Hf]. apply IH in Hf as [Hlen Hlt].
    rewrite after_pair_length in Hlen, Hlt by done. simpl.
    destruct Hpair as (i & j & _ & ? & ?).
    split; [lia |]. intros _. destruct path; simpl in *; [lia |].
    specialize (Hlt ltac:(done)). lia.
Qed.

(** The fallback step selects every descriptor. *)
Lemma not_selected_fallback operands :
  not_selected (fallback operands) operands = [].
Proof.
  unfold not_selected, fallback, range, enumerate.
  rewrite filter_none; [done |].
  intros [i v] Hin Hnot. apply Hnot. simpl.
  apply list_elem_of_lookup in Hin as [k Hk]. rewrite list_lookup_imap in Hk.
  destruct (operands !! k) eqn:E; simplify_eq/=.
  apply list_elem_of_fmap. exists k. split; [done |].
  apply list_elem_of_In, in_seq. apply lookup_lt_Some in E. lia.
Qed.

End PairSteps.

(** ** Paths, step by step *)

Section Paths.
Variable output : gset label.
Variable sizes : gmap label Z.
Variable memoryLimit : Z.
Implicit Types (operands : list (gset label)) (g : list Z) (path : list (list Z)).

Lemma replay_app path1 path2 operands :
  replay output (path1 ++ path2) operands =
  replay output path2 (replay output path1 operands).
Proof. unfold replay. apply fold_left_app. Qed.

Lemma each_step_app P path1 path2 operands :
  each_step output P (path1 ++ path2) operands <->
  each_step output P path1 operands /\
  each_step output P path2 (replay output path1 operands).
Proof.
  revert operands. induction path1 as [|g path1 IH]; intros operands; simpl.
  - tauto.
  - rewrite IH. tauto.
Qed.

Lemma feasible_path_snoc path g operands :
  feasible_path output sizes memoryLimit (path ++ [g]) operands <->
  feasible_path output sizes memoryLimit path operands /\
  feasible_step output sizes memoryLimit (replay output path operands) g.
Proof. unfold feasible_path. rewrite each_step_app. simpl. tauto. Qed.

Lemma path_cost_app path1 path2 operands :
  path_cost output sizes (path1 ++ path2) operands =
  path_cost output sizes path1 operands +
  path_cost output sizes path2 (replay output path1 operands).
Proof.
  revert operands. induction path1 as [|g path1 IH]; intros operands; simpl.
  - done.
  - rewrite IH. lia.
Qed.

Lemma each_step_impl (P Q : list (gset label) -> list Z -> Prop) path operands :
  (forall ops g, P ops g -> Q ops g) ->
  each_step output P path operands -> each_step output Q path operands.
Proof.
  intros HPQ. revert operands. induction path as [|g path IH]; intros operands.
  - done.
  - simpl. intros [HP Hrest]. split; [by apply HPQ | by apply IH].
Qed.

End Paths.

(** ** The optimal search *)

Section Optimal.
Variable output : gset label.
Variable sizes : gmap label Z.
Variable memoryLimit : Z.
Implicit Types (operands : list (gset label)) (g : list Z) (path : list (list Z)).

#[local] Abbreviation within := (within_memory output sizes memoryLimit).
#[local] Abbreviation cost_of := (step_cost output sizes).
#[local] Abbreviation next := (after_step output).

Lemma optimal_body_unfold cost positions operands new con :
  optimal_body output sizes memoryLimit (cost, positions, operands) new con =
  let c := _find_contraction con operands output in
  result_size ← size_of_set (new_result c) sizes;
  if memoryLimit <? result_size then Ok new
  else
    new_cost ← size_of_set (idx_contract c) sizes;
    Ok (new ++ [((if bool_decide (0 < size (idx_removed c))%nat
                  then new_cost * 2 else new_cost) + cost,
                 positions ++ [con], remaining c)]).
Proof.
  unfold optimal_body. by destruct (_find_contraction con operands output).
Qed.

Lemma removed_doubles (ir : gset label) (v : Z) :
  (if bool_decide (0 < size ir)%nat then v * 2 else v) =
  (if decide (ir = ∅) then v else 2 * v).
Proof.
  destruct (decide (ir = ∅)) as [->|Hne].
  - rewrite bool_decide_eq_false_2; [done |]. rewrite size_empty. lia.
  - rewrite bool_decide_eq_true_2; [lia |].
    assert (size ir <> 0%nat); [| lia].
    intros H0. apply size_empty_iff in H0. by apply leibniz_equiv in H0.
Qed.

(** One pair tried from one candidate: it is kept, with its cost added, when
    its result fits in memory. *)
Lemma optimal_body_spec cost positions operands new con :
  covers sizes operands ->
  optimal_body output sizes memoryLimit (cost, positions, operands) new con =
  Ok (if decide (within operands con)
      then new ++ [(cost_of operands con + cost, positions ++ [con],
                    next operands con)]
      else new).
Proof.
  intros Hcov. rewrite optimal_body_unfold. cbv zeta.
  pose proof (new_result_subseteq output con operands) as Hnr.
  pose proof (idx_contract_subseteq output con operands) as Hic.
  rewrite (size_of_set_covered sizes (new_result _))
    by (etrans; [apply Hnr | apply Hcov]).
  rewrite bind_Ok.
  destruct (decide (within operands con)) as [Hw|Hw]; unfold within_memory in Hw.
  - rewrite (proj2 (Z.ltb_ge _ _)) by lia.
    rewrite (size_of_set_covered sizes (idx_contract _))
      by (etrans; [apply Hic | apply Hcov]).
    rewrite bind_Ok, removed_doubles. done.
  - by rewrite (proj2 (Z.ltb_lt _ _)) by lia.
Qed.

Lemma optimal_inner_spec cost positions operands comb new :
  covers sizes operands ->
  exists ext,
    for_each (optimal_body output sizes memoryLimit (cost, positions, operands))
             comb new = Ok (new ++ ext) /\
    forall x, x ∈ ext <->
      exists con, con ∈ comb /\ within operands con /\
        x = (cost_of operands con + cost, positions ++ [con], next operands con).
Proof.
  intros Hcov. revert new. induction comb as [|con comb IH]; intros new.
  - exists []. rewrite app_nil_r. split; [done |]. intros x. split.
    + intros Hx. inversion Hx.
    + intros (con & Hcon & _). inversion Hcon.
  - rewrite for_each_cons, optimal_body_spec, bind_Ok by done.
    destruct (decide (within operands con)) as [Hw|Hw].
    + destruct (IH (new ++ [(cost_of operands con + cost, positions ++ [con],
                             next operands con)])) as (ext & -> & Hext).
      eexists (_ :: ext). split; [by rewrite <- app_assoc |].
      intros x. rewrite elem_of_cons, Hext. split.
      * intros [->|(con' & Hin & Hw' & ->)]; [exists con | exists con'];
          (split; [set_solver | done]).
      * intros (con' & Hin & Hw' & ->).
        apply elem_of_cons in Hin as [->|Hin]; [by left | right; eauto].
    + destruct (IH new) as (ext & -> & Hext). exists ext. split; [done |].
      intros x. rewrite Hext. split.
      * intros (con' & Hin & Hw' & ->). exists con'. split; [set_solver | done].
      * intros (con' & Hin & Hw' & ->).
        apply elem_of_cons in Hin as [->|Hin]; [done | eauto].
Qed.

Lemma optimal_level_spec comb (current : list candidate) acc :
  (forall x, x ∈ current -> covers sizes x.2) ->
  exists ext,
    for_each (fun new curr =>
                for_each (optimal_body output sizes memoryLimit curr) comb new)
             current acc = Ok (acc ++ ext) /\
    forall x, x ∈ ext <->
      exists curr con, curr ∈ current /\ con ∈ comb /\ within curr.2 con /\
        x = (cost_of curr.2 con + curr.1.1, curr.1.2 ++ [con], next curr.2 con).
Proof.
  revert acc. induction current as [|[[cost positions] operands] current IH];
    intros acc Hcov.
  - exists []. rewrite app_nil_r. split; [done |]. intros x. split.
    + intros Hx. inversion Hx.
    + intros (curr & con & Hcurr & _). inversion Hcurr.
  - rewrite for_each_cons.
    destruct (optimal_inner_spec cost positions operands comb acc)
      as (ext1 & -> & Hext1).
    { apply (Hcov (cost, positions, operands)). by left. }
    rewrite bind_Ok.
    destruct (IH (acc ++ ext1)) as (ext2 & -> & Hext2).
    { intros x Hx. apply Hcov. by right. }
    exists (ext1 ++ ext2). split; [by rewrite <- app_assoc |].
    intros x. rewrite elem_of_app, Hext1, Hext2. split.
    + intros [(con & Hin & Hw & ->)|(curr & con & Hcurr & Hin & Hw & ->)].
      * exists (cost, positions, operands), con. split; [by left | done].
      * exists curr, con. split; [by right | done].
    + intros (curr & con & Hcurr & Hin & Hw & ->).
      apply elem_of_cons in Hcurr as [->|Hcurr]; [left | right]; eauto 10.
Qed.

End Optimal.

Section OptimalLevels.
Variable output : gset label.
Variable sizes : gmap label Z.
Variable memoryLimit : Z.
Variable operands : list (gset label).
Hypothesis Hcov : covers sizes operands.

#[local] Abbreviation inv := (level_inv output sizes memoryLimit operands).

Lemma level_inv_start : inv 0 [(0, [], operands)].
Proof.
  intros x. rewrite list_elem_of_singleton. split.
  - intros ->. exists []. by repeat split.
  - intros (path & Hlen & _ & ->). by destruct path.
Qed.

(** One level of the search takes the feasible paths of [k] steps to those of
    [k + 1] steps. *)
Lemma level_inv_step (k : nat) (L : list candidate) :
  inv k L ->
  exists L',
    optimal_level output sizes memoryLimit
                  (triu_indices (length operands - k)) L = Ok L' /\
    inv (S k) L'.
Proof.
  intros HL. unfold optimal_level.
  destruct (optimal_level_spec output sizes memoryLimit
              (triu_indices (length operands - k)) L []) as (L' & -> & HL').
  { intros x Hx. apply HL in Hx as (path & _ & _ & ->). simpl.
    by apply covers_replay. }
  exists L'. split; [done |]. intros x. rewrite HL'. split.
  - intros (curr & con & Hcurr & Hcon & Hw & ->).
    apply HL in Hcurr as (path & Hlen & Hfeas & ->). simpl in *.
    apply triu_indices_spec in Hcon.
    pose proof (feasible_path_length _ _ _ _ _ Hfeas) as [Hl _].
    exists (path ++ [con]). split; [rewrite length_app; simpl; lia |]. split.
    + apply feasible_path_snoc. split; [done |]. split; [| done].
      replace (length (replay output path operands)) with (length operands - k)%nat
        by lia. done.
    + rewrite path_cost_app, replay_app. simpl. do 2 f_equal. lia.
  - intros (path & Hlen & Hfeas & ->).
    destruct path as [|g path _] using rev_ind; [done |].
    rewrite length_app in Hlen. simpl in Hlen.
    apply feasible_path_snoc in Hfeas as [Hfeas [Hpair Hw]].
    pose proof (feasible_path_length _ _ _ _ _ Hfeas) as [Hl _].
    exists (path_cost output sizes path operands, path, replay output path operands), g.
    split; [apply HL; exists path; split; [lia | done] |]. simpl.
    split.
    { apply triu_indices_spec.
      replace (length operands - k)%nat with (length (replay output path operands))
        by lia. done. }
    split; [done |].
    rewrite path_cost_app, replay_app. simpl. do 2 f_equal. lia.
Qed.

(** The outer loop, started at level [k] and run for [m] more levels. *)
Lemma optimal_loop_spec (m k : nat) (L : list candidate) (new : option (list candidate)) :
  inv k L ->
  exists L',
    for_each (optimal_iteration operands output sizes memoryLimit) (seq k m) (L, new)
    = Ok (L', if m is O then new else Some L') /\
    inv (k + m) L' /\ (m = 0%nat -> L' = L).
Proof.
  revert k L new. induction m as [|m IH]; intros k L new HL.
  - exists L. simpl. by rewrite Nat.add_0_r.
  - rewrite <- cons_seq, for_each_cons.
    destruct (level_inv_step k L HL) as (L1 & HL1' & HL1).
    assert (optimal_iteration operands output sizes memoryLimit (L, new) k =
            Ok (L1, Some L1)) as ->.
    { unfold optimal_iteration. simpl fst. by rewrite HL1'. }
    rewrite !bind_Ok.
    destruct (IH (S k) L1 (Some L1) HL1) as (L' & -> & HL' & H0).
    exists L'. split; [destruct m; [by rewrite H0 | done] |].
    split; [| done].
    by replace (k + S m)%nat with (S k + m)%nat by lia.
Qed.

(** What [_path_optimal] returns, in terms of the complete feasible paths. *)
Lemma path_optimal_unfold :
  (2 <= length operands)%nat ->
  exists L,
    inv (length operands - 1) L /\
    _path_optimal operands output sizes memoryLimit =
    match py_sort candidate_lt L with
    | [] => Ok [range (length operands)]
    | best :: _ => Ok best.1.2
    end.
Proof.
  intros Hn. unfold _path_optimal.
  destruct (optimal_loop_spec (length operands - 1) 0 [(0, [], operands)] None)
    as (L & Hloop & HL & _); [apply level_inv_start |].
  exists L. split; [done |]. cbv zeta. rewrite Hloop, bind_Ok. simpl snd.
  destruct (length operands - 1)%nat eqn:E; [lia |].
  destruct L as [|x L]; [done |]. simpl length. simpl Nat.eqb. cbv iota.
  destruct (py_sort candidate_lt (x :: L)) eqn:Es; [| done].
  exfalso. unfold py_sort in Es. simpl in Es.
  destruct (foldr (sort_insert candidate_lt) [] L); simpl in Es; [done |].
  by destruct (candidate_lt c x).
Qed.

End OptimalLevels.

Lemma cost_path_lt_irrefl (k : Z * list (list Z)) : ~ cost_path_lt k k.
Proof.
  intros [H|[_ H]]; [lia | by apply path_lt_irrefl in H].
Qed.

Lemma cost_path_lt_trans (k1 k2 k3 : Z * list (list Z)) :
  cost_path_lt k1 k2 -> cost_path_lt k2 k3 -> cost_path_lt k1 k3.
Proof.
  unfold cost_path_lt. intros [H12|[E12 H12]] [H23|[E23 H23]].
  - left. lia.
  - left. lia.
  - left. lia.
  - right. split; [lia | by eapply path_lt_trans].
Qed.

Lemma cost_path_lt_total (k1 k2 : Z * list (list Z)) :
  cost_path_lt k1 k2 \/ k1 = k2 \/ cost_path_lt k2 k1.
Proof.
  destruct k1 as [c1 p1], k2 as [c2 p2]. unfold cost_path_lt. simpl.
  destruct (Z.lt_total c1 c2) as [H|[->|H]]; [by left; left | | by right; right; left].
  destruct (path_lt_total p1 p2) as [H|[->|H]].
  - left. by right.
  - right. by left.
  - right. right. by right.
Qed.

Lemma sets_lt_irrefl (r : list (gset label)) : sets_lt r r = false.
Proof. apply list_lt_irrefl. intros x. by apply bool_decide_eq_true. Qed.

(** On candidates whose remaining sequence is determined by their path,
    the tuple comparison is the order by cost, then by path. *)
Lemma candidate_lt_spec (a b : candidate) :
  (a.1.2 = b.1.2 -> a.2 = b.2) ->
  candidate_lt a b = true <-> cost_path_lt a.1 b.1.
Proof.
  destruct a as [[c1 p1] r1], b as [[c2 p2] r2]. simpl. intros Hdet.
  unfold candidate_lt, cost_path_lt. simpl.
  destruct (Z.eqb_spec c1 c2) as [->|Hc]; simpl.
  - destruct (decide (p1 = p2)) as [->|Hp].
    + rewrite bool_decide_eq_true_2 by done. simpl. rewrite Hdet by done.
      rewrite sets_lt_irrefl. split; [done |].
      intros [H|[_ H]]; [lia | by apply path_lt_irrefl in H].
    + rewrite bool_decide_eq_false_2 by done. simpl. rewrite positions_lt_spec.
      split; [by right | intros [H|[_ H]]; [lia | done]].
  - rewrite Z.ltb_lt. split; [by left | intros [H|[H _]]; [done | lia]].
Qed.

Section OptimalResult.
Variable output : gset label.
Variable sizes : gmap label Z.
Variable memoryLimit : Z.
Variable operands : list (gset label).
Hypothesis Hcov : covers sizes operands.
Hypothesis Hlen : (2 <= length operands)%nat.

#[local] Abbreviation feasible := (feasible_path output sizes memoryLimit).
#[local] Abbreviation cost := (path_cost output sizes).

(** [_path_optimal] returns the fallback when no complete feasible path
    exists, and otherwise a complete feasible path that no other one
    precedes in the order by cost, then by path. *)
Lemma path_optimal_result :
  ((forall q, complete q operands -> ~ feasible q operands) /\
   _path_optimal operands output sizes memoryLimit = Ok [fallback operands]) \/
  (exists p, _path_optimal operands output sizes memoryLimit = Ok p /\
     complete p operands /\ feasible p operands /\
     forall q, complete q operands -> feasible q operands ->
       ~ cost_path_lt (cost q operands, q) (cost p operands, p)).
Proof.
  destruct (path_optimal_unfold output sizes memoryLimit operands Hcov Hlen)
    as (L & HL & ->).
  destruct (decide (L = [])) as [->|HLne].
  - left. split; [| done]. intros q Hq Hf.
    assert (H : (cost q operands, q, replay output q operands) ∈ @nil candidate).
    { apply HL. exists q. by repeat split. }
    inversion H.
  - right.
    destruct (py_sort_head candidate_lt (fun x : candidate => x.1) cost_path_lt
                cost_path_lt_irrefl cost_path_lt_trans cost_path_lt_total L)
      as (h & rest & -> & Hin & Hmin).
    + intros a b Ha Hb. apply candidate_lt_spec.
      apply HL in Ha as (pa & _ & _ & ->). apply HL in Hb as (pb & _ & _ & ->).
      simpl. by intros ->.
    + done.
    + apply HL in Hin as (p & Hp & Hf & ->). exists p. simpl.
      split; [done |]. split; [done |]. split; [done |].
      intros q Hq Hfq.
      apply (Hmin (cost q operands, q, replay output q operands)).
      apply HL. exists q. by repeat split.
Qed.

End OptimalResult.

(** ** The opportunistic search *)

Lemma sort_positions_lt_irrefl (k : list Z * list Z) : ~ sort_positions_lt k k.
Proof.
  intros [H|[_ H]]; by apply (lex_lt_irrefl Z.lt Z.lt_irrefl) in H.
Qed.

Lemma sort_positions_lt_trans (k1 k2 k3 : list Z * list Z) :
  sort_positions_lt k1 k2 -> sort_positions_lt k2 k3 -> sort_positions_lt k1 k3.
Proof.
  unfold sort_positions_lt. intros [H12|[E12 H12]] [H23|[E23 H23]].
  - left. by eapply (lex_lt_trans Z.lt Z.lt_trans).
  - left. by rewrite <- E23.
  - left. by rewrite E12.
  - right. split; [congruence | by eapply (lex_lt_trans Z.lt Z.lt_trans)].
Qed.

Lemma sort_positions_lt_total (k1 k2 : list Z * list Z) :
  sort_positions_lt k1 k2 \/ k1 = k2 \/ sort_positions_lt k2 k1.
Proof.
  destruct k1 as [s1 g1], k2 as [s2 g2]. unfold sort_positions_lt. simpl.
  destruct (tuple_lt_total s1 s2) as [H|[->|H]]; [by left; left | | by right; right; left].
  destruct (tuple_lt_total g1 g2) as [H|[->|H]].
  - left. by right.
  - right. by left.
  - right. right. by right.
Qed.

Lemma choice_lt_spec (a b : choice) :
  (a.1.2 = b.1.2 -> a.2 = b.2) ->
  choice_lt a b = true <-> sort_positions_lt a.1 b.1.
Proof.
  destruct a as [[s1 g1] r1], b as [[s2 g2] r2]. simpl. intros Hdet.
  unfold choice_lt, sort_positions_lt. simpl.
  destruct (decide (s1 = s2)) as [->|Hs].
  - rewrite bool_decide_eq_true_2 by done. simpl.
    destruct (decide (g1 = g2)) as [->|Hg].
    + rewrite bool_decide_eq_true_2 by done. simpl. rewrite Hdet by done.
      rewrite sets_lt_irrefl. split; [done |].
      intros [H|[_ H]]; by apply (lex_lt_irrefl Z.lt Z.lt_irrefl) in H.
    + rewrite bool_decide_eq_false_2 by done. simpl. rewrite tuple_lt_spec.
      split; [by right |].
      intros [H|[_ H]]; [by apply (lex_lt_irrefl Z.lt Z.lt_irrefl) in H | done].
  - rewrite bool_decide_eq_false_2 by done. simpl. rewrite tuple_lt_spec.
    split; [by left | intros [H|[H _]]; done].
Qed.

Section Opportunistic.
Variable output : gset label.
Variable sizes : gmap label Z.
Variable memoryLimit : Z.
Implicit Types (operands : list (gset label)) (g : list Z) (path : list (list Z)).

#[local] Abbreviation within := (within_memory output sizes memoryLimit).
#[local] Abbreviation next := (after_step output).
#[local] Abbreviation feasible_pair := (feasible_step output sizes memoryLimit).
#[local] Abbreviation best := (best_step output sizes memoryLimit).

#[local] Abbreviation entry := (choice_of output sizes).

Lemma opportunistic_body_unfold operands results g :
  opportunistic_body operands output sizes memoryLimit results g =
  let c := _find_contraction g operands output in
  result_size ← size_of_set (new_result c) sizes;
  if memoryLimit <? result_size then Ok results
  else
    removed_size ← size_of_set (idx_removed c) sizes;
    cost ← size_of_set (idx_contract c) sizes;
    Ok (results ++ [([- removed_size; cost], g, remaining c)]).
Proof.
  unfold opportunistic_body. by destruct (_find_contraction g operands output).
Qed.

Lemma opportunistic_body_spec operands results g :
  covers sizes operands ->
  opportunistic_body operands output sizes memoryLimit results g =
  Ok (if decide (within operands g) then results ++ [entry operands g] else results).
Proof.
  intros Hcov. rewrite opportunistic_body_unfold. cbv zeta.
  pose proof (new_result_subseteq output g operands) as Hnr.
  pose proof (idx_contract_subseteq output g operands) as Hic.
  pose proof (idx_removed_subseteq output g operands) as Hir.
  rewrite (size_of_set_covered sizes (new_result _))
    by (etrans; [apply Hnr | apply Hcov]).
  rewrite bind_Ok.
  destruct (decide (within operands g)) as [Hw|Hw]; unfold within_memory in Hw.
  - rewrite (proj2 (Z.ltb_ge _ _)) by lia.
    rewrite (size_of_set_covered sizes (idx_removed _))
      by (etrans; [apply Hir | apply Hcov]).
    rewrite (size_of_set_covered sizes (idx_contract _))
      by (etrans; [apply Hic | apply Hcov]).
    by rewrite !bind_Ok.
  - by rewrite (proj2 (Z.ltb_lt _ _)) by lia.
Qed.

Lemma opportunistic_inner_spec operands comb results :
  covers sizes operands ->
  exists ext,
    for_each (opportunistic_body operands output sizes memoryLimit) comb results
    = Ok (results ++ ext) /\
    forall x, x ∈ ext <->
      exists g, g ∈ comb /\ within operands g /\ x = entry operands g.
Proof.
  intros Hcov. revert results. induction comb as [|g comb IH]; intros results.
  - exists []. rewrite app_nil_r. split; [done |]. intros x. split.
    + intros Hx. inversion Hx.
    + intros (g & Hg & _). inversion Hg.
  - rewrite for_each_cons, opportunistic_body_spec, bind_Ok by done.
    destruct (decide (within operands g)) as [Hw|Hw].
    + destruct (IH (results ++ [entry operands g])) as (ext & -> & Hext).
      eexists (_ :: ext). split; [by rewrite <- app_assoc |].
      intros x. rewrite elem_of_cons, Hext. split.
      * intros [->|(g' & Hin & Hw' & ->)]; [exists g | exists g'];
          (split; [set_solver | done]).
      * intros (g' & Hin & Hw' & ->).
        apply elem_of_cons in Hin as [->|Hin]; [by left | right; eauto].
    + destruct (IH results) as (ext & -> & Hext). exists ext. split; [done |].
      intros x. rewrite Hext. split.
      * intros (g' & Hin & Hw' & ->). exists g'. split; [set_solver | done].
      * intros (g' & Hin & Hw' & ->).
        apply elem_of_cons in Hin as [->|Hin]; [done | eauto].
Qed.

(** The loop commits a best step as long as some pair is feasible, and
    otherwise ends with the step that contracts the whole current sequence. *)
Lemma opportunistic_loop_spec (iterations : list nat) path operands :
  covers sizes operands ->
  exists q,
    each_step output best q operands /\
    ((length q = length iterations /\
      opportunistic_loop iterations output sizes memoryLimit path operands
      = Ok (path ++ q)) \/
     ((length q < length iterations)%nat /\
      (forall g, ~ feasible_pair (replay output q operands) g) /\
      opportunistic_loop iterations output sizes memoryLimit path operands
      = Ok (path ++ q ++ [fallback (replay output q operands)]))).
Proof.
  revert path operands. induction iterations as [|it iterations IH];
    intros path operands Hcov.
  - exists []. split; [done |]. left. by rewrite app_nil_r.
  - simpl opportunistic_loop.
    destruct (opportunistic_inner_spec operands (triu_indices (length operands)) []
                Hcov) as (ext & -> & Hext).
    rewrite bind_Ok, app_nil_l.
    destruct (decide (ext = [])) as [->|Hne].
    + exists []. split; [done |]. right. simpl. split; [lia |]. split; [| done].
      intros g [Hpair Hw].
      assert (H : entry operands g ∈ @nil choice).
      { apply Hext. exists g. split; [by apply triu_indices_spec | done]. }
      inversion H.
    + destruct (py_sort_head choice_lt (fun x : choice => x.1) sort_positions_lt
                  sort_positions_lt_irrefl sort_positions_lt_trans
                  sort_positions_lt_total ext) as (h & rest & -> & Hin & Hmin).
      { intros a b Ha Hb. apply choice_lt_spec.
        apply Hext in Ha as (ga & _ & _ & ->). apply Hext in Hb as (gb & _ & _ & ->).
        simpl. by intros ->. }
      { done. }
      destruct ext as [|e ext']; [done |]. simpl length. simpl Nat.eqb. cbv iota.
      apply Hext in Hin as (g & Hg & Hw & ->). simpl.
      apply triu_indices_spec in Hg.
      destruct (IH (path ++ [g]) (next operands g)) as (q & Hq & Hres).
      { by apply covers_after_step. }
      exists (g :: q). split.
      { split; [| done]. split; [done |]. intros g' [Hg' Hw'].
        assert (Hin' : entry operands g' ∈ e :: ext').
        { apply Hext. exists g'. split; [by apply triu_indices_spec | done]. }
        apply Hmin in Hin'. unfold sort_positions_lt, choice_of in Hin'.
        cbn [fst snd] in Hin'. unfold key_le.
        set (a := rank_key output sizes operands g') in *.
        set (b := rank_key output sizes operands g) in *.
        destruct (Z.lt_total b.1 a.1) as [H|[H|H]]; [by left | |].
        - destruct (Z.le_gt_cases b.2 a.2) as [H2|H2]; [by right |].
          destruct Hin'. left. rewrite H. apply lex_lt_tail, lex_lt_head. lia.
        - destruct Hin'. left. by apply lex_lt_head. }
      destruct Hres as [[Hlen ->]|(Hlen & Hnone & ->)].
      * left. split; [simpl; lia |]. by rewrite <- app_assoc.
      * right. split; [simpl; lia |]. split; [done |]. by rewrite <- !app_assoc.
Qed.

End Opportunistic.

(** ** The searches: what they return *)

Lemma feasible_path_prefix output sizes memoryLimit (q : list (list Z))
    (operands : list (gset label)) (k : nat) :
  feasible_path output sizes memoryLimit q operands ->
  feasible_path output sizes memoryLimit (take k q) operands.
Proof.
  intros Hf. rewrite <- (take_drop k q) in Hf.
  by apply each_step_app in Hf as [Hf _].
Qed.

Lemma best_step_feasible output sizes memoryLimit (q : list (list Z))
    (operands : list (gset label)) :
  each_step output (best_step output sizes memoryLimit) q operands ->
  feasible_path output sizes memoryLimit q operands.
Proof. apply each_step_impl. by intros ops g [Hf _]. Qed.

(** C1: for operands whose labels all have a size, and at least two of them,
    the path returned by [_path_optimal] is itself a complete feasible
    pairwise path, and against any complete feasible pairwise path [q] it has
    a smaller cumulative cost, or the same cost and then it is [q] or comes
    before [q] in the lexicographic order of the position pairs.  The cost of
    a step is the size estimate of its contracted labels, doubled when a
    label is removed, and costs add up over the steps. *)
Theorem path_optimal_minimal (input_sets : list (gset label))
    (output_set : gset label) (ind_dict : gmap label Z) (memory : Z)
    (q : list (list Z)) :
  covers ind_dict input_sets ->
  (2 <= length input_sets)%nat ->
  complete q input_sets ->
  feasible_path output_set ind_dict memory q input_sets ->
  exists p,
    _path_optimal input_sets output_set ind_dict memory = Ok p /\
    complete p input_sets /\
    feasible_path output_set ind_dict memory p input_sets /\
    (path_cost output_set ind_dict p input_sets
       < path_cost output_set ind_dict q input_sets \/
     (path_cost output_set ind_dict p input_sets
        = path_cost output_set ind_dict q input_sets /\
      (p = q \/ path_lt p q))).
Proof.
  intros Hcov Hlen Hq Hf.
  destruct (path_optimal_result output_set ind_dict memory input_sets Hcov Hlen)
    as [[Hnone _]|(p & Hp & Hcp & Hfp & Hmin)].
  - by destruct (Hnone q).
  - exists p. split; [done |]. split; [done |]. split; [done |].
    specialize (Hmin q Hq Hf).
    destruct (cost_path_lt_total
                (path_cost output_set ind_dict p input_sets, p)
                (path_cost output_set ind_dict q input_sets, q))
      as [[H|[H1 H2]]|[H|H]]; simpl in *.
    + by left.
    + right. split; [done | by right].
    + inversion H; subst. right. split; [done | by left].
    + done.
Qed.

(** C3: every step of the path chosen by either search keeps the size of its
    surviving labels within the memory limit, except a fallback step that
    contracts the whole remaining sequence: [_path_optimal] returns either
    the fallback alone or a path of feasible steps, and [_path_opportunistic]
    returns feasible steps, possibly followed by one fallback step. *)
Theorem search_steps_within_memory (input_sets : list (gset label))
    (output_set : gset label) (ind_dict : gmap label Z) (memory : Z) :
  covers ind_dict input_sets ->
  ((2 <= length input_sets)%nat ->
   exists p, _path_optimal input_sets output_set ind_dict memory = Ok p /\
     (p = [fallback input_sets] \/
      each_step output_set (within_memory output_set ind_dict memory) p input_sets)) /\
  (exists p q, _path_opportunistic input_sets output_set ind_dict memory = Ok p /\
     (p = q \/ p = q ++ [fallback (replay output_set q input_sets)]) /\
     each_step output_set (within_memory output_set ind_dict memory) q input_sets).
Proof.
  intros Hcov. split.
  - intros Hlen.
    destruct (path_optimal_result output_set ind_dict memory input_sets Hcov Hlen)
      as [[_ Hp]|(p & Hp & _ & Hfp & _)].
    + eexists. split; [done | by left].
    + exists p. split; [done |]. right.
      revert Hfp. apply each_step_impl. by intros ops g [_ Hw].
  - unfold _path_opportunistic.
    destruct (opportunistic_loop_spec output_set ind_dict memory
                (seq 0 (length input_sets - 1)) [] input_sets Hcov)
      as (q & Hq & Hres).
    assert (each_step output_set (within_memory output_set ind_dict memory)
                      q input_sets) as Hw.
    { revert Hq. apply each_step_impl. by intros ops g [[_ Hw] _]. }
    destruct Hres as [[_ ->]|(_ & _ & ->)]; eexists _, q; simpl; eauto.
Qed.

(** C4: at every step of the opportunistic search a pair is committed as
    long as the current sequence has a feasible pair, and every committed pair
    is a feasible pair of the sequence current at that step whose key (minus
    the size of the removed labels, then the size of the contracted labels)
    is least among the keys of all feasible pairs of that sequence.  So the
    path is made of [n - 1] such pairs, or of fewer of them followed by the
    fallback step, and then the sequence they leave has no feasible pair. *)
Theorem opportunistic_commits_best (input_sets : list (gset label))
    (output_set : gset label) (ind_dict : gmap label Z) (memory : Z) :
  covers ind_dict input_sets ->
  exists p q, _path_opportunistic input_sets output_set ind_dict memory = Ok p /\
    ((p = q /\ length q = (length input_sets - 1)%nat) \/
     (p = q ++ [fallback (replay output_set q input_sets)] /\
      (length q < length input_sets - 1)%nat /\
      forall g, ~ feasible_step output_set ind_dict memory
                    (replay output_set q input_sets) g)) /\
    each_step output_set
      (fun operands g =>
         feasible_step output_set ind_dict memory operands g /\
         forall g', feasible_step output_set ind_dict memory operands g' ->
           key_le (rank_key output_set ind_dict operands g)
                  (rank_key output_set ind_dict operands g'))
      q input_sets.
Proof.
  intros Hcov. unfold _path_opportunistic.
  destruct (opportunistic_loop_spec output_set ind_dict memory
              (seq 0 (length input_sets - 1)) [] input_sets Hcov)
    as (q & Hq & Hres).
  rewrite length_seq in Hres.
  destruct Hres as [[Hlen ->]|(Hlen & Hnone & ->)]; eexists _, q; simpl.
  - split; [done |]. split; [by left | done].
  - split; [done |]. split; [right; by repeat split | done].
Qed.

(** C6: when every candidate pair is over the memory limit at some step, the
    searches return a path that ends in a fallback step, as a normal result.
    If no feasible pairwise path of [k + 1] steps exists, for a [k] below the
    number of steps of a complete path (so every branch is pruned at level
    [k] at the latest; [k = 0] when the limit is below every pairwise
    intermediate), [_path_optimal] returns the single fallback step over all
    operands and [_path_opportunistic] returns at most [k] committed pairs
    followed by the fallback step over the whole sequence current at that
    point.  And wherever the run of [_path_opportunistic] reaches, before
    its last step, a sequence none of whose pairs is feasible, the rest of
    its path is the fallback step over that sequence. *)
Theorem searches_fall_back (input_sets : list (gset label))
    (output_set : gset label) (ind_dict : gmap label Z) (memory : Z) :
  covers ind_dict input_sets ->
  (forall k : nat,
     (k < length input_sets - 1)%nat ->
     (forall q, length q = S k ->
                ~ feasible_path output_set ind_dict memory q input_sets) ->
     _path_optimal input_sets output_set ind_dict memory
     = Ok [fallback input_sets] /\
     exists q, (length q <= k)%nat /\
       feasible_path output_set ind_dict memory q input_sets /\
       _path_opportunistic input_sets output_set ind_dict memory
       = Ok (q ++ [fallback (replay output_set q input_sets)])) /\
  (exists p,
     _path_opportunistic input_sets output_set ind_dict memory = Ok p /\
     forall q rest,
       p = q ++ rest ->
       feasible_path output_set ind_dict memory q input_sets ->
       (length q < length input_sets - 1)%nat ->
       (forall g, ~ feasible_step output_set ind_dict memory
                      (replay output_set q input_sets) g) ->
       rest = [fallback (replay output_set q input_sets)]).
Proof.
  intros Hcov.
  destruct (opportunistic_loop_spec output_set ind_dict memory
              (seq 0 (length input_sets - 1)) [] input_sets Hcov)
    as (q0 & Hbest & Hres).
  pose proof (best_step_feasible _ _ _ _ _ Hbest) as Hq0.
  rewrite length_seq in Hres. fold (_path_opportunistic input_sets output_set
                                      ind_dict memory) in Hres.
  simpl in Hres. split.
  - intros k Hk Hnone.
    assert (forall q, (S k <= length q)%nat ->
                      ~ feasible_path output_set ind_dict memory q input_sets) as Hno.
    { intros q Hlen Hf. apply (Hnone (take (S k) q)).
      - rewrite length_take. lia.
      - by apply feasible_path_prefix. }
    split.
    + destruct (path_optimal_result output_set ind_dict memory input_sets Hcov)
        as [[_ Hp]|(p & _ & Hcp & Hfp & _)]; [lia | done |].
      destruct (Hno p); [unfold complete in Hcp; lia | done].
    + assert (length q0 <= k)%nat as Hlen.
      { destruct (le_lt_dec (length q0) k); [done |]. by destruct (Hno q0). }
      destruct Hres as [[Hl _]|(_ & _ & ->)]; [lia |]. eauto.
  - assert (forall q g t, q0 = q ++ g :: t ->
              feasible_step output_set ind_dict memory
                            (replay output_set q input_sets) g) as Hmid.
    { intros q g t ->. apply each_step_app in Hbest as [_ [[Hf _] _]]. done. }
    destruct Hres as [[Hl ->]|(Hl & Hnone0 & ->)].
    + exists q0. split; [done |]. intros q rest Heq Hfq Hlq Hnone.
      assert (exists g t, q0 = q ++ g :: t) as (g & t & Hsplit).
      { destruct rest as [|g t]; [| by eauto].
        rewrite app_nil_r in Heq. subst q. lia. }
      by destruct (Hnone g (Hmid _ _ _ Hsplit)).
    + eexists. split; [done |]. intros q rest Heq Hfq Hlq Hnone.
      apply app_eq_inv in Heq as [(m & -> & Hm)|(m & -> & Hm)].
      * destruct m as [|g t]; [by rewrite app_nil_r in *; simpl in Hm |].
        by destruct (Hnone g (Hmid _ _ _ eq_refl)).
      * destruct m as [|g t]; [by rewrite app_nil_r in *; simpl in Hm |].
        apply each_step_app in Hfq as [_ [Hg _]]. by destruct (Hnone0 g).
Qed.

(** ** Sorting *)

Section Sorting.
Context {A : Type} (ltb : A -> A -> bool).

Lemma sort_insert_perm (x : A) (l : list A) : sort_insert ltb x l ≡ₚ x :: l.
Proof.
  induction l as [|y l IH]; simpl; [done |].
  destruct (ltb y x); [| done]. rewrite IH. apply Permutation_swap.
Qed.

Lemma py_sort_perm (l : list A) : py_sort ltb l ≡ₚ l.
Proof.
  induction l as [|x l IH]; [done |].
  unfold py_sort in *. simpl. by rewrite sort_insert_perm, IH.
Qed.

Lemma py_sort_elem_of (l : list A) (x : A) : x ∈ py_sort ltb l <-> x ∈ l.
Proof. by rewrite py_sort_perm. Qed.

Lemma py_sort_length (l : list A) : length (py_sort ltb l) = length l.
Proof. by rewrite py_sort_perm. Qed.

Context (R : relation A).
Hypothesis R_true : forall x y, ltb y x = true -> R y x.
Hypothesis R_false : forall x y, ltb y x = false -> R x y.

Lemma sort_insert_sorted (x : A) (l : list A) :
  Sorted R l -> Sorted R (sort_insert ltb x l).
Proof.
  induction l as [|y l IH]; intros Hs; simpl.
  - by repeat constructor.
  - apply Sorted_inv in Hs as [Hs Hhd].
    destruct (ltb y x) eqn:E.
    + constructor; [by apply IH |].
      destruct l as [|z l]; simpl.
      * constructor. by apply R_true.
      * apply HdRel_inv in Hhd. destruct (ltb z x); constructor; auto.
    + constructor; [by constructor |]. constructor. by apply R_false.
Qed.

Lemma py_sort_sorted (l : list A) : Sorted R (py_sort ltb l).
Proof.
  induction l as [|x l IH]; [constructor |].
  unfold py_sort in *. simpl. by apply sort_insert_sorted.
Qed.

End Sorting.

Lemma py_sort_fmap {A B : Type} (ltb : B -> B -> bool) (f : A -> B) (l : list A) :
  py_sort ltb (f <$> l) = f <$> py_sort (fun a b => ltb (f a) (f b)) l.
Proof.
  induction l as [|x l IH]; [done |].
  unfold py_sort in *. rewrite fmap_cons. simpl. rewrite IH.
  generalize (foldr (sort_insert (fun a b => ltb (f a) (f b))) [] l). intros k.
  induction k as [|y k IHk]; [done |]. csimpl.
  destruct (ltb (f y) (f x)); csimpl; [by rewrite IHk | done].
Qed.

(** Positions sorted from right to left. *)
Lemma sorted_positions (g : list Z) :
  NoDup g -> StronglySorted (fun a b => b < a) (py_sort (fun a b => b <? a) g).
Proof.
  intros Hnd.
  assert (StronglySorted (fun a b => b <= a) (py_sort (fun a b => b <? a) g)) as Hs.
  { apply Sorted_StronglySorted; [intros x y z; lia |].
    apply py_sort_sorted; intros x y; [rewrite Z.ltb_lt | rewrite Z.ltb_ge]; lia. }
  assert (NoDup (py_sort (fun a b => b <? a) g)) as Hnd'.
  { by rewrite py_sort_perm. }
  clear Hnd. induction Hs as [|x l Hs IH Hall]; [constructor |].
  apply NoDup_cons in Hnd' as [Hx Hnd']. constructor; [by apply IH |].
  rewrite Forall_forall in Hall |- *. intros y Hy.
  specialize (Hall y Hy). assert (x <> y) by (by intros ->). lia.
Qed.

(** ** Removing the contracted terms *)

Lemma py_index_in_range (len : nat) (x : Z) :
  0 <= x < Z.of_nat len -> py_index len x = Ok (Z.to_nat x).
Proof.
  intros Hx. unfold py_index.
  rewrite (proj2 (Z.ltb_ge x 0)) by lia.
  rewrite (proj2 (Z.ltb_ge x 0)) by lia.
  by rewrite (proj2 (Z.leb_gt _ _)) by lia.
Qed.

Lemma py_index_Ok (len : nat) (x : Z) (i : nat) :
  py_index len x = Ok i -> - Z.of_nat len <= x < Z.of_nat len /\ (i < len)%nat.
Proof.
  unfold py_index. destruct (Z.ltb_spec x 0).
  - destruct (Z.ltb_spec (x + Z.of_nat len) 0); simpl; [done |].
    destruct (Z.leb_spec (Z.of_nat len) (x + Z.of_nat len)); [done |].
    intros [= <-]. lia.
  - rewrite (proj2 (Z.ltb_ge x 0)) by lia. simpl.
    destruct (Z.leb_spec (Z.of_nat len) x); [done |].
    intros [= <-]. lia.
Qed.

Lemma list_pop_in_range {A : Type} (l : list A) (x : Z) :
  0 <= x < Z.of_nat (length l) ->
  exists a, list_pop l x = Ok (a, delete (Z.to_nat x) l).
Proof.
  intros Hx. unfold list_pop. rewrite py_index_in_range, bind_Ok by done.
  destruct (lookup_lt_is_Some_2 l (Z.to_nat x)) as [a ->]; [lia |]. eauto.
Qed.

Lemma list_pop_Ok {A : Type} (l : list A) (x : Z) (a : A) (l' : list A) :
  list_pop l x = Ok (a, l') ->
  - Z.of_nat (length l) <= x < Z.of_nat (length l) /\
  S (length l') = length l.
Proof.
  unfold list_pop. intros H. apply bind_Ok_inv in H as (i & Hi & H).
  apply py_index_Ok in Hi as [Hx Hi]. split; [done |].
  destruct (l !! i) eqn:E; [| done]. injection H as <- <-.
  rewrite length_delete by eauto. lia.
Qed.

Lemma pop_body_Ok (tmp il : list string) (x : Z) (a : string) (il' : list string) :
  list_pop il x = Ok (a, il') -> pop_body (tmp, il) x = Ok (tmp ++ [a], il').
Proof. unfold pop_body. by intros ->. Qed.

Lemma pops_in_range (positions : list Z) (tmp il : list string) :
  StronglySorted (fun a b => b < a) positions ->
  Forall (fun x => 0 <= x < Z.of_nat (length il)) positions ->
  exists tmp' il',
    for_each pop_body positions (tmp, il) = Ok (tmp ++ tmp', il') /\
    (length il' + length positions = length il)%nat.
Proof.
  revert tmp il. induction positions as [|x positions IH]; intros tmp il Hs Hr.
  - exists [], il. by rewrite app_nil_r.
  - apply StronglySorted_inv in Hs as [Hs Hlt].
    apply Forall_cons in Hr as [Hx Hr].
    rewrite for_each_cons.
    destruct (list_pop_in_range il x Hx) as (a & Hpop).
    rewrite (pop_body_Ok _ _ _ _ _ Hpop), !bind_Ok.
    destruct (IH (tmp ++ [a]) (delete (Z.to_nat x) il) Hs) as (tmp' & il' & -> & Hlen).
    { rewrite Forall_forall in Hlt, Hr |- *. intros y Hy.
      specialize (Hlt y Hy). specialize (Hr y Hy).
      apply list_pop_Ok in Hpop as [_ Hl]. lia. }
    exists (a :: tmp'), il'. split; [by rewrite <- app_assoc |].
    apply list_pop_Ok in Hpop as [_ Hl]. simpl. lia.
Qed.

Lemma pops_Ok (positions : list Z) (tmp il tmp' il' : list string) :
  for_each pop_body positions (tmp, il) = Ok (tmp', il') ->
  Forall (fun x => - Z.of_nat (length il) <= x < Z.of_nat (length il)) positions /\
  (length il' + length positions = length il)%nat.
Proof.
  revert tmp il. induction positions as [|x positions IH]; intros tmp il H.
  - injection H as <- <-. split; [constructor | simpl; lia].
  - rewrite for_each_cons in H. apply bind_Ok_inv in H as ([tmp1 il1] & Hpop & H).
    unfold pop_body in Hpop. apply bind_Ok_inv in Hpop as ([a l1] & Hpop & Heq).
    injection Heq as <- <-. apply list_pop_Ok in Hpop as [Hx Hl].
    apply IH in H as [Hall Hlen]. split; [| simpl; lia].
    constructor; [done |]. eapply Forall_impl; [apply Hall |].
    intros y Hy. simpl in Hy. lia.
Qed.

(** ** The result of an intermediate step *)

Lemma N_of_ascii_inj (a b : ascii) : N_of_ascii a = N_of_ascii b -> a = b.
Proof.
  intros H. rewrite <- (ascii_N_embedding a), <- (ascii_N_embedding b). by rewrite H.
Qed.

Lemma sized_label_lt_spec (sizes : gmap label Z) (a b : label) :
  sized_label_lt (label_size sizes a, a) (label_size sizes b, b) = true <->
  label_before sizes a b.
Proof.
  unfold sized_label_lt, label_before. simpl.
  destruct (Z.eqb_spec (label_size sizes a) (label_size sizes b)) as [->|Hne]; simpl.
  - rewrite N.ltb_lt. split; [by right | intros [H|[_ H]]; [lia | done]].
  - rewrite Z.ltb_lt. split; [by left | intros [H|[H _]]; [done | lia]].
Qed.

Lemma label_before_trans (sizes : gmap label Z) (a b c : label) :
  label_before sizes a b -> label_before sizes b c -> label_before sizes a c.
Proof. unfold label_before. intros [?|[? ?]] [?|[? ?]]; [left | left | left | right]; lia. Qed.

Lemma label_before_total (sizes : gmap label Z) (a b : label) :
  label_before sizes a b \/ a = b \/ label_before sizes b a.
Proof.
  unfold label_before.
  destruct (Z.lt_total (label_size sizes a) (label_size sizes b)) as [?|[?|?]];
    [by left; left | | by right; right; left].
  destruct (N.lt_total (N_of_ascii a) (N_of_ascii b)) as [?|[?|?]].
  - left. by right.
  - right. left. by apply N_of_ascii_inj.
  - right. right. by right.
Qed.

Lemma sorted_labels_ordered (sizes : gmap label Z) (l : list label) :
  NoDup l ->
  StronglySorted (label_before sizes)
    (py_sort (fun a b => sized_label_lt (label_size sizes a, a) (label_size sizes b, b)) l).
Proof.
  intros Hnd.
  set (ltb := fun a b => sized_label_lt (label_size sizes a, a) (label_size sizes b, b)).
  set (R := fun a b => label_before sizes a b \/ a = b).
  assert (StronglySorted R (py_sort ltb l)) as Hs.
  { apply Sorted_StronglySorted.
    - intros x y z [Hxy| ->] [Hyz| ->]; unfold R; eauto using label_before_trans.
    - apply py_sort_sorted.
      + intros x y H. left. by apply sized_label_lt_spec.
      + intros x y H. destruct (label_before_total sizes x y) as [?|[?|Hyx]].
        * by left.
        * by right.
        * apply sized_label_lt_spec in Hyx. unfold ltb in H. congruence. }
  assert (NoDup (py_sort ltb l)) as Hnd' by (by rewrite py_sort_perm).
  clear Hnd. induction Hs as [|x k Hs IH Hall]; [constructor |].
  apply NoDup_cons in Hnd' as [Hx Hnd']. constructor; [by apply IH |].
  rewrite Forall_forall in Hall |- *. intros y Hy.
  destruct (Hall y Hy) as [?| ->]; [done | by destruct Hx].
Qed.

Lemma sort_result_loop (sizes : gmap label Z) (l : list label) (acc : list (Z * label)) :
  Forall (fun x => x ∈ dom sizes) l ->
  for_each (fun acc ind => d ← getitem sizes ind; Ok (acc ++ [(d, ind)])) l acc =
  Ok (acc ++ ((fun x => (label_size sizes x, x)) <$> l)).
Proof.
  revert acc. induction l as [|x l IH]; intros acc Hall.
  - simpl. by rewrite app_nil_r.
  - apply Forall_cons in Hall as [Hx Hall]. apply elem_of_dom in Hx as [v Hv].
    rewrite for_each_cons, (getitem_Some _ _ _ Hv), !bind_Ok, IH by done.
    rewrite fmap_cons, <- app_assoc. unfold label_size at 2. by rewrite Hv.
Qed.

Lemma sorted_result_spec (sizes : gmap label Z) (s : gset label) :
  s ⊆ dom sizes ->
  exists r, sorted_result sizes s = Ok r /\ ordered_result sizes s r.
Proof.
  intros Hsub. unfold sorted_result.
  rewrite sort_result_loop; last first.
  { apply Forall_forall. intros x Hx. apply Hsub. by apply elem_of_elements. }
  rewrite bind_Ok, app_nil_l, py_sort_fmap, <- list_fmap_compose.
  rewrite (list_fmap_ext _ id) by done.
  rewrite list_fmap_id. eexists. split; [done |].
  unfold ordered_result. rewrite list_ascii_of_string_of_list_ascii. split.
  - apply py_sort_perm.
  - apply sorted_labels_ordered, NoDup_elements.
Qed.

(** ** Building the contraction list *)

Lemma find_contraction_ext (g1 g2 : list Z) (operands : list (gset label))
    (output : gset label) :
  (forall x, x ∈ g1 <-> x ∈ g2) ->
  _find_contraction g1 operands output = _find_contraction g2 operands output.
Proof.
  intros Hiff. rewrite !find_contraction_unfold. unfold selected, not_selected.
  rewrite (list_filter_iff (fun iv : Z * gset label => iv.1 ∈ g1)
                           (fun iv => iv.1 ∈ g2)) by (intros; apply Hiff).
  rewrite (list_filter_iff (fun iv : Z * gset label => iv.1 ∉ g1)
                           (fun iv => iv.1 ∉ g2)); [done |].
  intros iv. by rewrite Hiff.
Qed.

Lemma find_contraction_sorted (ltb : Z -> Z -> bool) (g : list Z)
    (operands : list (gset label)) (output : gset label) :
  _find_contraction (py_sort ltb g) operands output =
  _find_contraction g operands output.
Proof. apply find_contraction_ext. intros x. apply py_sort_elem_of. Qed.

Lemma search_group_positions (n : nat) (g : list Z) :
  search_group n g ->
  NoDup g /\ Forall (fun x => 0 <= x < Z.of_nat n) g.
Proof.
  intros [(i & j & -> & Hij & Hj)| ->].
  - split.
    + apply NoDup_cons. split; [| apply NoDup_singleton].
      rewrite list_elem_of_singleton. lia.
    + repeat constructor; lia.
  - split.
    + unfold range. apply NoDup_fmap_2; [apply _ | apply NoDup_seq].
    + apply Forall_forall. intros x Hx. unfold range in Hx.
      apply list_elem_of_fmap in Hx as (k & -> & Hk).
      apply list_elem_of_In, in_seq in Hk. lia.
Qed.

Lemma after_group_length (output : gset label) (operands : list (gset label))
    (g : list Z) :
  search_group (length operands) g ->
  (length (after_step output operands g) + length g = S (length operands))%nat.
Proof.
  intros [Hpair| ->].
  - rewrite after_pair_length by done. destruct Hpair as (i & j & -> & ? & ?).
    simpl. lia.
  - rewrite after_step_unfold. fold (fallback operands).
    rewrite not_selected_fallback. unfold fallback, range.
    rewrite length_fmap, length_seq. simpl. lia.
Qed.

Section Build.
Variable output_subscript : string.
Variable output_set : gset label.
Variable dimension_dict : gmap label Z.
Variable len_path : nat.

#[local] Abbreviation body := (build_body output_subscript output_set dimension_dict len_path).
#[local] Abbreviation right_to_left := (py_sort (fun a b : Z => b <? a)).

Lemma build_body_unfold (st : build_state) (cnum : Z) (g : list Z) :
  body st (cnum, GTuple g) =
  let c := _find_contraction (right_to_left g) (bs_input_sets st) output_set in
  popped ← for_each pop_body (right_to_left g) ([], bs_input_list st);
  idx_result ←
    (if cnum - Z.of_nat len_path =? -1 then Ok output_subscript
     else sorted_result dimension_dict (new_result c));
  Ok (BuildState (remaining c) (popped.2 ++ [idx_result])
        (bs_contraction_list st ++
         [(right_to_left g, false,
           (String.concat "," popped.1 ++ "->" ++ idx_result)%string,
           popped.2 ++ [idx_result])])).
Proof.
  unfold build_body. rewrite bind_Ok.
  destruct (_find_contraction (right_to_left g) (bs_input_sets st) output_set).
  cbv zeta. by destruct (for_each pop_body (right_to_left g) ([], bs_input_list st))
    as [[tmp il]|e].
Qed.

(** One step over a group proposed by a search. *)
Lemma build_body_spec (st : build_state) (cnum : Z) (g : list Z) :
  length (bs_input_list st) = length (bs_input_sets st) ->
  covers dimension_dict (bs_input_sets st) ->
  search_group (length (bs_input_sets st)) g ->
  exists tmp rest r,
    body st (cnum, GTuple g) =
    Ok (BuildState (after_step output_set (bs_input_sets st) g) (rest ++ [r])
          (bs_contraction_list st ++
           [(right_to_left g, false, (String.concat "," tmp ++ "->" ++ r)%string,
             rest ++ [r])])) /\
    length (rest ++ [r]) = length (after_step output_set (bs_input_sets st) g) /\
    (cnum + 1 = Z.of_nat len_path -> r = output_subscript) /\
    (cnum + 1 <> Z.of_nat len_path ->
     ordered_result dimension_dict
       (new_result (_find_contraction g (bs_input_sets st) output_set)) r).
Proof.
  intros Hlen Hcov Hg. rewrite build_body_unfold. cbv zeta.
  rewrite find_contraction_sorted. fold (after_step output_set (bs_input_sets st) g).
  pose proof (search_group_positions _ _ Hg) as [Hnd Hrange].
  destruct (pops_in_range (right_to_left g) [] (bs_input_list st))
    as (tmp & rest & -> & Hrest).
  { by apply sorted_positions. }
  { rewrite Hlen. apply Forall_forall. intros x Hx. apply py_sort_elem_of in Hx.
    rewrite Forall_forall in Hrange. by apply Hrange. }
  rewrite bind_Ok. simpl fst. simpl snd. rewrite py_sort_length in Hrest.
  pose proof (after_group_length output_set _ _ Hg) as Hafter.
  assert (forall r, length (rest ++ [r]) =
                    length (after_step output_set (bs_input_sets st) g)) as Hl.
  { intros r. rewrite length_app. simpl. lia. }
  destruct (Z.eqb_spec (cnum - Z.of_nat len_path) (-1)) as [Hlast|Hlast].
  - rewrite bind_Ok. exists tmp, rest, output_subscript.
    split; [done |]. split; [done |]. split; [done | lia].
  - destruct (sorted_result_spec dimension_dict
                (new_result (_find_contraction g (bs_input_sets st) output_set)))
      as (r & -> & Hr).
    { etrans; [apply new_result_subseteq | apply Hcov]. }
    rewrite bind_Ok. exists tmp, rest, r.
    split; [done |]. split; [done |]. split; [lia | done].
Qed.

(** The loop over a path made of such groups, started at step [k]. *)
Lemma build_loop_spec (p : list (list Z)) (k : nat) (st : build_state) :
  length (bs_input_list st) = length (bs_input_sets st) ->
  covers dimension_dict (bs_input_sets st) ->
  each_step output_set (fun ops g => search_group (length ops) g) p (bs_input_sets st) ->
  exists st' new,
    for_each body (imap (fun i g => (Z.of_nat (k + i), g)) (map GTuple p)) st = Ok st' /\
    bs_input_sets st' = replay output_set p (bs_input_sets st) /\
    length (bs_input_list st') = length (bs_input_sets st') /\
    bs_contraction_list st' = bs_contraction_list st ++ new /\
    length new = length p /\
    (forall i c g, new !! i = Some c -> p !! i = Some g ->
       exists r, instruction_result c r /\
         (k + i + 1 = len_path -> r = output_subscript)%nat /\
         (k + i + 1 <> len_path ->
          ordered_result dimension_dict
            (new_result (_find_contraction g
               (replay output_set (take i p) (bs_input_sets st)) output_set)) r)%nat) /\
    (p <> [] -> exists c, last new = Some c /\ c.2 = bs_input_list st') /\
    (p = [] -> st' = st).
Proof.
  revert k st. induction p as [|g p IH]; intros k st Hlen Hcov Hp.
  - exists st, []. simpl. rewrite app_nil_r. repeat split; done.
  - destruct Hp as [Hg Hp]. simpl map. rewrite imap_cons, for_each_cons.
    destruct (build_body_spec st (Z.of_nat (k + 0)) g Hlen Hcov Hg)
      as (tmp & rest & r & -> & Hl & Hlast & Hord).
    rewrite bind_Ok.
    rewrite (imap_ext _ (fun i g => (Z.of_nat (S k + i), g))); last first.
    { intros i x _. simpl. do 2 f_equal. lia. }
    set (st1 := BuildState _ _ _).
    destruct (IH (S k) st1)
      as (st' & new & -> & Hsets & Hlen' & Hcl & Hnew & Hinstr & Hfin & Hnil).
    { done. }
    { by apply covers_after_step. }
    { done. }
    set (c0 := (right_to_left g, false, (String.concat "," tmp ++ "->" ++ r)%string,
                rest ++ [r]) : contraction_tuple).
    exists st', (c0 :: new). split; [done |]. split; [done |]. split; [done |].
    split; [rewrite Hcl; simpl; by rewrite <- app_assoc |].
    split; [simpl; by rewrite Hnew |]. split; [| split; [| done]].
    + intros [|i] c g' Hc Hg'; simpl in Hc, Hg'.
      * injection Hc as <-. injection Hg' as <-. exists r. split.
        { split; [apply last_snoc | by exists tmp]. }
        split; [intros; apply Hlast; lia |]. intros; apply Hord; lia.
      * destruct (Hinstr i c g' Hc Hg') as (r' & Hr' & Hlast' & Hord').
        exists r'. split; [done |].
        split; [intros; apply Hlast'; lia |]. intros; apply Hord'; lia.
    + intros _. destruct (decide (p = [])) as [->|Hne].
      * destruct new; [| done]. exists c0. split; [done |].
        by rewrite (Hnil eq_refl).
      * destruct (Hfin Hne) as (c & Hc & Hc2). exists c. split; [| done].
        destruct new; [done |]. done.
Qed.

End Build.

(** ** The last step leaves the output *)

Section FinalStep.
Variable output : gset label.
Implicit Types (operands : list (gset label)) (g : list Z) (p : list (list Z)).

Lemma enumerate_elem_of {A : Type} (l : list A) (x : A) :
  x ∈ l -> exists i, (i, x) ∈ enumerate l.
Proof.
  intros Hx. apply list_elem_of_lookup in Hx as [k Hk]. exists (Z.of_nat k).
  apply list_elem_of_lookup. exists k. unfold enumerate.
  by rewrite list_lookup_imap, Hk.
Qed.

Lemma union_selected_split g operands :
  ⋃ operands ⊆ ⋃ selected g operands ∪ ⋃ not_selected g operands.
Proof.
  intros x Hx. apply elem_of_union_list in Hx as (s & Hs & Hx).
  apply enumerate_elem_of in Hs as [i Hi]. apply elem_of_union.
  destruct (decide (i ∈ g)) as [Hin|Hin]; [left | right];
    apply elem_of_union_list; exists s; (split; [| done]);
    apply list_elem_of_fmap; exists (i, s); (split; [done |]);
    by apply list_elem_of_filter.
Qed.

Lemma output_kept g operands :
  output ⊆ ⋃ operands -> output ⊆ ⋃ after_step output operands g.
Proof.
  intros Hsub x Hx. rewrite after_step_unfold, union_list_app.
  rewrite find_contraction_unfold. simpl.
  pose proof (union_selected_split g operands x (Hsub x Hx)). set_solver.
Qed.

Lemma output_kept_replay p operands :
  output ⊆ ⋃ operands -> output ⊆ ⋃ replay output p operands.
Proof.
  revert operands. induction p as [|g p IH]; intros operands Hsub; [done |].
  simpl. by apply IH, output_kept.
Qed.

(** A path whose last step leaves a single descriptor leaves the output. *)
Lemma replay_final p operands :
  output ⊆ ⋃ operands -> p <> [] -> length (replay output p operands) = 1%nat ->
  replay output p operands = [output].
Proof.
  intros Hsub Hne Hlen.
  pose proof (output_kept_replay p operands Hsub) as Hkept.
  destruct p as [|g p _] using rev_ind; [done |]. clear Hne.
  rewrite replay_app in *. simpl in *.
  rewrite after_step_unfold in *. rewrite length_app in Hlen. simpl in Hlen.
  destruct (not_selected g (replay output p operands)) eqn:E; [| simpl in Hlen; lia].
  simpl in *. f_equal. rewrite find_contraction_unfold in *. rewrite E in *.
  simpl in *. set_solver.
Qed.

End FinalStep.

(** ** The shape of the paths returned by the searches *)

Section SearchPaths.
Variable output : gset label.
Variable sizes : gmap label Z.
Variable memoryLimit : Z.
Variable operands : list (gset label).
Hypothesis Hcov : covers sizes operands.
Hypothesis Hlen : (2 <= length operands)%nat.

#[local] Abbreviation groups :=
  (each_step output (fun ops g => search_group (length ops) g)).

Lemma feasible_groups (p : list (list Z)) (ops : list (gset label)) :
  feasible_path output sizes memoryLimit p ops -> groups p ops.
Proof. apply each_step_impl. intros o g [Hpair _]. by left. Qed.

Lemma fallback_leaves_one (ops : list (gset label)) :
  length (after_step output ops (fallback ops)) = 1%nat.
Proof. by rewrite after_step_unfold, not_selected_fallback. Qed.

Lemma path_optimal_groups :
  exists p, _path_optimal operands output sizes memoryLimit = Ok p /\
    groups p operands /\ p <> [] /\ length (replay output p operands) = 1%nat.
Proof.
  destruct (path_optimal_result output sizes memoryLimit operands Hcov Hlen)
    as [[_ Hp]|(p & Hp & Hcp & Hfp & _)].
  - eexists. split; [done |]. split; [| split; [done |]].
    + split; [by right | done].
    + apply fallback_leaves_one.
  - exists p. split; [done |]. split; [by apply feasible_groups |].
    unfold complete in Hcp.
    pose proof (feasible_path_length _ _ _ _ _ Hfp) as [Hl _].
    split; [destruct p; simpl in *; [lia | done] | lia].
Qed.

Lemma path_opportunistic_groups :
  exists p, _path_opportunistic operands output sizes memoryLimit = Ok p /\
    groups p operands /\ p <> [] /\ length (replay output p operands) = 1%nat.
Proof.
  unfold _path_opportunistic.
  destruct (opportunistic_loop_spec output sizes memoryLimit
              (seq 0 (length operands - 1)) [] operands Hcov) as (q & Hq & Hres).
  apply best_step_feasible in Hq. rewrite length_seq in Hres.
  pose proof (feasible_path_length _ _ _ _ _ Hq) as [Hl _].
  destruct Hres as [[Hlq ->]|(_ & _ & ->)]; simpl.
  - exists q. split; [done |]. split; [by apply feasible_groups |].
    split; [destruct q; simpl in *; [lia | done] | lia].
  - eexists. split; [done |]. split; [| split].
    + apply each_step_app. split; [by apply feasible_groups |].
      split; [by right | done].
    + by destruct q.
    + rewrite replay_app. apply fallback_leaves_one.
Qed.

End SearchPaths.

(** ** Materializing a path returned by a search *)

Lemma build_search_path (input_list : list string) (output_subscript : string)
    (dimension_dict : gmap label Z) (p : list (list Z)) :
  let input_sets := set_of_str <$> input_list in
  let output_set := set_of_str output_subscript in
  covers dimension_dict input_sets ->
  output_set ⊆ ⋃ input_sets ->
  each_step output_set (fun ops g => search_group (length ops) g) p input_sets ->
  p <> [] ->
  length (replay output_set p input_sets) = 1%nat ->
  exists st,
    build_contraction_list (map GTuple p) input_list input_sets output_subscript
                           output_set dimension_dict = Ok st /\
    bs_input_sets st = [output_set] /\
    bs_input_list st = [output_subscript] /\
    length (bs_contraction_list st) = length p /\
    forall i c g, bs_contraction_list st !! i = Some c -> p !! i = Some g ->
      exists r, instruction_result c r /\
        (S i = length p -> r = output_subscript /\ c.2 = [output_subscript]) /\
        (S i <> length p ->
         ordered_result dimension_dict
           (new_result (_find_contraction g (replay output_set (take i p) input_sets)
                                          output_set)) r).
Proof.
  intros input_sets output_set Hcov Hout Hgroups Hne Hone.
  unfold build_contraction_list, enumerate.
  rewrite (imap_ext _ (fun i g => (Z.of_nat (0 + i), g))) by done.
  rewrite length_map.
  destruct (build_loop_spec output_subscript output_set dimension_dict (length p)
              p 0 (BuildState input_sets input_list []))
    as (st & new & -> & Hsets & Hlens & Hcl & Hnew & Hinstr & Hfin & _).
  { simpl. unfold input_sets. by rewrite length_fmap. }
  { done. }
  { done. }
  simpl in Hsets, Hcl. rewrite replay_final in Hsets by done.
  destruct (Hfin Hne) as (cl & Hcl_last & Hcl2).
  assert (bs_input_list st = [output_subscript]) as Hil.
  { destruct (Hinstr (length p - 1)%nat cl (List.last p []))
      as (r & [Hr _] & Hr' & _).
    - rewrite last_lookup, Hnew in Hcl_last.
      by replace (length p - 1)%nat with (Nat.pred (length p)) by lia.
    - destruct p as [|g0 p0] using rev_ind; [done |].
      rewrite last_last, length_app. simpl.
      rewrite lookup_app_r by lia. by replace (_ - _)%nat with 0%nat by lia.
    - rewrite Hr' in Hr by (destruct p; simpl in *; [done | lia]).
      rewrite Hcl2 in Hr. rewrite Hsets in Hlens. simpl in Hlens.
      destruct (bs_input_list st) as [|a [|b l]]; simpl in *; try done.
      by injection Hr as ->. }
  exists st. split; [done |]. split; [done |]. split; [done |].
  split; [by rewrite Hcl |].
  intros i c g Hc Hg. rewrite Hcl in Hc.
  destruct (Hinstr i c g Hc Hg) as (r & Hr & Hlast & Hord).
  exists r. split; [done |]. split.
  - intros Hi. split; [apply Hlast; simpl; lia |].
    rewrite last_lookup, Hnew in Hcl_last.
    replace (Nat.pred (length p)) with i in Hcl_last by lia.
    rewrite Hc in Hcl_last. injection Hcl_last as ->. by rewrite Hcl2.
  - intros Hi. apply Hord. simpl. lia.
Qed.

(** ** The dimension dictionary and the size list *)

Lemma imap_pair_snd {A : Type} (f : nat -> Z) (l : list A) :
  (imap (fun i x => (f i, x)) l).*2 = l.
Proof.
  revert f. induction l as [|x l IH]; intros f; [done |].
  rewrite imap_cons, fmap_cons. simpl. f_equal. apply (IH (f ∘ S)).
Qed.

Lemma enumerate_snd {A : Type} (l : list A) : (enumerate l).*2 = l.
Proof. apply imap_pair_snd. Qed.

Lemma dimension_body_dom (sh : shape) (d d' : gmap label Z) (cc : Z * ascii) :
  dimension_body sh d cc = Ok d' -> dom d' = dom d ∪ {[cc.2]}.
Proof.
  destruct cc as [cnum char]. unfold dimension_body. intros H.
  apply bind_Ok_inv in H as (dim & _ & H).
  destruct (decide (char ∈ dom d)) as [Hin|Hin].
  - rewrite bool_decide_eq_true_2 in H by done.
    apply bind_Ok_inv in H as (known & _ & H).
    destruct (negb (known =? Z.of_N dim)); [done |]. injection H as <-.
    simpl. set_solver.
  - rewrite bool_decide_eq_false_2 in H by done. injection H as <-.
    rewrite dom_insert_L. simpl. set_solver.
Qed.

Lemma dimension_loop_dom (sh : shape) (ccs : list (Z * ascii)) (d d' : gmap label Z) :
  for_each (dimension_body sh) ccs d = Ok d' ->
  dom d' = dom d ∪ list_to_set ccs.*2.
Proof.
  revert d. induction ccs as [|cc ccs IH]; intros d H.
  - injection H as <-. set_solver.
  - rewrite for_each_cons in H. apply bind_Ok_inv in H as (d1 & H1 & H).
    apply dimension_body_dom in H1. apply IH in H. rewrite H, H1.
    rewrite fmap_cons. set_solver.
Qed.

Lemma dimension_term_dom (operands : list shape) (d d' : gmap label Z)
    (tt : Z * string) :
  dimension_term operands d tt = Ok d' -> dom d' = dom d ∪ set_of_str tt.2.
Proof.
  destruct tt as [tnum term]. unfold dimension_term. intros H.
  apply bind_Ok_inv in H as (sh & _ & H).
  destruct (negb (length sh =? String.length term)%nat); [done |].
  apply dimension_loop_dom in H. by rewrite enumerate_snd in H.
Qed.

Lemma dimension_terms_dom (operands : list shape) (tts : list (Z * string))
    (d d' : gmap label Z) :
  for_each (dimension_term operands) tts d = Ok d' ->
  dom d' = dom d ∪ ⋃ (set_of_str <$> tts.*2).
Proof.
  revert d. induction tts as [|tt tts IH]; intros d H.
  - injection H as <-. simpl. set_solver.
  - rewrite for_each_cons in H. apply bind_Ok_inv in H as (d1 & H1 & H).
    apply dimension_term_dom in H1. apply IH in H. rewrite H, H1.
    rewrite !fmap_cons. simpl. set_solver.
Qed.

(** The dictionary built by [contract] has exactly the labels of the input
    terms as its keys. *)
Lemma build_dimension_dict_dom (input_list : list string) (operands : list shape)
    (d : gmap label Z) :
  build_dimension_dict input_list operands = Ok d ->
  dom d = ⋃ (set_of_str <$> input_list).
Proof.
  unfold build_dimension_dict. intros H. apply dimension_terms_dom in H.
  rewrite enumerate_snd, dom_empty_L in H. set_solver.
Qed.

Lemma compute_size_Ok (inds : list label) (d : gmap label Z) (v : Z) :
  _compute_size_by_dict inds d = Ok v -> Forall (fun l => l ∈ dom d) inds.
Proof.
  intros H. destruct (decide (Forall (fun l => l ∈ dom d) inds)) as [|Hnot]; [done |].
  unfold _compute_size_by_dict in H. by rewrite compute_size_raises in H.
Qed.

Lemma size_list_loop (d : gmap label Z) (terms : list string) (acc sl : list Z) :
  for_each (size_list_body d) terms acc = Ok sl ->
  exists sl', sl = acc ++ sl' /\
    Forall2 (fun term sz => _compute_size_by_dict (list_ascii_of_string term) d = Ok sz)
            terms sl'.
Proof.
  revert acc. induction terms as [|term terms IH]; intros acc H.
  - injection H as <-. exists []. rewrite app_nil_r. split; [done | constructor].
  - rewrite for_each_cons in H. apply bind_Ok_inv in H as (acc1 & H1 & H).
    unfold size_list_body in H1. apply bind_Ok_inv in H1 as (sz & Hsz & H1).
    injection H1 as <-. apply IH in H as (sl' & -> & Hall).
    exists (sz :: sl'). split; [by rewrite <- app_assoc | by constructor].
Qed.

(** The size list holds the size of each term, in order. *)
Lemma compute_size_list_Ok (d : gmap label Z) (terms : list string) (sl : list Z) :
  compute_size_list terms d = Ok sl ->
  Forall2 (fun term sz => _compute_size_by_dict (list_ascii_of_string term) d = Ok sz)
          terms sl.
Proof.
  unfold compute_size_list. intros H.
  by apply size_list_loop in H as (sl' & -> & Hall).
Qed.

Lemma compute_size_list_covered (d : gmap label Z) (terms : list string)
    (sl : list Z) :
  compute_size_list terms d = Ok sl ->
  Forall (fun term => set_of_str term ⊆ dom d) terms /\ length sl = length terms.
Proof.
  intros H. apply compute_size_list_Ok in H. split.
  - apply Forall_forall. intros term Hterm.
    apply list_elem_of_lookup in Hterm as [i Hi].
    destruct (Forall2_lookup_l _ _ _ _ _ H Hi) as (sz & _ & Hsz).
    apply compute_size_Ok in Hsz. intros l Hl. unfold set_of_str in Hl.
    apply elem_of_list_to_set in Hl. rewrite Forall_forall in Hsz. by apply Hsz.
  - symmetry. by eapply Forall2_length.
Qed.

Lemma fold_max_spec (l : list Z) (x : Z) :
  (x <= fold_left Z.max l x /\ Forall (fun y => y <= fold_left Z.max l x) l) /\
  fold_left Z.max l x ∈ x :: l.
Proof.
  revert x. induction l as [|y l IH]; intros x; simpl.
  - split; [split; [lia | constructor] | by left].
  - destruct (IH (Z.max x y)) as [[Hle Hall] Hin]. split.
    + split; [lia |]. constructor; [lia | done].
    + apply elem_of_cons in Hin as [Hin|Hin]; [| by right; right].
      rewrite Hin. destruct (Z.max_spec x y) as [[_ ->]|[_ ->]];
        [right; by left | by left].
Qed.

Lemma py_max_spec (l : list Z) :
  l <> [] ->
  exists m, py_max l = Ok m /\ Forall (fun y => y <= m) l /\ m ∈ l.
Proof.
  destruct l as [|x l]; [done |]. intros _. simpl.
  destruct (fold_max_spec l x) as [[Hle Hall] Hin].
  eexists. split; [done |]. split; [by constructor | done].
Qed.

(** What the checks made by [contract] before the path is computed
    establish. *)
Lemma prelude_facts (input_list : list string) (output_subscript : string)
    (operands : list shape) (d : gmap label Z) (size_list : list Z) :
  build_dimension_dict input_list operands = Ok d ->
  compute_size_list (input_list ++ [output_subscript]) d = Ok size_list ->
  covers d (set_of_str <$> input_list) /\
  set_of_str output_subscript ⊆ ⋃ (set_of_str <$> input_list) /\
  exists out_size, py_max size_list = Ok out_size /\
    Forall (fun y => y <= out_size) size_list /\ out_size ∈ size_list.
Proof.
  intros Hd Hs. apply build_dimension_dict_dom in Hd.
  apply compute_size_list_covered in Hs as [Hall Hlen].
  split; [unfold covers; by rewrite Hd |]. split.
  - rewrite <- Hd. apply Forall_app in Hall as [_ Hout].
    by inversion Hout.
  - apply py_max_spec. intros ->. rewrite length_app in Hlen. simpl in Hlen. lia.
Qed.

(** ** Building the contraction list of an arbitrary path *)

Section BuildAny.
Variable output_subscript : string.
Variable output_set : gset label.
Variable dimension_dict : gmap label Z.
Variable len_path : nat.

#[local] Abbreviation body := (build_body output_subscript output_set dimension_dict len_path).

(** A step that succeeds is a tuple of positions that are all within the
    current list of terms; it appends one contraction tuple. *)
Lemma build_body_Ok (st st' : build_state) (cnum : Z) (grp : group) :
  body st (cnum, grp) = Ok st' ->
  exists g, grp = GTuple g /\
    Forall (fun x => - Z.of_nat (length (bs_input_list st)) <= x
                     < Z.of_nat (length (bs_input_list st))) g /\
    Z.of_nat (length (bs_input_list st')) =
      Z.of_nat (length (bs_input_list st)) - Z.of_nat (length g) + 1 /\
    length (bs_contraction_list st') = S (length (bs_contraction_list st)).
Proof.
  destruct grp as [x|g]; [done |]. rewrite build_body_unfold. cbv zeta. intros H.
  apply bind_Ok_inv in H as ([tmp il] & Hpop & H).
  apply bind_Ok_inv in H as (r & _ & H). injection H as <-. simpl.
  apply pops_Ok in Hpop as [Hall Hlen]. rewrite py_sort_length in Hlen.
  exists g. split; [done |]. split; [| split].
  - apply Forall_forall. intros x Hx. rewrite Forall_forall in Hall.
    apply Hall. by apply py_sort_elem_of.
  - rewrite length_app. simpl. lia.
  - rewrite length_app. simpl. lia.
Qed.

Lemma build_loop_Ok (path : list group) (f : nat -> Z) (st st' : build_state) :
  for_each body (imap (fun i grp => (f i, grp)) path) st = Ok st' ->
  (forall k grp, path !! k = Some grp ->
     exists g, grp = GTuple g /\
       forall x, x ∈ g ->
         - live_length (take k path) (Z.of_nat (length (bs_input_list st))) <= x
         < live_length (take k path) (Z.of_nat (length (bs_input_list st)))) /\
  length (bs_contraction_list st') =
    (length (bs_contraction_list st) + length path)%nat.
Proof.
  revert f st. induction path as [|grp path IH]; intros f st H.
  - injection H as <-. split; [| simpl; lia]. intros k grp Hk.
    by rewrite lookup_nil in Hk.
  - rewrite imap_cons, for_each_cons in H.
    apply bind_Ok_inv in H as (st1 & H1 & H).
    apply build_body_Ok in H1 as (g & -> & Hall & Hlen & Hcl).
    apply (IH (f ∘ S)) in H as [Hrange Hcl']. split; [| simpl; lia].
    intros [|k] grp Hk; simpl in Hk.
    + injection Hk as <-. exists g. split; [done |]. simpl.
      by apply Forall_forall.
    + destruct (Hrange k grp Hk) as (g' & -> & Hg'). exists g'. split; [done |].
      simpl. unfold live_length in *. simpl. by rewrite <- Hlen.
Qed.

End BuildAny.

(** ** [contract] once its input checks have passed *)

Lemma contract_plan_checked (input_list : list string) (output_subscript : string)
    (operands : list shape) (kw : kwargs) (d : gmap label Z) (size_list : list Z)
    (out_size : Z) :
  length input_list = length operands ->
  build_dimension_dict input_list operands = Ok d ->
  compute_size_list (input_list ++ [output_subscript]) d = Ok size_list ->
  py_max size_list = Ok out_size ->
  contract_plan input_list output_subscript operands kw =
  (path ← compute_path (default (PathName "opportunistic") (kw_path kw)) input_list
            (set_of_str <$> input_list) (set_of_str output_subscript) d
            (default out_size (kw_memory kw)) out_size;
   st ← build_contraction_list path input_list (set_of_str <$> input_list)
          output_subscript (set_of_str output_subscript) d;
   Ok (Plan path st)).
Proof.
  intros Hlen Hd Hs Hmax. unfold contract_plan.
  rewrite Hlen, Nat.eqb_refl. simpl negb. cbv iota zeta.
  rewrite Hd, bind_Ok, Hs, bind_Ok, Hmax, bind_Ok.
  rewrite size_of_set_covered; [done |].
  apply build_dimension_dict_dom in Hd. by rewrite Hd.
Qed.

Lemma compute_path_named (name : string) (input_list : list string)
    (input_sets : list (gset label)) (output_set : gset label)
    (d : gmap label Z) (memory_arg out_size : Z) :
  (3 <= length input_list)%nat ->
  compute_path (PathName name) input_list input_sets output_set d memory_arg out_size =
  if String.eqb name "opportunistic" then
    path ← _path_opportunistic input_sets output_set d (Z.min memory_arg out_size);
    Ok (map GTuple path)
  else if String.eqb name "optimal" then
    path ← _path_optimal input_sets output_set d memory_arg;
    Ok (map GTuple path)
  else Raise KeyError.
Proof.
  intros Hlen. unfold compute_path.
  destruct (Nat.eqb_spec (length input_list) 1); [lia |].
  destruct (Nat.eqb_spec (length input_list) 2); [lia | done].
Qed.

(** * [contract]: the path and the contraction list *)

(** C5: once the checks of [contract] on the operands and the output have
    passed and there are at least two operands, each of the two searches
    returns a path whose contraction list is built without error; the
    sequence of label sets left at the end is the output set alone, the last
    contraction tuple has the output subscript itself as its result (so in
    the declared order), and the result of every earlier tuple lists the
    surviving labels of its step by ascending size, then by label. *)
Theorem materialized_result_is_output
    (search : list (gset label) -> gset label -> gmap label Z -> Z ->
              result (list (list Z)))
    (input_list : list string) (output_subscript : string)
    (operands : list shape) (dimension_dict : gmap label Z) (size_list : list Z)
    (memory : Z) :
  search = _path_optimal \/ search = _path_opportunistic ->
  (2 <= length input_list)%nat ->
  build_dimension_dict input_list operands = Ok dimension_dict ->
  compute_size_list (input_list ++ [output_subscript]) dimension_dict = Ok size_list ->
  exists p st,
    search (set_of_str <$> input_list) (set_of_str output_subscript)
           dimension_dict memory = Ok p /\
    build_contraction_list (map GTuple p) input_list (set_of_str <$> input_list)
      output_subscript (set_of_str output_subscript) dimension_dict = Ok st /\
    bs_input_sets st = [set_of_str output_subscript] /\
    bs_input_list st = [output_subscript] /\
    length (bs_contraction_list st) = length p /\
    forall i c g, bs_contraction_list st !! i = Some c -> p !! i = Some g ->
      exists r, instruction_result c r /\
        (S i = length p -> r = output_subscript /\ c.2 = [output_subscript]) /\
        (S i <> length p ->
         ordered_result dimension_dict
           (new_result
              (_find_contraction g
                 (replay (set_of_str output_subscript) (take i p)
                         (set_of_str <$> input_list))
                 (set_of_str output_subscript))) r).
Proof.
  intros Hsearch Hlen Hd Hs.
  destruct (prelude_facts _ _ _ _ _ Hd Hs) as (Hcov & Hout & _).
  assert (2 <= length (set_of_str <$> input_list))%nat as Hlen'
    by (by rewrite length_fmap).
  assert (exists p,
    search (set_of_str <$> input_list) (set_of_str output_subscript)
           dimension_dict memory = Ok p /\
    each_step (set_of_str output_subscript)
              (fun ops g => search_group (length ops) g) p (set_of_str <$> input_list) /\
    p <> [] /\
    length (replay (set_of_str output_subscript) p (set_of_str <$> input_list)) = 1%nat)
    as (p & Hp & Hgroups & Hne & Hone).
  { destruct Hsearch as [-> | ->].
    - by apply path_optimal_groups.
    - by apply path_opportunistic_groups. }
  destruct (build_search_path input_list output_subscript dimension_dict p
              Hcov Hout Hgroups Hne Hone) as (st & Hst).
  by exists p, st.
Qed.

(** C7, amended: with at least three operands, a strategy name other than
    ['opportunistic'] and ['optimal'] makes the call fail with an exception.
    (With one or two operands the name is not looked at.) *)
Theorem unknown_strategy_fails (input_list : list string)
    (output_subscript : string) (operands : list shape) (kw : kwargs)
    (name : string) :
  kw_path kw = Some (PathName name) ->
  name <> "opportunistic"%string ->
  name <> "optimal"%string ->
  (3 <= length input_list)%nat ->
  exists e, contract input_list output_subscript operands kw = Raise e.
Proof.
  intros Hkw Hopp Hopt Hlen. unfold contract, contract_plan.
  destruct (negb (length input_list =? length operands)%nat); [by eexists |].
  cbv zeta.
  destruct (build_dimension_dict input_list operands) as [d|e]; [| by eexists].
  rewrite bind_Ok.
  destruct (compute_size_list (input_list ++ [output_subscript]) d) as [sl|e];
    [| by eexists].
  rewrite bind_Ok. destruct (py_max sl) as [out_size|e]; [| by eexists].
  rewrite bind_Ok.
  destruct (size_of_set (⋃ (set_of_str <$> input_list)) d) as [flops|e];
    [| by eexists].
  rewrite bind_Ok, Hkw. simpl default. rewrite compute_path_named by done.
  apply String.eqb_neq in Hopp, Hopt. rewrite Hopp, Hopt. by eexists.
Qed.

Lemma pops_raise (positions : list Z) (tmp il : list string) (e : exn) :
  for_each pop_body positions (tmp, il) = Raise e -> e = IndexError.
Proof.
  revert tmp il. induction positions as [|x positions IH]; intros tmp il H; [done |].
  rewrite for_each_cons in H.
  destruct (pop_body (tmp, il) x) as [[tmp1 il1]|e1] eqn:E.
  - rewrite bind_Ok in H. by eapply IH.
  - injection H as <-. unfold pop_body, list_pop in E.
    destruct (py_index (length il) x) as [i|e2] eqn:Ei.
    + rewrite bind_Ok in E. destruct (il !! i); [done |]. by injection E as <-.
    + injection E as <-. unfold py_index in Ei.
      destruct (_ || _); [by injection Ei as <- | done].
Qed.

Section BuildRaises.
Variable output_subscript : string.
Variable output_set : gset label.
Variable dimension_dict : gmap label Z.
Variable len_path : nat.

#[local] Abbreviation body := (build_body output_subscript output_set dimension_dict len_path).

(** With a dictionary that has every label as a key, a step can only fail in
    [list] (a bare integer) or in [pop] (a position outside the list). *)
Lemma build_body_raises (st : build_state) (cnum : Z) (grp : group) :
  covers dimension_dict (bs_input_sets st) ->
  match body st (cnum, grp) with
  | Ok st' => covers dimension_dict (bs_input_sets st')
  | Raise e => e = TypeError \/ e = IndexError
  end.
Proof.
  intros Hcov. destruct grp as [x|g]; [by left |].
  rewrite build_body_unfold. cbv zeta.
  destruct (for_each pop_body _ _) as [[tmp il]|e] eqn:Hpop.
  2: { right. by apply pops_raise in Hpop. }
  rewrite bind_Ok.
  assert (exists r,
    (if cnum - Z.of_nat len_path =? -1 then Ok output_subscript
     else sorted_result dimension_dict
            (new_result (_find_contraction (py_sort (fun a b : Z => b <? a) g)
                                           (bs_input_sets st) output_set))) = Ok r)
    as [r ->].
  { destruct (_ =? _); [by eexists |].
    destruct (sorted_result_spec dimension_dict
                (new_result (_find_contraction (py_sort (fun a b : Z => b <? a) g)
                                               (bs_input_sets st) output_set)))
      as (r & -> & _); [| by eexists].
    etrans; [apply new_result_subseteq | apply Hcov]. }
  rewrite bind_Ok. simpl.
  by apply (covers_after_step output_set dimension_dict
              (py_sort (fun a b : Z => b <? a) g)).
Qed.

Lemma build_loop_raises (path : list group) (f : nat -> Z) (st : build_state)
    (e : exn) :
  covers dimension_dict (bs_input_sets st) ->
  for_each body (imap (fun i grp => (f i, grp)) path) st = Raise e ->
  e = TypeError \/ e = IndexError.
Proof.
  revert f st. induction path as [|grp path IH]; intros f st Hcov H; [done |].
  rewrite imap_cons, for_each_cons in H.
  pose proof (build_body_raises st (f 0%nat) grp Hcov) as Hstep.
  destruct (body st (f 0%nat, grp)) as [st1|e1].
  - rewrite bind_Ok in H. by apply (IH (f ∘ S) st1).
  - by injection H as <-.
Qed.

End BuildRaises.

(** C8, amended: nothing checks an explicit path against the operands, but
    a step that is a bare integer, or that holds a position outside the list
    of terms current at that step, makes the construction of the contraction
    list fail with an exception, so that no contraction tuple is returned;
    with a dictionary that has every label of the operands as a key, as the
    one [contract] builds, the exception is [TypeError] or [IndexError], and
    that is then what the call raises.  A path that is accepted yields one
    contraction tuple per step, whatever the number of its steps and whatever
    it leaves at the end. *)
Theorem explicit_path_checks (path : list group) (input_list : list string)
    (input_sets : list (gset label)) (output_subscript : string)
    (output_set : gset label) (dimension_dict : gmap label Z) :
  (out_of_range path (length input_list) ->
   exists e, build_contraction_list path input_list input_sets output_subscript
               output_set dimension_dict = Raise e) /\
  (covers dimension_dict input_sets ->
   out_of_range path (length input_list) ->
   build_contraction_list path input_list input_sets output_subscript
     output_set dimension_dict = Raise TypeError \/
   build_contraction_list path input_list input_sets output_subscript
     output_set dimension_dict = Raise IndexError) /\
  (forall operands kw size_list,
     kw_path kw = Some (PathList path) ->
     length input_list = length operands ->
     build_dimension_dict input_list operands = Ok dimension_dict ->
     compute_size_list (input_list ++ [output_subscript]) dimension_dict
     = Ok size_list ->
     out_of_range path (length input_list) ->
     contract input_list output_subscript operands kw = Raise TypeError \/
     contract input_list output_subscript operands kw = Raise IndexError) /\
  (forall st, build_contraction_list path input_list input_sets output_subscript
                output_set dimension_dict = Ok st ->
              length (bs_contraction_list st) = length path).
Proof.
  assert (forall sets out,
    out_of_range path (length input_list) ->
    exists e, build_contraction_list path input_list sets output_subscript
                out dimension_dict = Raise e) as Hraise.
  { intros sets out (k & grp & Hk & Hbad). unfold build_contraction_list, enumerate.
    destruct (for_each _ _ _) as [st|e] eqn:E; [| by eexists].
    apply build_loop_Ok in E as [Hrange _].
    destruct (Hrange k grp Hk) as (g & -> & Hg). simpl in Hg.
    destruct Hbad as (x & Hx & Hbad). by destruct Hbad; apply Hg. }
  assert (forall sets out,
    covers dimension_dict sets ->
    out_of_range path (length input_list) ->
    build_contraction_list path input_list sets output_subscript
      out dimension_dict = Raise TypeError \/
    build_contraction_list path input_list sets output_subscript
      out dimension_dict = Raise IndexError) as Hkind.
  { intros sets out Hcov Hbad. destruct (Hraise sets out Hbad) as [e He].
    rewrite He. unfold build_contraction_list, enumerate in He.
    apply build_loop_raises in He as [-> | ->]; [by left | by right | done]. }
  split; [apply Hraise |]. split; [apply Hkind |]. split.
  - intros operands kw size_list Hkw Hlen Hd Hs Hbad.
    destruct (prelude_facts _ _ _ _ _ Hd Hs) as (Hcov & _ & out_size & Hmax & _).
    unfold contract.
    rewrite (contract_plan_checked _ _ _ _ _ _ _ Hlen Hd Hs Hmax), Hkw.
    simpl default. unfold compute_path. rewrite bind_Ok.
    destruct (Hkind (set_of_str <$> input_list) (set_of_str output_subscript)
                Hcov Hbad) as [-> | ->]; [by left | by right].
  - intros st E. unfold build_contraction_list, enumerate in E.
    by apply build_loop_Ok in E as [_ ->].
Qed.

(** C10: with at least three operands and the checks passed, [size_list]
    holds the size of every input term and of the output, [out_size] is the
    largest of them, and the ['opportunistic'] strategy is run with the
    smaller of the caller's memory limit ([out_size] when none is given) and
    [out_size], so that every pair it commits has a result no larger than
    [out_size]; the ['optimal'] strategy is run with the caller's limit
    itself. *)
Theorem opportunistic_memory_is_capped (input_list : list string)
    (output_subscript : string) (operands : list shape) (kw : kwargs)
    (dimension_dict : gmap label Z) (size_list : list Z) :
  (3 <= length input_list)%nat ->
  length input_list = length operands ->
  build_dimension_dict input_list operands = Ok dimension_dict ->
  compute_size_list (input_list ++ [output_subscript]) dimension_dict = Ok size_list ->
  Forall2 (fun term sz =>
             _compute_size_by_dict (list_ascii_of_string term) dimension_dict = Ok sz)
          (input_list ++ [output_subscript]) size_list /\
  exists out_size,
    py_max size_list = Ok out_size /\
    Forall (fun y => y <= out_size) size_list /\ out_size ∈ size_list /\
    (default (PathName "opportunistic") (kw_path kw) = PathName "opportunistic" ->
     exists p q pl,
       _path_opportunistic (set_of_str <$> input_list) (set_of_str output_subscript)
         dimension_dict (Z.min (default out_size (kw_memory kw)) out_size) = Ok p /\
       contract_plan input_list output_subscript operands kw = Ok pl /\
       plan_path pl = map GTuple p /\
       (p = q \/
        p = q ++ [fallback (replay (set_of_str output_subscript) q
                                   (set_of_str <$> input_list))]) /\
       each_step (set_of_str output_subscript)
         (fun ops g =>
            estimateSize dimension_dict
              (new_result (_find_contraction g ops (set_of_str output_subscript)))
            <= out_size)
         q (set_of_str <$> input_list)) /\
    (default (PathName "opportunistic") (kw_path kw) = PathName "optimal" ->
     exists p pl,
       _path_optimal (set_of_str <$> input_list) (set_of_str output_subscript)
         dimension_dict (default out_size (kw_memory kw)) = Ok p /\
       contract_plan input_list output_subscript operands kw = Ok pl /\
       plan_path pl = map GTuple p).
Proof.
  intros Hlen Hops Hd Hs.
  destruct (prelude_facts _ _ _ _ _ Hd Hs) as (Hcov & Hout & out_size & Hmax & Hle & Hin).
  split; [by apply compute_size_list_Ok |].
  exists out_size. split; [done |]. split; [done |]. split; [done |].
  rewrite (contract_plan_checked _ _ _ _ _ _ _ Hops Hd Hs Hmax).
  assert (2 <= length (set_of_str <$> input_list))%nat as Hlen'
    by (rewrite length_fmap; lia).
  split; intros ->; rewrite compute_path_named by done; simpl String.eqb; cbv iota.
  - set (memory := Z.min (default out_size (kw_memory kw)) out_size).
    destruct (path_opportunistic_groups (set_of_str output_subscript) dimension_dict
                memory _ Hcov Hlen') as (p & Hp & Hgroups & Hne & Hone).
    destruct (build_search_path input_list output_subscript dimension_dict p
                Hcov Hout Hgroups Hne Hone) as (st & Hst & _).
    destruct (opportunistic_loop_spec (set_of_str output_subscript) dimension_dict
                memory (seq 0 (length (set_of_str <$> input_list) - 1)) []
                (set_of_str <$> input_list) Hcov) as (q & Hq & Hres).
    exists p, q, (Plan (map GTuple p) st).
    split; [done |]. rewrite Hp, bind_Ok, bind_Ok, Hst, bind_Ok.
    split; [done |]. split; [done |]. split.
    + unfold _path_opportunistic in Hp. rewrite Hp in Hres.
      destruct Hres as [[_ [= ->]]|(_ & _ & [= ->])]; simpl; eauto.
    + revert Hq. apply each_step_impl. intros ops g [[_ Hw] _].
      unfold within_memory in Hw. unfold memory in Hw. lia.
  - destruct (path_optimal_groups (set_of_str output_subscript) dimension_dict
                (default out_size (kw_memory kw)) _ Hcov Hlen')
      as (p & Hp & Hgroups & Hne & Hone).
    destruct (build_search_path input_list output_subscript dimension_dict p
                Hcov Hout Hgroups Hne Hone) as (st & Hst & _).
    exists p, (Plan (map GTuple p) st).
    split; [done |]. by rewrite Hp, bind_Ok, bind_Ok, Hst, bind_Ok.
Qed.

(** * Concrete instances *)

Lemma chain_covered : covers chain_sizes chain_sets.
Proof. unfold covers. apply (bool_decide_unpack _). by vm_compute. Qed.

Lemma chain_feasible :
  feasible_path chain_output chain_sizes 100 [[0; 1]; [0; 1]] chain_sets.
Proof.
  split; [split |split; [split | done]].
  - exists 0, 1. split; [done |]. vm_compute. split; [split |]; done.
  - unfold within_memory. by vm_compute.
  - exists 0, 1. split; [done |]. vm_compute. split; [split |]; done.
  - unfold within_memory. by vm_compute.
Qed.

Lemma path_optimal_minimal_witness :
  covers chain_sizes chain_sets /\
  (2 <= length chain_sets)%nat /\
  complete [[0; 1]; [0; 1]] chain_sets /\
  feasible_path chain_output chain_sizes 100 [[0; 1]; [0; 1]] chain_sets /\
  exists p,
    _path_optimal chain_sets chain_output chain_sizes 100 = Ok p /\
    complete p chain_sets /\
    feasible_path chain_output chain_sizes 100 p chain_sets /\
    (path_cost chain_output chain_sizes p chain_sets
       < path_cost chain_output chain_sizes [[0; 1]; [0; 1]] chain_sets \/
     (path_cost chain_output chain_sizes p chain_sets
        = path_cost chain_output chain_sizes [[0; 1]; [0; 1]] chain_sets /\
      (p = [[0; 1]; [0; 1]] \/ path_lt p [[0; 1]; [0; 1]]))).
Proof.
  assert (H2 : (2 <= length chain_sets)%nat) by (vm_compute; lia).
  assert (Hc : complete [[0; 1]; [0; 1]] chain_sets) by reflexivity.
  split; [exact chain_covered |]. split; [exact H2 |]. split; [exact Hc |].
  split; [exact chain_feasible |].
  exact (path_optimal_minimal chain_sets chain_output chain_sizes 100
           [[0; 1]; [0; 1]] chain_covered H2 Hc chain_feasible).
Defined.

Lemma search_steps_within_memory_witness :
  covers chain_sizes chain_sets /\
  ((2 <= length chain_sets)%nat ->
   exists p, _path_optimal chain_sets chain_output chain_sizes 100 = Ok p /\
     (p = [fallback chain_sets] \/
      each_step chain_output (within_memory chain_output chain_sizes 100) p chain_sets)) /\
  (exists p q, _path_opportunistic chain_sets chain_output chain_sizes 100 = Ok p /\
     (p = q \/ p = q ++ [fallback (replay chain_output q chain_sets)]) /\
     each_step chain_output (within_memory chain_output chain_sizes 100) q chain_sets).
Proof.
  split; [exact chain_covered |].
  exact (search_steps_within_memory chain_sets chain_output chain_sizes 100
           chain_covered).
Defined.

Lemma opportunistic_commits_best_witness :
  covers chain_sizes chain_sets /\
  exists p q, _path_opportunistic chain_sets chain_output chain_sizes 100 = Ok p /\
    ((p = q /\ length q = (length chain_sets - 1)%nat) \/
     (p = q ++ [fallback (replay chain_output q chain_sets)] /\
      (length q < length chain_sets - 1)%nat /\
      forall g, ~ feasible_step chain_output chain_sizes 100
                    (replay chain_output q chain_sets) g)) /\
    each_step chain_output
      (fun operands g =>
         feasible_step chain_output chain_sizes 100 operands g /\
         forall g', feasible_step chain_output chain_sizes 100 operands g' ->
           key_le (rank_key chain_output chain_sizes operands g)
                  (rank_key chain_output chain_sizes operands g'))
      q chain_sets.
Proof.
  split; [exact chain_covered |].
  exact (opportunistic_commits_best chain_sets chain_output chain_sizes 100
           chain_covered).
Defined.

(** With a memory limit of 1 no pair of the chain is feasible. *)
Lemma chain_no_pair (q : list (list Z)) :
  length q = 1%nat -> ~ feasible_path chain_output chain_sizes 1 q chain_sets.
Proof.
  intros Hlen Hf. destruct q as [|g [|]]; try done.
  destruct Hf as [[Hpair Hw] _]. apply triu_indices_spec in Hpair.
  vm_compute in Hpair. unfold within_memory in Hw.
  repeat (apply elem_of_cons in Hpair as [->|Hpair]; [by vm_compute in Hw |]).
  inversion Hpair.
Qed.

Lemma searches_fall_back_witness :
  covers chain_sizes chain_sets /\
  (0 < length chain_sets - 1)%nat /\
  (forall q, length q = 1%nat ->
             ~ feasible_path chain_output chain_sizes 1 q chain_sets) /\
  _path_optimal chain_sets chain_output chain_sizes 1 = Ok [fallback chain_sets] /\
  exists q, (length q <= 0)%nat /\
    feasible_path chain_output chain_sizes 1 q chain_sets /\
    _path_opportunistic chain_sets chain_output chain_sizes 1
    = Ok (q ++ [fallback (replay chain_output q chain_sets)]).
Proof.
  assert (H0 : (0 < length chain_sets - 1)%nat) by (vm_compute; lia).
  split; [exact chain_covered |]. split; [exact H0 |]. split; [exact chain_no_pair |].
  exact (proj1 (searches_fall_back chain_sets chain_output chain_sizes 1
                  chain_covered) 0%nat H0 chain_no_pair).
Defined.

Lemma chain_dimension_dict :
  build_dimension_dict chain_terms chain_shapes = Ok chain_sizes.
Proof. by vm_compute. Qed.

Lemma chain_size_list :
  compute_size_list (chain_terms ++ ["ad"%string]) chain_sizes = Ok [6; 12; 20; 10].
Proof. by vm_compute. Qed.

Lemma materialized_result_is_output_witness :
  (_path_opportunistic = _path_optimal \/ _path_opportunistic = _path_opportunistic) /\
  (2 <= length chain_terms)%nat /\
  build_dimension_dict chain_terms chain_shapes = Ok chain_sizes /\
  compute_size_list (chain_terms ++ ["ad"%string]) chain_sizes = Ok [6; 12; 20; 10] /\
  exists p st,
    _path_opportunistic (set_of_str <$> chain_terms) (set_of_str "ad")
                        chain_sizes 20 = Ok p /\
    build_contraction_list (map GTuple p) chain_terms (set_of_str <$> chain_terms)
      "ad" (set_of_str "ad") chain_sizes = Ok st /\
    bs_input_sets st = [set_of_str "ad"] /\
    bs_input_list st = ["ad"%string] /\
    length (bs_contraction_list st) = length p /\
    forall i c g, bs_contraction_list st !! i = Some c -> p !! i = Some g ->
      exists r, instruction_result c r /\
        (S i = length p -> r = "ad"%string /\ c.2 = ["ad"%string]) /\
        (S i <> length p ->
         ordered_result chain_sizes
           (new_result
              (_find_contraction g
                 (replay (set_of_str "ad") (take i p) (set_of_str <$> chain_terms))
                 (set_of_str "ad"))) r).
Proof.
  assert (H2 : (2 <= length chain_terms)%nat) by (simpl; lia).
  split; [by right |]. split; [exact H2 |].
  split; [exact chain_dimension_dict |]. split; [exact chain_size_list |].
  exact (materialized_result_is_output _path_opportunistic chain_terms "ad"
           chain_shapes chain_sizes [6; 12; 20; 10] 20 (or_intror eq_refl) H2
           chain_dimension_dict chain_size_list).
Defined.

(** Two operands and an unknown strategy name: the call returns normally. *)
Lemma unknown_strategy_two_operands :
  contract ["ab"; "bc"]%string "ac" [[2; 3]; [3; 4]]%N
           (Kwargs (Some (PathName "foo")) None (Some true))
  = Ok (ReturnPath [GTuple [0; 1]] [("bc,ab->ac", ["ac"])]%string) /\
  ~ (exists e, contract ["ab"; "bc"]%string "ac" [[2; 3]; [3; 4]]%N
                        (Kwargs (Some (PathName "foo")) None (Some true))
               = Raise e).
Proof.
  assert (contract ["ab"; "bc"]%string "ac" [[2; 3]; [3; 4]]%N
                   (Kwargs (Some (PathName "foo")) None (Some true))
          = Ok (ReturnPath [GTuple [0; 1]] [("bc,ab->ac", ["ac"])]%string)) as H
    by (by vm_compute).
  split; [done |]. intros [e He]. rewrite H in He. discriminate.
Qed.

Lemma unknown_strategy_fails_witness :
  kw_path (Kwargs (Some (PathName "greedy")) None None) = Some (PathName "greedy") /\
  "greedy"%string <> "opportunistic"%string /\
  "greedy"%string <> "optimal"%string /\
  (3 <= length chain_terms)%nat /\
  exists e, contract chain_terms "ad" chain_shapes
                     (Kwargs (Some (PathName "greedy")) None None) = Raise e.
Proof.
  assert (H1 : "greedy"%string <> "opportunistic"%string) by discriminate.
  assert (H2 : "greedy"%string <> "optimal"%string) by discriminate.
  assert (H3 : (3 <= length chain_terms)%nat) by (simpl; lia).
  split; [reflexivity |]. split; [exact H1 |]. split; [exact H2 |].
  split; [exact H3 |].
  exact (unknown_strategy_fails chain_terms "ad" chain_shapes
           (Kwargs (Some (PathName "greedy")) None None) "greedy"
           eq_refl H1 H2 H3).
Defined.

(** An explicit path of one step over three operands, which leaves two terms
    and not the output: it is accepted and one contraction tuple is built. *)
Lemma malformed_path_accepted :
  length [GTuple [0; 1]] <> (length chain_terms - 1)%nat /\
  contract chain_terms "ad" chain_shapes
           (Kwargs (Some (PathList [GTuple [0; 1]])) None (Some true))
  = Ok (ReturnPath [GTuple [0; 1]] [("bc,ab->ad", ["cd"; "ad"])]%string) /\
  (exists st,
     build_contraction_list [GTuple [0; 1]] chain_terms chain_sets "ad"
                            chain_output chain_sizes = Ok st /\
     length (bs_contraction_list st) = 1%nat /\
     bs_input_sets st <> [chain_output]) /\
  ~ (exists e, contract chain_terms "ad" chain_shapes
                        (Kwargs (Some (PathList [GTuple [0; 1]])) None (Some true))
               = Raise e).
Proof.
  assert (contract chain_terms "ad" chain_shapes
                   (Kwargs (Some (PathList [GTuple [0; 1]])) None (Some true))
          = Ok (ReturnPath [GTuple [0; 1]] [("bc,ab->ad", ["cd"; "ad"])]%string)) as H
    by (by vm_compute).
  split; [simpl; lia |]. split; [done |]. split.
  - destruct (build_contraction_list [GTuple [0; 1]] chain_terms chain_sets "ad"
                                     chain_output chain_sizes) as [st|e] eqn:E;
      [| by vm_compute in E].
    exists st. split; [done |].
    assert (length (bs_contraction_list st) = 1%nat /\
            length (bs_input_sets st) = 2%nat) as [H1 H2].
    { assert (match build_contraction_list [GTuple [0; 1]] chain_terms chain_sets
                      "ad" chain_output chain_sizes with
              | Ok st => length (bs_contraction_list st) = 1%nat /\
                         length (bs_input_sets st) = 2%nat
              | Raise _ => False
              end) as Hm by (by vm_compute).
      by rewrite E in Hm. }
    split; [done |]. intros Heq. by rewrite Heq in H2.
  - intros [e He]. rewrite H in He. discriminate.
Qed.

Lemma explicit_path_checks_witness :
  out_of_range [GTuple [0; 5]] (length chain_terms) /\
  kw_path (Kwargs (Some (PathList [GTuple [0; 5]])) None (Some true))
  = Some (PathList [GTuple [0; 5]]) /\
  length chain_terms = length chain_shapes /\
  build_dimension_dict chain_terms chain_shapes = Ok chain_sizes /\
  compute_size_list (chain_terms ++ ["ad"%string]) chain_sizes = Ok [6; 12; 20; 10] /\
  (contract chain_terms "ad" chain_shapes
            (Kwargs (Some (PathList [GTuple [0; 5]])) None (Some true))
   = Raise TypeError \/
   contract chain_terms "ad" chain_shapes
            (Kwargs (Some (PathList [GTuple [0; 5]])) None (Some true))
   = Raise IndexError).
Proof.
  assert (H : out_of_range [GTuple [0; 5]] (length chain_terms)).
  { exists 0%nat, (GTuple [0; 5]). split; [reflexivity |].
    exists 5. split; [set_solver |]. vm_compute. intros [_ H]. discriminate. }
  split; [exact H |]. split; [reflexivity |]. split; [reflexivity |].
  split; [exact chain_dimension_dict |]. split; [exact chain_size_list |].
  exact (proj1 (proj2 (proj2
           (explicit_path_checks [GTuple [0; 5]] chain_terms chain_sets "ad"
              chain_output chain_sizes)))
           chain_shapes (Kwargs (Some (PathList [GTuple [0; 5]])) None (Some true))
           [6; 12; 20; 10] eq_refl eq_refl chain_dimension_dict chain_size_list H).
Defined.

(** C9: one operand whose labels are those of the output,
    [contract('ab->ab', A)].  The path computed is [[(0)]], whose one entry
    is the bare position 0 and no tuple, and reading it as a sequence of
    positions raises [TypeError]: no plan is returned, so neither an empty
    one, and the operand is not returned either, while the docstring says
    that one operand operations are supported. *)
Lemma single_operand_not_empty :
  compute_path (PathName "opportunistic") ["ab"%string] [set_of_str "ab"]
               (set_of_str "ab") (list_to_map [("a", 2); ("b", 3)]%char) 6 6
  = Ok [GInt 0] /\
  contract_plan ["ab"%string] "ab" [[2; 3]%N] (Kwargs None None None)
  = Raise TypeError /\
  ~ (exists pl, contract_plan ["ab"%string] "ab" [[2; 3]%N] (Kwargs None None None)
                = Ok pl /\
                plan_path pl = [] /\ bs_contraction_list (plan_state pl) = []).
Proof.
  split; [reflexivity |].
  assert (contract_plan ["ab"%string] "ab" [[2; 3]%N] (Kwargs None None None)
          = Raise TypeError) as H by (by vm_compute).
  split; [done |]. intros (pl & Hpl & _). rewrite H in Hpl. discriminate.
Qed.

Lemma opportunistic_memory_is_capped_witness :
  (3 <= length chain_terms)%nat /\
  length chain_terms = length chain_shapes /\
  build_dimension_dict chain_terms chain_shapes = Ok chain_sizes /\
  compute_size_list (chain_terms ++ ["ad"%string]) chain_sizes = Ok [6; 12; 20; 10] /\
  Forall2 (fun term sz =>
             _compute_size_by_dict (list_ascii_of_string term) chain_sizes = Ok sz)
          (chain_terms ++ ["ad"%string]) [6; 12; 20; 10] /\
  exists out_size,
    py_max [6; 12; 20; 10] = Ok out_size /\
    Forall (fun y => y <= out_size) [6; 12; 20; 10] /\
    out_size ∈ [6; 12; 20; 10] /\
    (default (PathName "opportunistic") (kw_path (Kwargs None (Some 1000) None))
     = PathName "opportunistic" ->
     exists p q pl,
       _path_opportunistic (set_of_str <$> chain_terms) (set_of_str "ad") chain_sizes
         (Z.min (default out_size (kw_memory (Kwargs None (Some 1000) None))) out_size)
       = Ok p /\
       contract_plan chain_terms "ad" chain_shapes (Kwargs None (Some 1000) None)
       = Ok pl /\
       plan_path pl = map GTuple p /\
       (p = q \/
        p = q ++ [fallback (replay (set_of_str "ad") q (set_of_str <$> chain_terms))]) /\
       each_step (set_of_str "ad")
         (fun ops g =>
            estimateSize chain_sizes
              (new_result (_find_contraction g ops (set_of_str "ad")))
            <= out_size)
         q (set_of_str <$> chain_terms)) /\
    (default (PathName "opportunistic") (kw_path (Kwargs None (Some 1000) None))
     = PathName "optimal" ->
     exists p pl,
       _path_optimal (set_of_str <$> chain_terms) (set_of_str "ad") chain_sizes
         (default out_size (kw_memory (Kwargs None (Some 1000) None))) = Ok p /\
       contract_plan chain_terms "ad" chain_shapes (Kwargs None (Some 1000) None)
       = Ok pl /\
       plan_path pl = map GTuple p).
Proof.
  assert (H3 : (3 <= length chain_terms)%nat) by (simpl; lia).
  split; [exact H3 |]. split; [reflexivity |].
  split; [exact chain_dimension_dict |]. split; [exact chain_size_list |].
  exact (opportunistic_memory_is_capped chain_terms "ad" chain_shapes
           (Kwargs None (Some 1000) None) chain_sizes [6; 12; 20; 10]
           H3 eq_refl chain_dimension_dict chain_size_list).
Defined.

(** Four operands that share three labels each, every size 2: each input
    holds 8 elements and every pair leaves 16.  With a memory limit of 16 the
    optimal search contracts pairs, the first of them leaving 16 elements,
    while the opportunistic search, held to 8, falls back to one step. *)
Example optimal_is_not_capped :
  contract ["abc"; "abd"; "acd"; "bcd"]%string ""
           [[2; 2; 2]; [2; 2; 2]; [2; 2; 2]; [2; 2; 2]]%N
           (Kwargs (Some (PathName "optimal")) (Some 16) (Some true))
  = Ok (ReturnPath [GTuple [0; 1]; GTuple [0; 1]; GTuple [0; 1]]
          [("abd,abc->abcd", ["acd"; "bcd"; "abcd"]);
           ("bcd,acd->abcd", ["abcd"; "abcd"]);
           ("abcd,abcd->", [""])]%string) /\
  contract ["abc"; "abd"; "acd"; "bcd"]%string ""
           [[2; 2; 2]; [2; 2; 2]; [2; 2; 2]; [2; 2; 2]]%N
           (Kwargs (Some (PathName "opportunistic")) (Some 16) (Some true))
  = Ok (ReturnPath [GTuple [0; 1; 2; 3]]
          [("bcd,acd,abd,abc->", [""])]%string).
Proof. split; by vm_compute. Qed.

(** [_path_optimal] on fewer than two operands: [new] is never bound. *)
Example path_optimal_single :
  _path_optimal [set_of_str "ab"] (set_of_str "ab")
                (list_to_map [("a", 2); ("b", 3)]%char) 6
  = Raise UnboundLocalError.
Proof. reflexivity. Qed.

(** The path printed in the docstring of [contract]. *)
Example docstring_path :
  contract ["ea"; "fb"; "abcd"; "gc"; "hd"]%string "efgh"
           [[10; 10]; [10; 10]; [10; 10; 10; 10]; [10; 10]; [10; 10]]%N
           (Kwargs None None (Some true))
  = Ok (ReturnPath [GTuple [0; 2]; GTuple [0; 3]; GTuple [0; 2]; GTuple [0; 1]]
          [("abcd,ea->bcde", ["fb"; "gc"; "hd"; "bcde"]);
           ("bcde,fb->cdef", ["gc"; "hd"; "cdef"]);
           ("cdef,gc->defg", ["hd"; "defg"]);
           ("defg,hd->efgh", ["efgh"])]%string).
Proof. by vm_compute. Qed.

(** * Further properties *)

(** ** [_compute_size_by_dict] *)

(** X1: [_compute_size_by_dict] returns the product of the sizes when every
    label is a key of the dictionary (1 for no label), and raises [KeyError]
    as soon as one is not. *)
Theorem compute_size_by_dict_total (inds : list label) (ind_dict : gmap label Z) :
  _compute_size_by_dict inds ind_dict =
  if decide (Forall (fun l => l ∈ dom ind_dict) inds)
  then Ok (size_product ind_dict inds)
  else Raise KeyError.
Proof.
  unfold _compute_size_by_dict, size_product. case_decide as Hall.
  - rewrite compute_size_loop by done. f_equal. lia.
  - by apply compute_size_raises.
Qed.

Lemma size_product_perm (sizes : gmap label Z) (l1 l2 : list label) :
  l1 ≡ₚ l2 -> size_product sizes l1 = size_product sizes l2.
Proof.
  unfold size_product. induction 1 as [|x l1 l2 _ IH|x y l|l1 l2 l3 _ IH1 _ IH2];
    csimpl; [done | by rewrite IH | lia | congruence].
Qed.

Lemma size_product_app (sizes : gmap label Z) (l1 l2 : list label) :
  size_product sizes (l1 ++ l2) = size_product sizes l1 * size_product sizes l2.
Proof.
  unfold size_product. induction l1 as [|x l1 IH]; csimpl; [lia |].
  rewrite IH. lia.
Qed.

Lemma compute_size_by_dict_cases (inds : list label) (d : gmap label Z) :
  (Forall (fun l => l ∈ dom d) inds /\
   _compute_size_by_dict inds d = Ok (size_product d inds)) \/
  (~ Forall (fun l => l ∈ dom d) inds /\
   _compute_size_by_dict inds d = Raise KeyError).
Proof.
  unfold _compute_size_by_dict, size_product.
  destruct (decide (Forall (fun l => l ∈ dom d) inds)) as [Hall|Hall]; [left | right].
  - split; [done |]. rewrite compute_size_loop by done. f_equal. lia.
  - split; [done |]. by apply compute_size_raises.
Qed.

(** X2: the order in which the labels are visited does not matter: two
    sequences that are permutations of each other get the same result, the
    same product or the same [KeyError].  (A Python set may be iterated in any
    order.) *)
Theorem compute_size_by_dict_perm (inds inds' : list label)
    (ind_dict : gmap label Z) :
  inds ≡ₚ inds' ->
  _compute_size_by_dict inds ind_dict = _compute_size_by_dict inds' ind_dict.
Proof.
  intros Hperm.
  destruct (compute_size_by_dict_cases inds ind_dict) as [[Hall ->]|[Hall ->]];
    destruct (compute_size_by_dict_cases inds' ind_dict) as [[Hall' ->]|[Hall' ->]].
  - f_equal. by apply size_product_perm.
  - destruct Hall'. by rewrite <- Hperm.
  - destruct Hall. by rewrite Hperm.
  - done.
Qed.

(** X3: sizes multiply over disjoint sets of labels: when the sizes of two
    disjoint sets are computed, the size of their union is the product. *)
Theorem size_of_disjoint_union (s1 s2 : gset label) (ind_dict : gmap label Z)
    (v1 v2 : Z) :
  s1 ## s2 ->
  size_of_set s1 ind_dict = Ok v1 ->
  size_of_set s2 ind_dict = Ok v2 ->
  size_of_set (s1 ∪ s2) ind_dict = Ok (v1 * v2).
Proof.
  intros Hdisj H1 H2. apply size_of_set_ok in H1 as [Hs1 ->].
  apply size_of_set_ok in H2 as [Hs2 ->].
  rewrite size_of_set_covered by set_solver. f_equal.
  change (size_product ind_dict (elements (s1 ∪ s2)) =
          size_product ind_dict (elements s1) * size_product ind_dict (elements s2)).
  rewrite <- size_product_app. apply size_product_perm.
  by apply elements_disj_union.
Qed.

Lemma size_product_positive (sizes : gmap label Z) (inds : list label) :
  positive_sizes sizes -> Forall (fun l => l ∈ dom sizes) inds ->
  1 <= size_product sizes inds.
Proof.
  intros Hpos Hall. unfold size_product.
  induction Hall as [|l inds Hl Hall IH]; csimpl; [lia |].
  apply elem_of_dom in Hl as [v Hv]. rewrite Hv. simpl.
  specialize (Hpos l v Hv). nia.
Qed.

(** X4: when every size is at least one, a computed size is at least one and
    grows with the set of labels: a subset never has a larger size. *)
Theorem size_of_set_monotone (s1 s2 : gset label) (ind_dict : gmap label Z)
    (v1 v2 : Z) :
  positive_sizes ind_dict ->
  s1 ⊆ s2 ->
  size_of_set s1 ind_dict = Ok v1 ->
  size_of_set s2 ind_dict = Ok v2 ->
  1 <= v1 <= v2.
Proof.
  intros Hpos Hsub H1 H2.
  apply size_of_set_ok in H1 as [Hs1 ->]. apply size_of_set_ok in H2 as [Hs2 ->].
  destruct (submseteq_Permutation _ _ (elements_submseteq s1 s2 Hsub)) as [k Hk].
  change (1 <= size_product ind_dict (elements s1)
          <= size_product ind_dict (elements s2)).
  rewrite (size_product_perm _ _ _ Hk), size_product_app.
  assert (1 <= size_product ind_dict (elements s1)) as Hv1.
  { apply size_product_positive; [done |]. apply Forall_forall. intros l Hl.
    apply Hs1. by apply elem_of_elements. }
  assert (1 <= size_product ind_dict k) as Hk1.
  { apply size_product_positive; [done |]. apply Forall_forall. intros l Hl.
    apply Hs2. apply elem_of_elements. rewrite Hk. apply elem_of_app. by right. }
  nia.
Qed.

(** ** [_find_contraction] *)

Lemma union_selected (g : list Z) (operands : list (gset label)) :
  ⋃ selected g operands ∪ ⋃ not_selected g operands = ⋃ operands.
Proof.
  apply set_eq. intros x. split.
  - pose proof (union_list_mono _ _ (selected_subseteq g operands)).
    pose proof (union_list_mono _ _ (not_selected_subseteq g operands)).
    set_solver.
  - apply union_selected_split.
Qed.

(** X5: the labels removed by a step are needed nowhere else: they are not
    in the output set and in none of the descriptors left, and together with
    the descriptors left they make up the labels the step started from. *)
Theorem find_contraction_removed_unused (positions : list Z)
    (input_sets : list (gset label)) (output_set : gset label) :
  let c := _find_contraction positions input_sets output_set in
  idx_removed c ## output_set /\
  (forall s, s ∈ remaining c -> idx_removed c ## s) /\
  ⋃ remaining c ∪ idx_removed c = ⋃ input_sets.
Proof.
  rewrite find_contraction_unfold. simpl.
  pose proof (union_selected positions input_sets) as Hall.
  split; [set_solver |]. split.
  - intros s Hs. apply elem_of_app in Hs as [Hs|Hs].
    + assert (s ⊆ ⋃ not_selected positions input_sets) as Hsub.
      { intros x Hx. apply elem_of_union_list. eauto. }
      set_solver.
    + apply list_elem_of_singleton in Hs. subst s. set_solver.
  - rewrite <- Hall. apply set_eq. intros x.
    rewrite union_list_app_L. simpl.
    rewrite !elem_of_union, elem_of_difference.
    rewrite !elem_of_intersection, !elem_of_union.
    destruct (decide (x ∈ ⋃ not_selected positions input_sets));
      destruct (decide (x ∈ output_set)); set_solver.
Qed.

Lemma find_contraction_partition (positions : list Z)
    (input_sets : list (gset label)) (output_set : gset label) :
  let c := _find_contraction positions input_sets output_set in
  new_result c ∪ idx_removed c = idx_contract c /\ new_result c ## idx_removed c.
Proof.
  rewrite find_contraction_unfold. simpl. split; [| set_solver].
  apply set_eq. intros l. rewrite elem_of_union, elem_of_difference.
  rewrite !elem_of_intersection.
  destruct (decide (l ∈ output_set ∪ ⋃ not_selected positions input_sets)); tauto.
Qed.

(** X6: the size of the contracted labels of a step is the size of its
    result times the size of the labels it removes. *)
Theorem contraction_size_factors (positions : list Z)
    (input_sets : list (gset label)) (output_set : gset label)
    (ind_dict : gmap label Z) (result_size removed_size : Z) :
  let c := _find_contraction positions input_sets output_set in
  size_of_set (new_result c) ind_dict = Ok result_size ->
  size_of_set (idx_removed c) ind_dict = Ok removed_size ->
  size_of_set (idx_contract c) ind_dict = Ok (result_size * removed_size).
Proof.
  intros c H1 H2.
  destruct (find_contraction_partition positions input_sets output_set)
    as [Hunion Hdisj]. fold c in Hunion, Hdisj.
  apply size_of_set_ok in H1 as [Hs1 ->]. apply size_of_set_ok in H2 as [Hs2 ->].
  rewrite <- Hunion. rewrite size_of_set_covered by set_solver. f_equal.
  change (size_product ind_dict (elements (new_result c ∪ idx_removed c)) =
          size_product ind_dict (elements (new_result c)) *
          size_product ind_dict (elements (idx_removed c))).
  rewrite <- size_product_app. apply size_product_perm.
  apply elements_disj_union. set_solver.
Qed.

Lemma enumerate_index {A : Type} (l : list A) (i : Z) (x : A) :
  (i, x) ∈ enumerate l -> 0 <= i < Z.of_nat (length l).
Proof.
  intros Hin. apply list_elem_of_lookup in Hin as [k Hk]. unfold enumerate in Hk.
  rewrite list_lookup_imap in Hk. destruct (l !! k) eqn:E; simplify_eq/=.
  apply lookup_lt_Some in E. lia.
Qed.

Lemma filter_all {A : Type} (P : A -> Prop) `{!forall x, Decision (P x)}
    (l : list A) :
  (forall x, x ∈ l -> P x) -> filter P l = l.
Proof.
  induction l as [|x l IH]; intros Hall; [done |].
  rewrite filter_cons_True by (apply Hall; by left).
  f_equal. apply IH. intros y Hy. apply Hall. by right.
Qed.

(** X7: positions that index no descriptor (negative ones, and those at or
    beyond the length of the sequence; no position at all) select nothing:
    nothing is contracted or removed and an empty descriptor is appended to
    the unchanged sequence. *)
Theorem find_contraction_no_position (positions : list Z)
    (input_sets : list (gset label)) (output_set : gset label) :
  (forall x, x ∈ positions -> x < 0 \/ Z.of_nat (length input_sets) <= x) ->
  _find_contraction positions input_sets output_set =
  Contraction ∅ (input_sets ++ [∅]) ∅ ∅.
Proof.
  intros Hout. rewrite find_contraction_unfold.
  assert (selected positions input_sets = []) as ->.
  { unfold selected. rewrite filter_none; [done |].
    intros [i v] Hin Hi. simpl in Hi. apply enumerate_index in Hin.
    destruct (Hout i Hi); lia. }
  assert (not_selected positions input_sets = input_sets) as ->.
  { unfold not_selected. rewrite filter_all; [apply enumerate_snd |].
    intros [i v] Hin Hi. simpl in Hi. apply enumerate_index in Hin.
    destruct (Hout i Hi); lia. }
  cbv zeta. change (⋃ (@nil (gset label))) with (∅ : gset label).
  rewrite (right_absorb_L ∅ (∩)).
  assert ((∅ : gset label) ∖ ∅ = ∅) as -> by set_solver. done.
Qed.

(** X8: the positions are used as a set: two position lists with the same
    members, in any order and with any repetition, give the same result (so
    the reversed, sorted list built by [contract] selects what the search
    selected). *)
Theorem find_contraction_positions_set (positions1 positions2 : list Z)
    (input_sets : list (gset label)) (output_set : gset label) :
  (forall x, x ∈ positions1 <-> x ∈ positions2) ->
  _find_contraction positions1 input_sets output_set =
  _find_contraction positions2 input_sets output_set.
Proof.
  intros Hiff. rewrite !find_contraction_unfold. unfold selected, not_selected.
  rewrite (list_filter_iff (fun iv : Z * gset label => iv.1 ∈ positions1)
                           (fun iv => iv.1 ∈ positions2)) by (intros; apply Hiff).
  rewrite (list_filter_iff (fun iv : Z * gset label => iv.1 ∉ positions1)
                           (fun iv => iv.1 ∉ positions2)); [done |].
  intros iv. by rewrite Hiff.
Qed.

Lemma enumerate_fst {A : Type} (l : list A) : (enumerate l).*1 = range (length l).
Proof.
  unfold enumerate, range.
  assert (forall k, (imap (fun i (x : A) => (Z.of_nat (k + i), x)) l).*1
                    = map Z.of_nat (seq k (length l))) as H.
  { induction l as [|x l IH]; intros k; [done |].
    rewrite imap_cons. simpl. f_equal; [f_equal; lia |].
    rewrite <- IH. f_equal. apply imap_ext. intros i y _. simpl. do 2 f_equal. lia. }
  apply (H 0%nat).
Qed.

Lemma range_elem_of (n : nat) (x : Z) : x ∈ range n <-> 0 <= x < Z.of_nat n.
Proof.
  unfold range. rewrite list_elem_of_fmap. split.
  - intros (k & -> & Hk). apply list_elem_of_In, in_seq in Hk. lia.
  - intros Hx. exists (Z.to_nat x). split; [lia |].
    apply list_elem_of_In, in_seq. lia.
Qed.

Lemma filter_fst_length {A : Type} (g : list Z) (ivs : list (Z * A)) :
  length (filter (fun iv => iv.1 ∈ g) ivs) = length (filter (fun i => i ∈ g) ivs.*1).
Proof.
  induction ivs as [|[i v] ivs IH]; [done |]. rewrite fmap_cons. simpl fst.
  destruct (decide (i ∈ g)) as [HP|HP].
  - rewrite !filter_cons_True by done. simpl. by rewrite IH.
  - by rewrite !filter_cons_False by done.
Qed.

(** X9: a step over [k] distinct positions of the sequence shortens it by
    [k - 1]: the [k] descriptors go and the result is appended. *)
Theorem find_contraction_length (positions : list Z)
    (input_sets : list (gset label)) (output_set : gset label) :
  NoDup positions ->
  (forall x, x ∈ positions -> 0 <= x < Z.of_nat (length input_sets)) ->
  (length (remaining (_find_contraction positions input_sets output_set))
   + length positions = S (length input_sets))%nat.
Proof.
  intros Hnd Hrange. rewrite find_contraction_unfold. simpl.
  rewrite length_app. simpl.
  pose proof (selected_length positions input_sets) as Hlen.
  assert (length (selected positions input_sets) = length positions) as Hsel.
  { unfold selected. rewrite length_fmap.
    rewrite filter_fst_length, enumerate_fst.
    apply Permutation_length, NoDup_Permutation; [| done |].
    - apply NoDup_filter. unfold range.
      apply NoDup_fmap_2; [apply _ | apply NoDup_seq].
    - intros x. rewrite list_elem_of_filter, range_elem_of. naive_solver. }
  lia.
Qed.

(** ** The two searches *)

(** X10: on fewer than two operands [_path_optimal] raises: its loop never
    runs, so [new] is read before it is bound. *)
Theorem path_optimal_too_few (input_sets : list (gset label))
    (output_set : gset label) (ind_dict : gmap label Z) (memory : Z) :
  (length input_sets <= 1)%nat ->
  _path_optimal input_sets output_set ind_dict memory = Raise UnboundLocalError.
Proof.
  intros Hlen. destruct input_sets as [|a [|b l]]; [done | done |].
  simpl in Hlen. lia.
Qed.

(** X11: on fewer than two operands [_path_opportunistic] returns the empty
    path, whatever the dictionary holds. *)
Theorem path_opportunistic_too_few (input_sets : list (gset label))
    (output_set : gset label) (ind_dict : gmap label Z) (memory : Z) :
  (length input_sets <= 1)%nat ->
  _path_opportunistic input_sets output_set ind_dict memory = Ok [].
Proof.
  intros Hlen. destruct input_sets as [|a [|b l]]; [done | done |].
  simpl in Hlen. lia.
Qed.

Lemma is_pair_two (g : list Z) : is_pair 2 g -> g = [0; 1].
Proof. intros (i & j & -> & Hij & Hj). f_equal; [lia | f_equal; lia]. Qed.

(** X12: on two operands both searches return the single step [(0, 1)],
    whatever the memory limit: as the only pair when it is feasible, as the
    fallback when it is not. *)
Theorem two_operands_one_step (input_sets : list (gset label))
    (output_set : gset label) (ind_dict : gmap label Z) (memory : Z) :
  covers ind_dict input_sets ->
  length input_sets = 2%nat ->
  _path_optimal input_sets output_set ind_dict memory = Ok [[0; 1]] /\
  _path_opportunistic input_sets output_set ind_dict memory = Ok [[0; 1]].
Proof.
  intros Hcov Hlen.
  assert (fallback input_sets = [0; 1]) as Hfb by (unfold fallback; by rewrite Hlen).
  split.
  - destruct (path_optimal_result output_set ind_dict memory input_sets Hcov)
      as [[_ ->]|(p & -> & Hcp & Hfp & _)]; [lia | by rewrite Hfb |].
    unfold complete in Hcp. rewrite Hlen in Hcp.
    destruct p as [|g [|]]; try done. destruct Hfp as [[Hpair _] _].
    rewrite Hlen in Hpair. by rewrite (is_pair_two g Hpair).
  - unfold _path_opportunistic.
    destruct (opportunistic_loop_spec output_set ind_dict memory
                (seq 0 (length input_sets - 1)) [] input_sets Hcov)
      as (q & Hq & Hres).
    rewrite length_seq in Hres.
    destruct Hres as [[Hl ->]|(Hl & _ & ->)].
    + rewrite Hlen in Hl. destruct q as [|g [|]]; try done.
      destruct Hq as [[[Hpair _] _] _].
      rewrite Hlen in Hpair. by rewrite (is_pair_two g Hpair).
    + rewrite Hlen in Hl. destruct q; [| simpl in Hl; lia]. simpl. by rewrite Hfb.
Qed.

(** X13: on at least two operands each search returns a path that can be
    applied as it stands: it is not empty, has at most one step less than
    there are operands, every step is a pair of positions of the sequence
    current at that step or the whole of it, and after the last step one
    descriptor is left. *)
Theorem search_paths_reduce_to_one
    (search : list (gset label) -> gset label -> gmap label Z -> Z ->
              result (list (list Z)))
    (input_sets : list (gset label)) (output_set : gset label)
    (ind_dict : gmap label Z) (memory : Z) :
  search = _path_optimal \/ search = _path_opportunistic ->
  covers ind_dict input_sets ->
  (2 <= length input_sets)%nat ->
  exists p, search input_sets output_set ind_dict memory = Ok p /\
    (1 <= length p <= length input_sets - 1)%nat /\
    each_step output_set
      (fun ops g => is_pair (length ops) g \/ g = range (length ops)) p input_sets /\
    length (replay output_set p input_sets) = 1%nat.
Proof.
  intros [-> | ->] Hcov Hlen.
  - destruct (path_optimal_groups output_set ind_dict memory input_sets Hcov Hlen)
      as (p & Hp & Hgroups & Hne & Hone).
    exists p. split; [done |]. split; [| done].
    destruct (path_optimal_result output_set ind_dict memory input_sets Hcov Hlen)
      as [[_ Hp']|(p' & Hp' & Hcp & _)]; rewrite Hp in Hp'; injection Hp' as ->.
    + simpl. lia.
    + unfold complete in Hcp. lia.
  - destruct (path_opportunistic_groups output_set ind_dict memory input_sets
                Hcov Hlen) as (p & Hp & Hgroups & Hne & Hone).
    exists p. split; [done |]. split; [| done].
    unfold _path_opportunistic in Hp.
    destruct (opportunistic_loop_spec output_set ind_dict memory
                (seq 0 (length input_sets - 1)) [] input_sets Hcov)
      as (q & _ & Hres).
    rewrite length_seq, Hp in Hres. simpl in Hres.
    destruct Hres as [[Hl [= ->]]|(Hl & _ & [= ->])].
    + lia.
    + rewrite length_app. simpl. lia.
Qed.

Lemma feasible_path_memory_mono (output : gset label) (sizes : gmap label Z)
    (m m' : Z) (p : list (list Z)) (operands : list (gset label)) :
  m <= m' -> feasible_path output sizes m p operands ->
  feasible_path output sizes m' p operands.
Proof.
  intros Hm. apply each_step_impl. intros ops g [Hpair Hw]. split; [done |].
  unfold within_memory in *. lia.
Qed.

(** X14: raising the memory limit never makes the plan of the optimal search
    more expensive: when it returns a feasible complete path for a limit, it
    returns for any larger limit a feasible complete path of at most the same
    cumulative cost. *)
Theorem path_optimal_memory_monotone (input_sets : list (gset label))
    (output_set : gset label) (ind_dict : gmap label Z) (memory memory' : Z)
    (p : list (list Z)) :
  covers ind_dict input_sets ->
  (2 <= length input_sets)%nat ->
  memory <= memory' ->
  _path_optimal input_sets output_set ind_dict memory = Ok p ->
  complete p input_sets ->
  feasible_path output_set ind_dict memory p input_sets ->
  exists p',
    _path_optimal input_sets output_set ind_dict memory' = Ok p' /\
    complete p' input_sets /\
    feasible_path output_set ind_dict memory' p' input_sets /\
    path_cost output_set ind_dict p' input_sets
    <= path_cost output_set ind_dict p input_sets.
Proof.
  intros Hcov Hlen Hm _ Hcp Hfp.
  apply (feasible_path_memory_mono _ _ _ _ _ _ Hm) in Hfp.
  destruct (path_optimal_result output_set ind_dict memory' input_sets Hcov Hlen)
    as [[Hnone _]|(p' & Hp' & Hcp' & Hfp' & Hmin)].
  - by destruct (Hnone p).
  - exists p'. split; [done |]. split; [done |]. split; [done |].
    specialize (Hmin p Hcp Hfp). unfold cost_path_lt in Hmin. simpl in Hmin. lia.
Qed.

(** X15: the optimal search is never beaten by the opportunistic one: when
    the opportunistic search returns a path of feasible pairs (it did not fall
    back), the optimal search with the same limit returns a feasible complete
    path of at most the same cumulative cost. *)
Theorem optimal_no_worse_than_opportunistic (input_sets : list (gset label))
    (output_set : gset label) (ind_dict : gmap label Z) (memory : Z)
    (q : list (list Z)) :
  covers ind_dict input_sets ->
  (2 <= length input_sets)%nat ->
  _path_opportunistic input_sets output_set ind_dict memory = Ok q ->
  feasible_path output_set ind_dict memory q input_sets ->
  exists p,
    _path_optimal input_sets output_set ind_dict memory = Ok p /\
    complete p input_sets /\
    feasible_path output_set ind_dict memory p input_sets /\
    path_cost output_set ind_dict p input_sets
    <= path_cost output_set ind_dict q input_sets.
Proof.
  intros Hcov Hlen Hq Hfq.
  assert (complete q input_sets) as Hcq.
  { unfold _path_opportunistic in Hq.
    destruct (opportunistic_loop_spec output_set ind_dict memory
                (seq 0 (length input_sets - 1)) [] input_sets Hcov)
      as (q0 & _ & Hres).
    rewrite length_seq, Hq in Hres. simpl in Hres.
    destruct Hres as [[Hl [= ->]]|(_ & Hnone & [= ->])]; [done |].
    apply each_step_app in Hfq as [_ [Hfb _]]. by destruct (Hnone _ Hfb). }
  destruct (path_optimal_result output_set ind_dict memory input_sets Hcov Hlen)
    as [[Hnone _]|(p & Hp & Hcp & Hfp & Hmin)].
  - by destruct (Hnone q).
  - exists p. split; [done |]. split; [done |]. split; [done |].
    specialize (Hmin q Hcq Hfq). unfold cost_path_lt in Hmin. simpl in Hmin. lia.
Qed.

(** X16: on at least three operands [_path_optimal] returns the fallback
    step exactly when no complete feasible pairwise path exists. *)
Theorem path_optimal_fallback_iff (input_sets : list (gset label))
    (output_set : gset label) (ind_dict : gmap label Z) (memory : Z) :
  covers ind_dict input_sets ->
  (3 <= length input_sets)%nat ->
  _path_optimal input_sets output_set ind_dict memory = Ok [fallback input_sets] <->
  (forall q, complete q input_sets ->
             ~ feasible_path output_set ind_dict memory q input_sets).
Proof.
  intros Hcov Hlen.
  destruct (path_optimal_result output_set ind_dict memory input_sets Hcov)
    as [[Hnone Hp]|(p & Hp & Hcp & Hfp & _)]; [lia | |]; rewrite Hp.
  - done.
  - split.
    + intros [= ->]. unfold complete in Hcp. simpl in Hcp. lia.
    + intros Hnone. by destruct (Hnone p).
Qed.

(** ** The dimension dictionary of [contract] *)

Lemma string_length_list (s : string) :
  String.length s = length (list_ascii_of_string s).
Proof. induction s as [|c s IH]; simpl; [done | by rewrite IH]. Qed.

Lemma elem_of_enumerate {A : Type} (l : list A) (i : Z) (x : A) :
  (i, x) ∈ enumerate l <-> 0 <= i /\ l !! Z.to_nat i = Some x.
Proof.
  unfold enumerate. rewrite list_elem_of_lookup. split.
  - intros [k Hk]. rewrite list_lookup_imap in Hk.
    destruct (l !! k) eqn:E; simplify_eq/=. split; [lia |].
    by rewrite Nat2Z.id.
  - intros [Hi Hx]. exists (Z.to_nat i). rewrite list_lookup_imap, Hx. simpl.
    do 2 f_equal. lia.
Qed.

Lemma list_getitem_in_range {A : Type} (l : list A) (x : Z) (a : A) :
  0 <= x -> l !! Z.to_nat x = Some a -> list_getitem l x = Ok a.
Proof.
  intros Hx Ha. unfold list_getitem.
  rewrite py_index_in_range; [by rewrite bind_Ok, Ha |].
  apply lookup_lt_Some in Ha. lia.
Qed.

(** One label of one term: a new label is entered with the extent of its
    axis, a known label must have that extent. *)
Lemma dimension_body_cases (sh : shape) (d : gmap label Z) (cnum : Z)
    (char : ascii) (dim : N) :
  0 <= cnum -> sh !! Z.to_nat cnum = Some dim ->
  dimension_body sh d (cnum, char) =
  match d !! char with
  | None => Ok (<[char := Z.of_N dim]> d)
  | Some known => if decide (known = Z.of_N dim) then Ok d else Raise ValueError
  end.
Proof.
  intros Hc Hdim. unfold dimension_body.
  rewrite (list_getitem_in_range _ _ _ Hc Hdim), bind_Ok.
  destruct (d !! char) as [known|] eqn:E.
  - rewrite bool_decide_eq_true_2 by (apply elem_of_dom; eauto).
    rewrite (getitem_Some _ _ _ E), bind_Ok.
    case_decide as Hk; [by rewrite (proj2 (Z.eqb_eq _ _) Hk) |].
    by rewrite (proj2 (Z.eqb_neq _ _) Hk).
  - by rewrite bool_decide_eq_false_2 by (by apply not_elem_of_dom).
Qed.

Section DimensionLoop.
Variable sh : shape.

#[local] Abbreviation fits d :=
  (fun cc : Z * ascii =>
     exists dim, 0 <= cc.1 /\ sh !! Z.to_nat cc.1 = Some dim /\
                 d !! cc.2 = Some (Z.of_N dim)).

Lemma dimension_loop_Ok (ccs : list (Z * ascii)) (d d' : gmap label Z) :
  Forall (fun cc => 0 <= cc.1 /\ is_Some (sh !! Z.to_nat cc.1)) ccs ->
  for_each (dimension_body sh) ccs d = Ok d' ->
  d ⊆ d' /\ Forall (fits d') ccs.
Proof.
  revert d. induction ccs as [|[cnum char] ccs IH]; intros d Hr H.
  - injection H as <-. split; [done | constructor].
  - apply Forall_cons in Hr as [[Hc [dim Hdim]] Hr]. simpl in Hc, Hdim.
    rewrite for_each_cons, (dimension_body_cases _ _ _ _ _ Hc Hdim) in H.
    destruct (d !! char) as [known|] eqn:E.
    + case_decide as Hk; [| done]. subst known. rewrite bind_Ok in H.
      apply IH in H as [Hsub Hall]; [| done]. split; [done |].
      constructor; [| done]. exists dim. simpl.
      split; [done |]. split; [done |]. by eapply lookup_weaken.
    + rewrite bind_Ok in H. apply IH in H as [Hsub Hall]; [| done]. split.
      * etrans; [by apply insert_subseteq | done].
      * constructor; [| done]. exists dim. simpl. split; [done |]. split; [done |].
        eapply lookup_weaken; [| done]. apply lookup_insert_eq.
Qed.

Lemma dimension_loop_cases (ccs : list (Z * ascii)) (d : gmap label Z) :
  Forall (fun cc => 0 <= cc.1 /\ is_Some (sh !! Z.to_nat cc.1)) ccs ->
  (exists d', for_each (dimension_body sh) ccs d = Ok d') \/
  for_each (dimension_body sh) ccs d = Raise ValueError.
Proof.
  revert d. induction ccs as [|[cnum char] ccs IH]; intros d Hr.
  - left. by eexists.
  - apply Forall_cons in Hr as [[Hc [dim Hdim]] Hr]. simpl in Hc, Hdim.
    rewrite for_each_cons, (dimension_body_cases _ _ _ _ _ Hc Hdim).
    destruct (d !! char) as [known|] eqn:E; [case_decide; [| by right] |];
      rewrite bind_Ok; by apply IH.
Qed.

Lemma dimension_loop_complete (ccs : list (Z * ascii)) (d d0 : gmap label Z) :
  d ⊆ d0 -> Forall (fits d0) ccs ->
  exists d', for_each (dimension_body sh) ccs d = Ok d' /\ d' ⊆ d0.
Proof.
  revert d. induction ccs as [|[cnum char] ccs IH]; intros d Hsub Hall.
  - by exists d.
  - apply Forall_cons in Hall as [(dim & Hc & Hdim & Hd0) Hall].
    simpl in Hc, Hdim, Hd0.
    rewrite for_each_cons, (dimension_body_cases _ _ _ _ _ Hc Hdim).
    destruct (d !! char) as [known|] eqn:E.
    + pose proof (lookup_weaken _ _ _ _ E Hsub) as E0.
      rewrite decide_True by congruence. rewrite bind_Ok. by apply IH.
    + rewrite bind_Ok. apply IH; [| done]. by apply insert_subseteq_l.
Qed.

End DimensionLoop.

Lemma fits_agrees (sh : shape) (d : gmap label Z) (term : string) :
  length sh = String.length term ->
  Forall (fun cc : Z * ascii =>
            exists dim, 0 <= cc.1 /\ sh !! Z.to_nat cc.1 = Some dim /\
                        d !! cc.2 = Some (Z.of_N dim))
         (enumerate (list_ascii_of_string term)) ->
  agrees d term sh.
Proof.
  intros Hlen Hall. unfold agrees. apply Forall2_same_length_lookup.
  split; [by rewrite <- string_length_list |].
  intros i c dim Hc Hdim. rewrite Forall_forall in Hall.
  destruct (Hall (Z.of_nat i, c)) as (dim' & _ & Hdim' & Hd).
  { apply elem_of_enumerate. rewrite Nat2Z.id. split; [lia | done]. }
  cbn [fst snd] in *. rewrite Nat2Z.id in Hdim'.
  unfold shape in *. by simplify_eq.
Qed.

Lemma agrees_fits (sh : shape) (d : gmap label Z) (term : string) :
  agrees d term sh ->
  length sh = String.length term /\
  Forall (fun cc : Z * ascii =>
            exists dim, 0 <= cc.1 /\ sh !! Z.to_nat cc.1 = Some dim /\
                        d !! cc.2 = Some (Z.of_N dim))
         (enumerate (list_ascii_of_string term)).
Proof.
  unfold agrees. intros Hag. pose proof (Forall2_length _ _ _ Hag) as Hlen.
  split; [by rewrite string_length_list |].
  apply Forall_forall. intros [i c] Hin. apply elem_of_enumerate in Hin as [Hi Hc].
  destruct (Forall2_lookup_l _ _ _ _ _ Hag Hc) as (dim & Hdim & Hd).
  exists dim. simpl. by repeat split.
Qed.

Lemma agrees_weaken (d d' : gmap label Z) (term : string) (sh : shape) :
  d ⊆ d' -> agrees d term sh -> agrees d' term sh.
Proof.
  intros Hsub. unfold agrees. intros Hag.
  eapply Forall2_impl; [apply Hag |]. intros c dim Hc. simpl in *.
  exact (lookup_weaken _ _ _ _ Hc Hsub).
Qed.

Section DimensionTerms.
Variable operands : list shape.

Lemma dimension_term_cases (d : gmap label Z) (tnum : Z) (term : string) (sh : shape) :
  0 <= tnum -> operands !! Z.to_nat tnum = Some sh ->
  dimension_term operands d (tnum, term) =
  if decide (length sh = String.length term)
  then for_each (dimension_body sh) (enumerate (list_ascii_of_string term)) d
  else Raise ValueError.
Proof.
  intros Ht Hsh. unfold dimension_term.
  rewrite (list_getitem_in_range _ _ _ Ht Hsh), bind_Ok.
  case_decide as Hl; [by rewrite (proj2 (Nat.eqb_eq _ _) Hl) |].
  by rewrite (proj2 (Nat.eqb_neq _ _) Hl).
Qed.

Lemma enumerate_in_shape (sh : shape) (term : string) :
  length sh = String.length term ->
  Forall (fun cc : Z * ascii => 0 <= cc.1 /\ is_Some (sh !! Z.to_nat cc.1))
         (enumerate (list_ascii_of_string term)).
Proof.
  intros Hlen. apply Forall_forall. intros [i c] Hin.
  apply enumerate_index in Hin. simpl. split; [lia |].
  apply lookup_lt_is_Some. rewrite Hlen, string_length_list. lia.
Qed.

#[local] Abbreviation term_fits d :=
  (fun tt : Z * string =>
     exists sh, operands !! Z.to_nat tt.1 = Some sh /\ agrees d tt.2 sh).

Lemma dimension_terms_Ok (tts : list (Z * string)) (d d' : gmap label Z) :
  Forall (fun tt => 0 <= tt.1 /\ is_Some (operands !! Z.to_nat tt.1)) tts ->
  for_each (dimension_term operands) tts d = Ok d' ->
  d ⊆ d' /\ Forall (term_fits d') tts.
Proof.
  revert d. induction tts as [|[tnum term] tts IH]; intros d Hr H.
  - injection H as <-. split; [done | constructor].
  - apply Forall_cons in Hr as [[Ht [sh Hsh]] Hr]. simpl in Ht, Hsh.
    rewrite for_each_cons, (dimension_term_cases _ _ _ _ Ht Hsh) in H.
    case_decide as Hl; [| done].
    apply bind_Ok_inv in H as (d1 & H1 & H).
    apply dimension_loop_Ok in H1 as [Hsub1 Hall1];
      [| by apply enumerate_in_shape].
    apply IH in H as [Hsub Hall]; [| done]. split; [by etrans |].
    constructor; [| done]. exists sh. split; [done |]. simpl.
    eapply agrees_weaken; [done |]. by apply fits_agrees.
Qed.

Lemma dimension_terms_cases (tts : list (Z * string)) (d : gmap label Z) :
  Forall (fun tt => 0 <= tt.1 /\ is_Some (operands !! Z.to_nat tt.1)) tts ->
  (exists d', for_each (dimension_term operands) tts d = Ok d') \/
  for_each (dimension_term operands) tts d = Raise ValueError.
Proof.
  revert d. induction tts as [|[tnum term] tts IH]; intros d Hr.
  - left. by eexists.
  - apply Forall_cons in Hr as [[Ht [sh Hsh]] Hr]. simpl in Ht, Hsh.
    rewrite for_each_cons, (dimension_term_cases _ _ _ _ Ht Hsh).
    case_decide as Hl; [| by right].
    destruct (dimension_loop_cases sh (enumerate (list_ascii_of_string term)) d)
      as [[d1 ->]| ->]; [by apply enumerate_in_shape | | by right].
    rewrite bind_Ok. by apply IH.
Qed.

Lemma dimension_terms_complete (tts : list (Z * string)) (d d0 : gmap label Z) :
  d ⊆ d0 ->
  Forall (fun tt => 0 <= tt.1) tts -> Forall (term_fits d0) tts ->
  exists d', for_each (dimension_term operands) tts d = Ok d' /\ d' ⊆ d0.
Proof.
  revert d. induction tts as [|[tnum term] tts IH]; intros d Hsub Hpos Hall.
  - by exists d.
  - apply Forall_cons in Hall as [(sh & Hsh & Hag) Hall].
    apply Forall_cons in Hpos as [Ht Hpos]. simpl in Ht, Hsh, Hag.
    rewrite for_each_cons, (dimension_term_cases _ _ _ _ Ht Hsh).
    apply agrees_fits in Hag as [Hl Hfits]. rewrite decide_True by done.
    destruct (dimension_loop_complete sh _ d d0 Hsub Hfits) as (d1 & -> & Hsub1).
    rewrite bind_Ok. by apply IH.
Qed.

End DimensionTerms.

Lemma enumerate_in_operands (input_list : list string) (operands : list shape) :
  length input_list = length operands ->
  Forall (fun tt : Z * string => 0 <= tt.1 /\ is_Some (operands !! Z.to_nat tt.1))
         (enumerate input_list).
Proof.
  intros Hlen. apply Forall_forall. intros [i t] Hin.
  apply enumerate_index in Hin. simpl. split; [lia |].
  apply lookup_lt_is_Some. lia.
Qed.

Lemma build_dimension_dict_agrees (input_list : list string)
    (operands : list shape) (d : gmap label Z) :
  length input_list = length operands ->
  build_dimension_dict input_list operands = Ok d ->
  Forall2 (agrees d) input_list operands.
Proof.
  intros Hlen H. unfold build_dimension_dict in H.
  apply dimension_terms_Ok in H as [_ Hall]; [| by apply enumerate_in_operands].
  apply Forall2_same_length_lookup. split; [done |].
  intros i term sh Hterm Hsh. rewrite Forall_forall in Hall.
  destruct (Hall (Z.of_nat i, term)) as (sh' & Hsh' & Hag).
  { apply elem_of_enumerate. rewrite Nat2Z.id. split; [lia | done]. }
  cbn [fst snd] in *. rewrite Nat2Z.id in Hsh'. by simplify_eq.
Qed.

(** X17: when [contract] has built its dimension dictionary, the dictionary
    agrees with every operand: each term has as many labels as its operand
    has axes, and each label is mapped to the extent of every axis it names. *)
Theorem dimension_dict_agrees (input_list : list string) (operands : list shape)
    (dimension_dict : gmap label Z) :
  length input_list = length operands ->
  build_dimension_dict input_list operands = Ok dimension_dict ->
  forall i term sh, input_list !! i = Some term -> operands !! i = Some sh ->
    length sh = String.length term /\
    forall k c dim, list_ascii_of_string term !! k = Some c -> sh !! k = Some dim ->
      dimension_dict !! c = Some (Z.of_N dim).
Proof.
  intros Hlen H i term sh Hterm Hsh.
  pose proof (build_dimension_dict_agrees _ _ _ Hlen H) as Hall.
  pose proof (Forall2_lookup_lr _ _ _ _ _ _ Hall Hterm Hsh) as Hag.
  unfold agrees in Hag. apply Forall2_same_length_lookup in Hag as [Hl Hag].
  split; [by rewrite string_length_list | done].
Qed.

Lemma agrees_size (d : gmap label Z) (term : string) (sh : shape) :
  agrees d term sh ->
  _compute_size_by_dict (list_ascii_of_string term) d = Ok (element_count sh).
Proof.
  unfold agrees. intros Hag.
  destruct (compute_size_by_dict_cases (list_ascii_of_string term) d)
    as [[_ ->]|[Hnot _]].
  - f_equal. unfold size_product, element_count.
    induction Hag as [|c dim cs dims Hc Hag IH]; [done |].
    cbv beta in Hc. rewrite !fmap_cons, !foldr_cons, IH. f_equal.
    unfold label in *. by rewrite Hc.
  - destruct Hnot. apply Forall_forall. intros c Hc.
    apply list_elem_of_lookup in Hc as [k Hk].
    destruct (Forall2_lookup_l _ _ _ _ _ Hag Hk) as (dim & _ & Hd).
    apply elem_of_dom. eauto.
Qed.

(** X18: the size [contract] computes for an input term is the number of
    elements of its operand, the product of the extents of its axes. *)
Theorem term_size_is_element_count (input_list : list string)
    (operands : list shape) (dimension_dict : gmap label Z) :
  length input_list = length operands ->
  build_dimension_dict input_list operands = Ok dimension_dict ->
  forall i term sh, input_list !! i = Some term -> operands !! i = Some sh ->
    _compute_size_by_dict (list_ascii_of_string term) dimension_dict
    = Ok (element_count sh).
Proof.
  intros Hlen H i term sh Hterm Hsh. apply agrees_size.
  pose proof (build_dimension_dict_agrees _ _ _ Hlen H) as Hall.
  by apply (Forall2_lookup_lr _ _ _ _ _ _ Hall Hterm Hsh).
Qed.

Lemma build_dimension_dict_cases (input_list : list string) (operands : list shape) :
  length input_list = length operands ->
  (shapes_consistent input_list operands /\
   exists d, build_dimension_dict input_list operands = Ok d) \/
  (~ shapes_consistent input_list operands /\
   build_dimension_dict input_list operands = Raise ValueError).
Proof.
  intros Hlen.
  assert (shapes_consistent input_list operands ->
          exists d, build_dimension_dict input_list operands = Ok d) as Hcomplete.
  { intros [d0 Hd0]. unfold build_dimension_dict.
    destruct (dimension_terms_complete operands (enumerate input_list) ∅ d0)
      as (d & Hd & _); [apply map_empty_subseteq | | | by eauto].
    - apply Forall_forall. intros [i t] Hin. apply enumerate_index in Hin.
      simpl. lia.
    - apply Forall_forall. intros [i t] Hin. apply elem_of_enumerate in Hin as [Hi Ht].
      destruct (Forall2_lookup_l _ _ _ _ _ Hd0 Ht) as (sh & Hsh & Hag).
      by exists sh. }
  destruct (dimension_terms_cases operands (enumerate input_list) ∅)
    as [[d Hd]|Herr]; [by apply enumerate_in_operands | left | right].
  - split; [| by exists d]. exists d. by apply build_dimension_dict_agrees.
  - split; [| done]. intros Hcons. destruct (Hcomplete Hcons) as [d Hd].
    unfold build_dimension_dict in Hd. congruence.
Qed.

(** X19: once the number of terms equals the number of operands, the
    dimension dictionary is built exactly when the shapes are consistent
    with the terms (some assignment of sizes to labels fits every operand);
    otherwise the call raises [ValueError], and no other exception. *)
Theorem dimension_dict_built_iff_consistent (input_list : list string)
    (operands : list shape) :
  length input_list = length operands ->
  (shapes_consistent input_list operands /\
   exists d, build_dimension_dict input_list operands = Ok d) \/
  (~ shapes_consistent input_list operands /\
   build_dimension_dict input_list operands = Raise ValueError).
Proof. apply build_dimension_dict_cases. Qed.

(** ** [contract] as a whole *)

Lemma covered_set_of_str (term : string) (d : gmap label Z) :
  Forall (fun l => l ∈ dom d) (list_ascii_of_string term) <-> set_of_str term ⊆ dom d.
Proof.
  unfold set_of_str. rewrite Forall_forall. split.
  - intros H l Hl. apply elem_of_list_to_set in Hl. by apply H.
  - intros H l Hl. apply H. by apply elem_of_list_to_set.
Qed.

Lemma size_list_loop_cases (d : gmap label Z) (terms : list string) (acc : list Z) :
  (Forall (fun term => set_of_str term ⊆ dom d) terms /\
   exists sl, for_each (size_list_body d) terms acc = Ok sl) \/
  (~ Forall (fun term => set_of_str term ⊆ dom d) terms /\
   for_each (size_list_body d) terms acc = Raise KeyError).
Proof.
  revert acc. induction terms as [|term terms IH]; intros acc.
  - left. split; [constructor | by eexists].
  - rewrite for_each_cons.
    change (size_list_body d acc term)
      with (_compute_size_by_dict (list_ascii_of_string term) d
            ≫= fun sz => Ok (acc ++ [sz])).
    destruct (compute_size_by_dict_cases (list_ascii_of_string term) d)
      as [[Hall ->]|[Hall ->]].
    + rewrite !bind_Ok. apply covered_set_of_str in Hall.
      destruct (IH (acc ++ [size_product d (list_ascii_of_string term)]))
        as [[Hts Hsl]|[Hts Herr]].
      * left. split; [by constructor | done].
      * right. split; [| done]. intros Hc. by apply Forall_cons in Hc as [_ Hc].
    + right. split; [| done]. intros Hc. apply Forall_cons in Hc as [Hc _].
      by apply covered_set_of_str in Hc.
Qed.

Lemma contract_of_plan (input_list : list string) (output_subscript : string)
    (operands : list shape) (kw : kwargs) :
  match contract_plan input_list output_subscript operands kw with
  | Ok _ => exists o, contract input_list output_subscript operands kw = Ok o
  | Raise e => contract input_list output_subscript operands kw = Raise e
  end.
Proof.
  unfold contract.
  destruct (contract_plan input_list output_subscript operands kw) as [pl|e]; [| done].
  rewrite bind_Ok. cbv zeta. destruct (default false (kw_return_path kw)); by eexists.
Qed.

(** The checks [contract] makes before it computes a path. *)
Lemma contract_plan_prelude (input_list : list string) (output_subscript : string)
    (operands : list shape) (kw : kwargs) :
  (~ shapes_consistent input_list operands /\
   contract_plan input_list output_subscript operands kw = Raise ValueError) \/
  (shapes_consistent input_list operands /\
   ~ output_in_inputs input_list output_subscript /\
   contract_plan input_list output_subscript operands kw = Raise KeyError) \/
  (shapes_consistent input_list operands /\
   output_in_inputs input_list output_subscript /\
   exists d out_size,
     build_dimension_dict input_list operands = Ok d /\
     covers d (set_of_str <$> input_list) /\
     contract_plan input_list output_subscript operands kw =
     (path ← compute_path (default (PathName "opportunistic") (kw_path kw)) input_list
              (set_of_str <$> input_list) (set_of_str output_subscript) d
              (default out_size (kw_memory kw)) out_size;
      st ← build_contraction_list path input_list (set_of_str <$> input_list)
             output_subscript (set_of_str output_subscript) d;
      Ok (Plan path st))).
Proof.
  destruct (decide (length input_list = length operands)) as [Hlen|Hlen].
  2: { left. split.
       - intros [d Hd]. by apply Forall2_length in Hd.
       - unfold contract_plan. by rewrite (proj2 (Nat.eqb_neq _ _) Hlen). }
  destruct (build_dimension_dict_cases input_list operands Hlen)
    as [[Hcons [d Hd]]|[Hcons Hd]].
  2: { left. split; [done |]. unfold contract_plan.
       rewrite Hlen, Nat.eqb_refl. simpl negb. cbv iota zeta. by rewrite Hd. }
  right.
  pose proof (build_dimension_dict_dom _ _ _ Hd) as Hdom.
  destruct (size_list_loop_cases d (input_list ++ [output_subscript]) [])
    as [[Hall [sl Hsl]]|[Hall Hsl]].
  - right. destruct (prelude_facts _ _ _ _ _ Hd Hsl) as (Hcov & Hout & out_size & Hmax & _).
    split; [done |]. split; [done |]. exists d, out_size.
    split; [done |]. split; [done |].
    by apply contract_plan_checked with (size_list := sl).
  - left. split; [done |]. split.
    + intros Hout. apply Hall. apply Forall_app. split.
      * apply Forall_forall. intros t Ht. rewrite Hdom. intros l Hl.
        apply elem_of_union_list. exists (set_of_str t). split; [| done].
        apply list_elem_of_fmap. eauto.
      * constructor; [| constructor]. by rewrite Hdom.
    + unfold contract_plan. rewrite Hlen, Nat.eqb_refl. simpl negb. cbv iota zeta.
      rewrite Hd, bind_Ok. unfold compute_size_list. by rewrite Hsl.
Qed.

Lemma named_path_builds (input_list : list string) (output_subscript : string)
    (d : gmap label Z) (name : string) (memory_arg out_size : Z) :
  (2 <= length input_list)%nat ->
  covers d (set_of_str <$> input_list) ->
  output_in_inputs input_list output_subscript ->
  length input_list = 2%nat \/ known_strategy name ->
  exists path st,
    compute_path (PathName name) input_list (set_of_str <$> input_list)
      (set_of_str output_subscript) d memory_arg out_size = Ok path /\
    build_contraction_list path input_list (set_of_str <$> input_list)
      output_subscript (set_of_str output_subscript) d = Ok st /\
    bs_input_list st = [output_subscript].
Proof.
  intros Hn Hcov Hout Hname.
  assert (2 <= length (set_of_str <$> input_list))%nat as Hn'
    by (by rewrite length_fmap).
  assert (forall p,
    each_step (set_of_str output_subscript)
      (fun ops g => search_group (length ops) g) p (set_of_str <$> input_list) ->
    p <> [] ->
    length (replay (set_of_str output_subscript) p (set_of_str <$> input_list)) = 1%nat ->
    exists st,
      build_contraction_list (map GTuple p) input_list (set_of_str <$> input_list)
        output_subscript (set_of_str output_subscript) d = Ok st /\
      bs_input_list st = [output_subscript]) as Hbuild.
  { intros p Hgroups Hne Hone.
    destruct (build_search_path input_list output_subscript d p
                Hcov Hout Hgroups Hne Hone) as (st & Hst & _ & Hil & _).
    by exists st. }
  destruct (decide (length input_list = 2%nat)) as [H2|H2].
  - assert (search_group (length (set_of_str <$> input_list)) [0; 1]) as Hg.
    { left. rewrite length_fmap, H2. exists 0, 1. split; [done | lia]. }
    destruct (Hbuild [[0; 1]]) as (st & Hst & Hil); [done | done | |].
    + simpl. pose proof (after_group_length (set_of_str output_subscript) _ _ Hg) as Hl.
      rewrite length_fmap, H2 in Hl. simpl in Hl. lia.
    + exists [GTuple [0; 1]], st. split; [| done].
      unfold compute_path. by rewrite H2.
  - rewrite compute_path_named by lia.
    destruct Hname as [?|[-> | ->]]; [done | |]; simpl String.eqb; cbv iota.
    + destruct (path_opportunistic_groups (set_of_str output_subscript) d
                  (Z.min memory_arg out_size) _ Hcov Hn')
        as (p & Hp & Hgroups & Hne & Hone).
      destruct (Hbuild p Hgroups Hne Hone) as (st & Hst & Hil).
      exists (map GTuple p), st. by rewrite Hp, bind_Ok.
    + destruct (path_optimal_groups (set_of_str output_subscript) d
                  memory_arg _ Hcov Hn')
        as (p & Hp & Hgroups & Hne & Hone).
      destruct (Hbuild p Hgroups Hne Hone) as (st & Hst & Hil).
      exists (map GTuple p), st. by rewrite Hp, bind_Ok.
Qed.

Lemma unknown_path_raises (input_list : list string)
    (input_sets : list (gset label)) (output_set : gset label)
    (d : gmap label Z) (name : string) (memory_arg out_size : Z) :
  (3 <= length input_list)%nat -> ~ known_strategy name ->
  compute_path (PathName name) input_list input_sets output_set d memory_arg out_size
  = Raise KeyError.
Proof.
  intros Hn Hname. rewrite compute_path_named by done.
  destruct (String.eqb_spec name "opportunistic") as [->|Hopp];
    [destruct Hname; by left |].
  destruct (String.eqb_spec name "optimal") as [->|Hopt];
    [destruct Hname; by right | done].
Qed.

Lemma list_pop_same_length {A B : Type} (l : list A) (k : list B) (x : Z)
    (a : A) (l' : list A) :
  list_pop l x = Ok (a, l') -> length k = length l ->
  exists b k', list_pop k x = Ok (b, k') /\ length k' = length l'.
Proof.
  unfold list_pop. intros H Hlen. rewrite Hlen.
  apply bind_Ok_inv in H as (i & Hi & H). rewrite Hi, bind_Ok.
  destruct (l !! i) as [a'|] eqn:E; [| done]. injection H as <- <-.
  destruct (lookup_lt_is_Some_2 k i) as [b Hb].
  { rewrite Hlen. by eapply lookup_lt_Some. }
  rewrite Hb. exists b, (delete i k). split; [done |].
  rewrite !length_delete by eauto. by rewrite Hlen.
Qed.

Lemma pops_same_length {T : Type} (g : list Z) (tmp il tmp' il' : list string)
    (tmpo opso : list T) :
  for_each pop_body g (tmp, il) = Ok (tmp', il') ->
  length opso = length il ->
  exists tmpo' opso',
    for_each pop_operand g (tmpo, opso) = Ok (tmpo', opso') /\
    length opso' = length il'.
Proof.
  revert tmp il tmpo opso. induction g as [|x g IH]; intros tmp il tmpo opso H Hlen.
  - injection H as <- <-. by exists tmpo, opso.
  - rewrite for_each_cons in H. apply bind_Ok_inv in H as ([tmp1 il1] & Hpop & H).
    unfold pop_body in Hpop. apply bind_Ok_inv in Hpop as ([a l1] & Hpop & Heq).
    injection Heq as <- <-.
    destruct (list_pop_same_length _ opso _ _ _ Hpop Hlen) as (b & k' & Hpop' & Hlen').
    destruct (IH _ _ (tmpo ++ [b]) k' H Hlen') as (tmpo' & opso' & Hrun & Hl).
    exists tmpo', opso'. rewrite for_each_cons.
    change (pop_operand (tmpo, opso) x)
      with (popped ← list_pop opso x; Ok (tmpo ++ [popped.1], popped.2)).
    by rewrite Hpop', !bind_Ok.
Qed.

(** The contraction loop run on any operands, as many as there are terms:
    its own steps never fail, so that it ends normally unless [np.einsum]
    raises, and then with that exception. *)
Section LoopOutcome.
Context {T : Type}.
Variable einsum : string -> list T -> result T.
Variable output_subscript : string.
Variable output_set : gset label.
Variable dimension_dict : gmap label Z.
Variable len_path : nat.

#[local] Abbreviation body := (build_body output_subscript output_set dimension_dict len_path).

Lemma build_loop_extends (path : list group) (h : nat -> Z) (st st' : build_state) :
  for_each body (imap (fun i grp => (h i, grp)) path) st = Ok st' ->
  exists new, bs_contraction_list st' = bs_contraction_list st ++ new.
Proof.
  revert h st. induction path as [|grp path IH]; intros h st H.
  - injection H as <-. exists []. by rewrite app_nil_r.
  - rewrite imap_cons, for_each_cons in H.
    apply bind_Ok_inv in H as (st1 & H1 & H).
    destruct (IH (h ∘ S) st1 H) as (new & ->).
    destruct grp as [x|g]; [done |]. rewrite build_body_unfold in H1. cbv zeta in H1.
    apply bind_Ok_inv in H1 as (popped & _ & H1).
    apply bind_Ok_inv in H1 as (r & _ & H1). injection H1 as <-. simpl.
    eexists. by rewrite <- app_assoc.
Qed.

Lemma loop_step_outcome (st st' : build_state) (cnum : Z) (grp : group)
    (ops : list T) :
  body st (cnum, grp) = Ok st' ->
  length ops = length (bs_input_list st) ->
  exists c, bs_contraction_list st' = bs_contraction_list st ++ [c] /\
    ((exists ops', run_body einsum ops c = Ok ops' /\
                   length ops' = length (bs_input_list st')) \/
     (exists e s args, einsum s args = Raise e /\ run_body einsum ops c = Raise e)).
Proof.
  destruct grp as [x|g]; [done |]. rewrite build_body_unfold. cbv zeta. intros H Hops.
  apply bind_Ok_inv in H as ([tmp il] & Hpop & H).
  apply bind_Ok_inv in H as (r & _ & H). injection H as <-. simpl.
  destruct (pops_same_length _ _ _ _ _ [] ops Hpop Hops) as (tmpo & opso & Hrun & Hl).
  exists (py_sort (fun a b : Z => b <? a) g, false,
          (String.concat "," tmp ++ "->" ++ r)%string, il ++ [r]).
  split; [done |]. unfold run_body. rewrite Hrun, bind_Ok. simpl fst. simpl snd.
  destruct (einsum (String.concat "," tmp ++ "->" ++ r)%string tmpo)
    as [view|e] eqn:E.
  - left. rewrite bind_Ok. eexists. split; [done |].
    rewrite !length_app. simpl. lia.
  - right. by exists e, (String.concat "," tmp ++ "->" ++ r)%string, tmpo.
Qed.

Lemma loop_outcome (path : list group) (h : nat -> Z) (st st' : build_state)
    (ops : list T) :
  for_each body (imap (fun i grp => (h i, grp)) path) st = Ok st' ->
  length ops = length (bs_input_list st) ->
  exists new, bs_contraction_list st' = bs_contraction_list st ++ new /\
    ((exists ops', for_each (run_body einsum) new ops = Ok ops' /\
                   length ops' = length (bs_input_list st')) \/
     (exists e s args, einsum s args = Raise e /\
                       for_each (run_body einsum) new ops = Raise e)).
Proof.
  revert h st ops. induction path as [|grp path IH]; intros h st ops H Hops.
  - injection H as <-. exists []. rewrite app_nil_r. split; [done |]. left.
    by exists ops.
  - rewrite imap_cons, for_each_cons in H.
    apply bind_Ok_inv in H as (st1 & H1 & H).
    destruct (loop_step_outcome _ _ _ _ _ H1 Hops)
      as (c & Hcl & [(ops1 & Hrun & Hops1)|(e & s & args & He & Hrun)]).
    + destruct (IH (h ∘ S) st1 ops1 H Hops1)
        as (new & Hcl' & [(ops' & Hrun' & Hops')|(e & s & args & He & Hrun')]);
        exists (c :: new); (split; [by rewrite Hcl', Hcl, <- app_assoc |]);
        rewrite for_each_cons, Hrun, bind_Ok; [left | right]; eauto.
    + destruct (build_loop_extends _ _ _ _ H) as (new & Hcl').
      exists (c :: new). split; [by rewrite Hcl', Hcl, <- app_assoc |].
      right. exists e, s, args. split; [done |].
      by rewrite for_each_cons, Hrun.
Qed.

End LoopOutcome.

(** A call with a strategy name whose checks pass and whose strategy is
    applicable: with [return_path] it returns, and without it the contraction
    loop is run and the call returns unless [np.einsum] raises. *)
Lemma contract_call_named {T : Type} (shape_of : T -> shape)
    (einsum : string -> list T -> result T) (input_list : list string)
    (output_subscript : string) (operands : list T) (kw : kwargs) (name : string) :
  default (PathName "opportunistic") (kw_path kw) = PathName name ->
  (2 <= length input_list)%nat ->
  shapes_consistent input_list (shape_of <$> operands) ->
  output_in_inputs input_list output_subscript ->
  length input_list = 2%nat \/ known_strategy name ->
  (exists r, contract_call shape_of einsum input_list output_subscript operands kw
             = Ok r) \/
  (default false (kw_return_path kw) = false /\
   exists e s args, einsum s args = Raise e /\
     contract_call shape_of einsum input_list output_subscript operands kw = Raise e).
Proof.
  intros Hkw Hn Hcons Hout Hname. unfold contract_call, contract.
  destruct (contract_plan_prelude input_list output_subscript (shape_of <$> operands) kw)
    as [[? _]|[(_ & ? & _)|(_ & _ & d & out_size & Hd & Hcov & ->)]];
    [done | done |].
  rewrite Hkw.
  destruct (named_path_builds input_list output_subscript d name
              (default out_size (kw_memory kw)) out_size Hn Hcov Hout Hname)
    as (path & st & -> & Hst & Hil).
  rewrite bind_Ok, Hst, !bind_Ok. cbv zeta. simpl plan_state.
  destruct (default false (kw_return_path kw)); [left; by eexists |].
  rewrite bind_Ok. unfold build_contraction_list, enumerate in Hst.
  destruct (loop_outcome einsum _ _ _ _ _ _ _ _ operands Hst)
    as (new & Hcl & Hrun).
  { simpl. destruct Hcons as [d0 Hd0]. apply Forall2_length in Hd0.
    by rewrite length_fmap in Hd0. }
  simpl in Hcl. subst new. unfold run_contractions.
  destruct Hrun as [(ops & -> & Hops)|(e & s & args & He & ->)].
  - left. rewrite bind_Ok. rewrite Hil in Hops.
    destruct ops as [|view [|? ?]]; try done. by eexists.
  - right. split; [done |]. by exists e, s, args.
Qed.

(** X20: what a call of [contract] with a strategy name and at least two
    terms does is decided by its inputs and by [np.einsum].  It returns only
    when the terms and the shapes of the operands fit together, the output
    names labels of the input terms only, and the strategy name is known or
    there are two terms.  It raises [ValueError] when the terms and the shapes
    do not fit; [KeyError] when they fit and the output names a label no
    input term has, or there are at least three terms and the strategy name
    is not known; and any other exception is one that [np.einsum] raised in
    the contraction loop, which is run only without [return_path]. *)
Theorem contract_outcome_by_inputs {T : Type} (shape_of : T -> shape)
    (einsum : string -> list T -> result T) (input_list : list string)
    (output_subscript : string) (operands : list T) (kw : kwargs) (name : string) :
  default (PathName "opportunistic") (kw_path kw) = PathName name ->
  (2 <= length input_list)%nat ->
  match contract_call shape_of einsum input_list output_subscript operands kw with
  | Ok _ =>
      shapes_consistent input_list (shape_of <$> operands) /\
      output_in_inputs input_list output_subscript /\
      (length input_list = 2%nat \/ known_strategy name)
  | Raise e =>
      (e = ValueError /\ ~ shapes_consistent input_list (shape_of <$> operands)) \/
      (e = KeyError /\
       shapes_consistent input_list (shape_of <$> operands) /\
       (~ output_in_inputs input_list output_subscript \/
        ((3 <= length input_list)%nat /\ ~ known_strategy name))) \/
      (shapes_consistent input_list (shape_of <$> operands) /\
       output_in_inputs input_list output_subscript /\
       (length input_list = 2%nat \/ known_strategy name) /\
       default false (kw_return_path kw) = false /\
       exists s args, einsum s args = Raise e)
  end.
Proof.
  intros Hkw Hn.
  destruct (contract_plan_prelude input_list output_subscript (shape_of <$> operands) kw)
    as [[Hcons Hpl]|[(Hcons & Hout & Hpl)|(Hcons & Hout & d & out_size & Hd & Hcov & Hpl)]].
  { unfold contract_call, contract. rewrite Hpl. simpl. by left. }
  { unfold contract_call, contract. rewrite Hpl. simpl. right. left. auto. }
  destruct (decide (length input_list = 2%nat \/ known_strategy name)) as [Hname|Hname].
  - destruct (contract_call_named shape_of einsum input_list output_subscript
                operands kw name Hkw Hn Hcons Hout Hname)
      as [[r ->]|(Hrp & e & s & args & He & ->)]; [done |].
    right. right. eauto 10.
  - unfold contract_call, contract. rewrite Hpl, Hkw.
    rewrite unknown_path_raises by (try lia; tauto). simpl.
    right. left. split; [done |]. split; [done |]. right. split; [lia | tauto].
Qed.

(** X21: a call with a single term and a strategy name never succeeds.  When
    the term fits the operand and the output names labels of the term only,
    the path is the bare position [0], which cannot be read as a tuple of
    positions, and the call raises [TypeError]. *)
Theorem single_operand_call_fails (input_list : list string)
    (output_subscript : string) (operands : list shape) (kw : kwargs)
    (name : string) :
  default (PathName "opportunistic") (kw_path kw) = PathName name ->
  length input_list = 1%nat ->
  exists e, contract input_list output_subscript operands kw = Raise e /\
    (e = TypeError <->
     shapes_consistent input_list operands /\
     output_in_inputs input_list output_subscript).
Proof.
  intros Hkw Hn.
  pose proof (contract_of_plan input_list output_subscript operands kw) as Hc.
  destruct (contract_plan_prelude input_list output_subscript operands kw)
    as [[Hcons Hpl]|[(Hcons & Hout & Hpl)|(Hcons & Hout & d & out_size & Hd & Hcov & Hpl)]];
    rewrite Hpl in Hc.
  { eexists. split; [done |]. split; [done | tauto]. }
  { eexists. split; [done |]. split; [done | tauto]. }
  rewrite Hkw in Hc. unfold compute_path in Hc. rewrite Hn in Hc. simpl in Hc.
  eexists. split; [done |]. done.
Qed.

(** X22: with two terms that fit their operands and an output made of their
    labels, any strategy name (known or not) and any memory limit give the
    same plan: the single step [(0, 1)], whose contraction tuple pops
    position 1 before position 0, so that its [einsum] string names the
    second term first, and leaves the output subscript alone. *)
Theorem two_operand_plan (t0 t1 output_subscript : string) (operands : list shape)
    (kw : kwargs) (name : string) :
  default (PathName "opportunistic") (kw_path kw) = PathName name ->
  shapes_consistent [t0; t1] operands ->
  output_in_inputs [t0; t1] output_subscript ->
  contract_plan [t0; t1] output_subscript operands kw =
  Ok (Plan [GTuple [0; 1]]
        (BuildState [set_of_str output_subscript] [output_subscript]
           [([1; 0], false,
             (String.concat "," [t1; t0] ++ "->" ++ output_subscript)%string,
             [output_subscript])])).
Proof.
  intros Hkw Hcons Hout.
  destruct (contract_plan_prelude [t0; t1] output_subscript operands kw)
    as [[Hcons' _]|[(_ & Hout' & _)|(_ & _ & d & out_size & Hd & Hcov & ->)]];
    [done | done |].
  rewrite Hkw. unfold compute_path. simpl length. simpl Nat.eqb. cbv iota.
  rewrite bind_Ok. unfold build_contraction_list, enumerate. simpl imap.
  rewrite for_each_cons, build_body_unfold.
  assert (py_sort (fun a b : Z => b <? a) [0; 1] = [1; 0]) as -> by done.
  cbn [bs_input_sets bs_input_list bs_contraction_list].
  assert (for_each pop_body [1; 0] ([], [t0; t1]) = Ok ([t1; t0], [])) as -> by done.
  cbv zeta. rewrite bind_Ok. simpl fst. simpl snd.
  change (Z.of_nat 0 - Z.of_nat (length [GTuple [0; 1]]) =? -1) with true.
  cbv iota. rewrite !bind_Ok.
  rewrite find_contraction_unfold.
  assert (selected [1; 0] (set_of_str <$> [t0; t1]) = [set_of_str t0; set_of_str t1])
    as -> by done.
  assert (not_selected [1; 0] (set_of_str <$> [t0; t1]) = []) as -> by done.
  cbv zeta. cbn [remaining for_each app].
  assert ((set_of_str output_subscript ∪ ⋃ [])
          ∩ ⋃ [set_of_str t0; set_of_str t1] = set_of_str output_subscript) as ->.
  { unfold output_in_inputs in Hout. simpl in Hout. set_solver. }
  done.
Qed.

(** ** The contraction loop *)

Lemma string_app_assoc (a b c : string) : ((a ++ b) ++ c = a ++ (b ++ c))%string.
Proof.
  induction a as [|x a IH]; [done |].
  change (String x ((a ++ b) ++ c) = String x (a ++ (b ++ c)))%string.
  by rewrite IH.
Qed.

Lemma strip_prefix_app (p s : string) : strip_prefix p (p ++ s) = Some s.
Proof.
  induction p as [|a p IH]; simpl; [by destruct s |]. by rewrite Ascii.eqb_refl.
Qed.

Lemma symbolic_einsum_accepts (args : list symbolic) (r : string) :
  symbolic_einsum (String.concat "," args.*1 ++ "->" ++ r) args
  = Ok (r, concat args.*2).
Proof.
  unfold symbolic_einsum.
  rewrite <- (string_app_assoc (String.concat "," args.*1) "->" r).
  by rewrite strip_prefix_app.
Qed.

Section Lockstep.
Context {T : Type}.
Variable f : T -> string.

Lemma list_pop_lockstep (l : list T) (x : Z) (a : string) (il' : list string) :
  list_pop (f <$> l) x = Ok (a, il') ->
  exists b l', list_pop l x = Ok (b, l') /\ f b = a /\ f <$> l' = il' /\ b :: l' ≡ₚ l.
Proof.
  unfold list_pop. rewrite length_fmap. intros H.
  apply bind_Ok_inv in H as (i & Hi & H). rewrite Hi, bind_Ok.
  rewrite list_lookup_fmap in H. destruct (l !! i) as [b|] eqn:E; [| done].
  injection H as <- <-. exists b, (delete i l). split; [done |]. split; [done |].
  split; [apply list_fmap_delete |]. symmetry. by apply delete_Permutation.
Qed.

Lemma pops_lockstep (g : list Z) (tmp il tmp' il' : list string) (tmpo opso : list T) :
  for_each pop_body g (tmp, il) = Ok (tmp', il') ->
  f <$> tmpo = tmp -> f <$> opso = il ->
  exists tmpo' opso',
    for_each pop_operand g (tmpo, opso) = Ok (tmpo', opso') /\
    f <$> tmpo' = tmp' /\ f <$> opso' = il' /\ tmpo' ++ opso' ≡ₚ tmpo ++ opso.
Proof.
  revert tmp il tmpo opso. induction g as [|x g IH]; intros tmp il tmpo opso H Ht Ho.
  - injection H as <- <-. by exists tmpo, opso.
  - rewrite for_each_cons in H. apply bind_Ok_inv in H as ([tmp1 il1] & Hpop & H).
    unfold pop_body in Hpop. apply bind_Ok_inv in Hpop as ([a l1] & Hpop & Heq).
    injection Heq as <- <-. rewrite <- Ho in Hpop.
    apply list_pop_lockstep in Hpop as (b & l' & Hpop & Hb & Hl' & Hperm).
    destruct (IH _ _ (tmpo ++ [b]) l' H) as (tmpo' & opso' & Hrun & Ht' & Ho' & Hperm').
    { rewrite fmap_app, Ht. simpl. by rewrite Hb. }
    { done. }
    exists tmpo', opso'. rewrite for_each_cons.
    change (pop_operand (tmpo, opso) x)
      with (popped ← list_pop opso x; Ok (tmpo ++ [popped.1], popped.2)).
    rewrite Hpop, !bind_Ok. split; [done |]. split; [done |]. split; [done |].
    rewrite Hperm', <- Hperm, <- app_assoc. simpl. done.
Qed.

End Lockstep.

Lemma symbolic_operands_terms (input_list : list string) :
  (symbolic_operands input_list).*1 = input_list.
Proof.
  unfold symbolic_operands.
  assert (forall k, (imap (fun i (term : string) => (term, [(k + i)%nat])) input_list).*1
                    = input_list) as H.
  { induction input_list as [|t l IH]; intros k; [done |].
    rewrite imap_cons. simpl. f_equal. rewrite <- (IH (S k)) at 2. f_equal.
    apply imap_ext. intros i y _. simpl. do 2 f_equal. lia. }
  apply (H 0%nat).
Qed.

Lemma symbolic_operands_used (input_list : list string) :
  concat (symbolic_operands input_list).*2 = seq 0 (length input_list).
Proof.
  unfold symbolic_operands.
  assert (forall k, concat (imap (fun i (term : string) => (term, [(k + i)%nat]))
                                 input_list).*2
                    = seq k (length input_list)) as H.
  { induction input_list as [|t l IH]; intros k; [done |].
    rewrite imap_cons. simpl. f_equal; [lia |]. rewrite <- (IH (S k)). do 2 f_equal.
    apply imap_ext. intros i y _. simpl. do 2 f_equal. lia. }
  apply (H 0%nat).
Qed.

Section SymbolicRun.
Variable output_subscript : string.
Variable output_set : gset label.
Variable dimension_dict : gmap label Z.
Variable len_path : nat.

#[local] Abbreviation body := (build_body output_subscript output_set dimension_dict len_path).

Lemma symbolic_step (st st' : build_state) (cnum : Z) (grp : group)
    (ops : list symbolic) :
  body st (cnum, grp) = Ok st' ->
  ops.*1 = bs_input_list st ->
  exists c ops',
    bs_contraction_list st' = bs_contraction_list st ++ [c] /\
    run_body symbolic_einsum ops c = Ok ops' /\
    ops'.*1 = bs_input_list st' /\
    concat ops'.*2 ≡ₚ concat ops.*2.
Proof.
  destruct grp as [x|g]; [done |]. rewrite build_body_unfold. cbv zeta. intros H Hops.
  apply bind_Ok_inv in H as ([tmp il] & Hpop & H).
  apply bind_Ok_inv in H as (r & _ & H). injection H as <-. simpl.
  destruct (pops_lockstep (T:=symbolic) fst _ _ _ _ _ [] ops Hpop eq_refl Hops)
    as (tmpo & opso & Hrun & Ht & Ho & Hperm).
  exists (py_sort (fun a b : Z => b <? a) g, false,
          (String.concat "," tmp ++ "->" ++ r)%string, il ++ [r]),
         (opso ++ [(r, concat tmpo.*2)]).
  split; [done |].
  unfold run_body. rewrite Hrun, bind_Ok. simpl fst. simpl snd.
  rewrite <- Ht, symbolic_einsum_accepts, bind_Ok. split; [done |].
  split; [rewrite fmap_app, <- Ho; done |].
  rewrite fmap_app, concat_app. simpl. rewrite app_nil_r.
  rewrite <- concat_app, <- fmap_app. simpl in Hperm.
  rewrite (Permutation_app_comm opso tmpo). by rewrite Hperm.
Qed.

Lemma symbolic_loop (path : list group) (h : nat -> Z) (st st' : build_state)
    (ops : list symbolic) :
  for_each body (imap (fun i grp => (h i, grp)) path) st = Ok st' ->
  ops.*1 = bs_input_list st ->
  exists new ops',
    bs_contraction_list st' = bs_contraction_list st ++ new /\
    for_each (run_body symbolic_einsum) new ops = Ok ops' /\
    ops'.*1 = bs_input_list st' /\
    concat ops'.*2 ≡ₚ concat ops.*2.
Proof.
  revert h st ops. induction path as [|grp path IH]; intros h st ops H Hops.
  - injection H as <-. exists [], ops. by rewrite app_nil_r.
  - rewrite imap_cons, for_each_cons in H.
    apply bind_Ok_inv in H as (st1 & H1 & H).
    destruct (symbolic_step _ _ _ _ _ H1 Hops) as (c & ops1 & Hcl & Hrun & Hops1 & Hperm).
    destruct (IH (h ∘ S) st1 ops1 H Hops1) as (new & ops' & Hcl' & Hrun' & Hops' & Hperm').
    exists (c :: new), ops'. split; [by rewrite Hcl', Hcl, <- app_assoc |].
    rewrite for_each_cons, Hrun, bind_Ok. split; [done |]. split; [done |].
    by rewrite Hperm'.
Qed.

End SymbolicRun.

(** X23: the contraction loop follows the contraction list, for any path, found
    or given, whose contraction list is built.  Run on symbolic operands, no
    [pop] leaves the list of operands, every [np.einsum] call receives the
    operands that the terms before the arrow of its string describe, in that
    order; the operands left at the end are described by the terms left at the
    end, and every original operand went into exactly one of them. *)
Theorem loop_follows_contraction_list (path : list group) (input_list : list string)
    (input_sets : list (gset label)) (output_subscript : string)
    (output_set : gset label) (dimension_dict : gmap label Z) (st : build_state) :
  build_contraction_list path input_list input_sets output_subscript output_set
                         dimension_dict = Ok st ->
  exists operands,
    for_each (run_body symbolic_einsum) (bs_contraction_list st)
             (symbolic_operands input_list) = Ok operands /\
    operands.*1 = bs_input_list st /\
    concat operands.*2 ≡ₚ seq 0 (length input_list).
Proof.
  unfold build_contraction_list, enumerate. intros H.
  destruct (symbolic_loop _ _ _ _ _ _ _ _ (symbolic_operands input_list) H)
    as (new & ops & Hcl & Hrun & Hops & Hperm).
  { apply symbolic_operands_terms. }
  simpl in Hcl. subst new. exists ops. split; [done |]. split; [done |].
  by rewrite Hperm, symbolic_operands_used.
Qed.

(** X24: for a call with a strategy name and at least two terms that returns
    a contraction list, the symbolic run of the contraction loop succeeds and
    returns the operand described by the output subscript, into which every
    original operand went exactly once. *)
Theorem run_returns_output (input_list : list string) (output_subscript : string)
    (operands : list shape) (kw : kwargs) (name : string)
    (contraction_list : list contraction_tuple) :
  default (PathName "opportunistic") (kw_path kw) = PathName name ->
  (2 <= length input_list)%nat ->
  contract input_list output_subscript operands kw = Ok (Evaluate contraction_list) ->
  exists used,
    run_contractions symbolic_einsum contraction_list (symbolic_operands input_list)
    = Ok (output_subscript, used) /\
    used ≡ₚ seq 0 (length input_list).
Proof.
  intros Hkw Hn H. unfold contract in H.
  destruct (contract_plan_prelude input_list output_subscript operands kw)
    as [[_ Hpl]|[(_ & _ & Hpl)|(_ & Hout & d & out_size & Hd & Hcov & Hpl)]];
    rewrite Hpl in H; [done | done |].
  rewrite Hkw in H.
  destruct (decide (length input_list = 2%nat \/ known_strategy name)) as [Hname|Hname];
    [| rewrite unknown_path_raises in H by (try lia; tauto); done].
  destruct (named_path_builds input_list output_subscript d name
              (default out_size (kw_memory kw)) out_size Hn Hcov Hout Hname)
    as (path & st & Hpath & Hst & Hil).
  rewrite Hpath, bind_Ok, Hst, !bind_Ok in H. cbv zeta in H. simpl in H.
  destruct (default false (kw_return_path kw)); [done |]. injection H as <-.
  unfold build_contraction_list, enumerate in Hst.
  destruct (symbolic_loop _ _ _ _ _ _ _ _ (symbolic_operands input_list) Hst)
    as (new & ops & Hcl & Hrun & Hops & Hperm).
  { apply symbolic_operands_terms. }
  simpl in Hcl. subst new. rewrite Hil in Hops.
  destruct ops as [|[r used] [|? ?]]; try done. injection Hops as ->.
  exists used. unfold run_contractions. rewrite Hrun, bind_Ok. split; [done |].
  rewrite symbolic_operands_used in Hperm. simpl in Hperm.
  by rewrite app_nil_r in Hperm.
Qed.

(** ** Parsing the subscripts *)

Lemma split_char_nonempty (sep : ascii) (s : string) : split_char sep s <> [].
Proof.
  destruct s as [|a s]; simpl; [done |]. destruct (Ascii.eqb a sep); [done |].
  unfold cons_first. by destruct (split_char sep s).
Qed.

Lemma concat_cons_first (sep : string) (a : ascii) (parts : list string) :
  parts <> [] ->
  String.concat sep (cons_first a parts) = String a (String.concat sep parts).
Proof. by destruct parts as [|p [|q ps]]. Qed.

Lemma concat_empty_first (sep : string) (parts : list string) :
  parts <> [] ->
  String.concat sep (EmptyString :: parts) = (sep ++ String.concat sep parts)%string.
Proof. by destruct parts. Qed.

Lemma length_cons_first (a : ascii) (parts : list string) :
  parts <> [] -> length (cons_first a parts) = length parts.
Proof. by destruct parts. Qed.

Lemma concat_split_char (sep : ascii) (s : string) :
  String.concat (String sep EmptyString) (split_char sep s) = s.
Proof.
  induction s as [|a s IH]; [done |]. simpl split_char.
  destruct (Ascii.eqb_spec a sep) as [->|Hne].
  - rewrite concat_empty_first by apply split_char_nonempty. simpl. by rewrite IH.
  - rewrite concat_cons_first by apply split_char_nonempty. by rewrite IH.
Qed.

Lemma split_arrow_facts (s : string) :
  (split_arrow s <> [] /\ String.concat "->" (split_arrow s) = s /\
   length (split_arrow s) = S (count_arrow s)) /\
  forall a,
    split_arrow (String a s) <> [] /\
    String.concat "->" (split_arrow (String a s)) = String a s /\
    length (split_arrow (String a s)) = S (count_arrow (String a s)).
Proof.
  induction s as [|b s [IHs IHa]]; [done |].
  split; [apply IHa |]. intros a.
  change (split_arrow (String a (String b s)))
    with (if Ascii.eqb a "-" && Ascii.eqb b ">" then EmptyString :: split_arrow s
          else cons_first a (split_arrow (String b s))).
  change (count_arrow (String a (String b s)))
    with (if Ascii.eqb a "-" && Ascii.eqb b ">" then S (count_arrow s)
          else count_arrow (String b s)).
  destruct (IHa b) as (Hne' & Hc' & Hl'). destruct IHs as (Hne & Hc & Hl).
  destruct (Ascii.eqb a "-" && Ascii.eqb b ">") eqn:E.
  - apply andb_true_iff in E as [Ea Eb].
    apply Ascii.eqb_eq in Ea, Eb. subst a b.
    split; [done |]. split; [| simpl; by rewrite Hl].
    rewrite concat_empty_first by done. by rewrite Hc.
  - split; [unfold cons_first; by destruct (split_arrow (String b s)) |].
    split; [| by rewrite length_cons_first].
    rewrite concat_cons_first by done. by rewrite Hc'.
Qed.

Lemma prefix_head (a b : ascii) (p s : string) :
  String.prefix (String a p) (String b s) = true -> a = b.
Proof. simpl. by destruct (ascii_dec a b). Qed.

Lemma contains_arrow_dash (s : string) :
  contains "->" s = true -> char_in "-" s = true.
Proof.
  unfold char_in. induction s as [|a s IH]; [done |].
  change (contains "->" (String a s))
    with (String.prefix "->" (String a s) || contains "->" s).
  intros H. apply orb_true_iff in H as [H|H].
  - by apply prefix_head in H as <-.
  - simpl. rewrite IH by done. apply orb_true_r.
Qed.

Lemma checked_arrow_parts (subscripts : string) :
  check_arrow subscripts = Ok () ->
  contains "->" subscripts = true ->
  exists a b, split_subscripts subscripts = Ok (a, Some b) /\
              subscripts = (a ++ "->" ++ b)%string.
Proof.
  intros Hcheck Harrow. unfold check_arrow in Hcheck.
  rewrite (contains_arrow_dash _ Harrow) in Hcheck. simpl in Hcheck.
  destruct (_ || _) eqn:E in Hcheck; [done |].
  apply orb_false_iff in E as [_ E]. apply negb_false_iff, Nat.eqb_eq in E.
  destruct (split_arrow_facts subscripts) as [(_ & Hc & Hl) _]. rewrite E in Hl.
  unfold split_subscripts. rewrite Harrow.
  destruct (split_arrow subscripts) as [|a [|b [|]]]; try done.
  exists a, b. split; [done |]. by rewrite <- Hc.
Qed.

(** X25: a subscripts string that passes the check on its arrow and holds
    one splits on the arrow into exactly two parts, the input subscripts and
    the output subscript: their unpacking cannot fail. *)
Theorem checked_arrow_splits (subscripts : string) :
  check_arrow subscripts = Ok () ->
  contains "->" subscripts = true ->
  exists input_subscripts output_subscript,
    split_arrow subscripts = [input_subscripts; output_subscript] /\
    split_subscripts subscripts = Ok (input_subscripts, Some output_subscript) /\
    subscripts = (input_subscripts ++ "->" ++ output_subscript)%string.
Proof.
  intros Hcheck Harrow. unfold check_arrow in Hcheck.
  rewrite (contains_arrow_dash _ Harrow) in Hcheck. simpl in Hcheck.
  destruct (_ || _) eqn:E in Hcheck; [done |].
  apply orb_false_iff in E as [_ E]. apply negb_false_iff, Nat.eqb_eq in E.
  destruct (split_arrow_facts subscripts) as [(_ & Hc & Hl) _]. rewrite E in Hl.
  unfold split_subscripts. rewrite Harrow.
  destruct (split_arrow subscripts) as [|a [|b [|]]]; try done.
  exists a, b. split; [done |]. split; [done |]. by rewrite <- Hc.
Qed.

(** X26: parsing loses nothing.  When a string without ellipsis is parsed for
    [n] operands there are [n] terms, and joining the terms with commas (and
    appending the arrow and the output subscript when the string holds an
    arrow) gives back the string; without an arrow the output is the one built
    from the whole string. *)
Theorem parse_round_trip (subscripts : string) (n : nat) (input_list : list string)
    (output_subscript : string) :
  parse_subscripts subscripts n = Ok (Plain input_list output_subscript) ->
  length input_list = n /\
  if contains "->" subscripts
  then subscripts = (String.concat "," input_list ++ "->" ++ output_subscript)%string
  else subscripts = String.concat "," input_list /\
       output_subscript = implicit_output subscripts.
Proof.
  unfold parse_subscripts. intros H.
  apply bind_Ok_inv in H as ([] & Hcheck & H).
  apply bind_Ok_inv in H as ([] & _ & H).
  apply bind_Ok_inv in H as ([input_subscripts out] & Hsplit & H).
  cbv zeta in H. simpl fst in H. simpl snd in H.
  destruct (Nat.eqb_spec (length (split_char "," input_subscripts)) n) as [Hn|];
    [| done]. simpl negb in H. cbv iota in H.
  destruct (contains "..." input_subscripts); [by destruct out |].
  destruct (contains "->" subscripts) eqn:Harrow.
  - destruct (checked_arrow_parts subscripts Hcheck Harrow) as (a & b & Hs & ->).
    rewrite Hs in Hsplit. injection Hsplit as <- <-.
    destruct (char_in "." b); [done |]. injection H as <- <-.
    split; [done |]. by rewrite concat_split_char.
  - unfold split_subscripts in Hsplit. rewrite Harrow in Hsplit.
    injection Hsplit as <- <-. injection H as <- <-.
    split; [done |]. by rewrite concat_split_char.
Qed.

Lemma string_app_nil_r (a : string) : (a ++ EmptyString)%string = a.
Proof.
  induction a as [|x a IH]; [done |].
  change (String x (a ++ EmptyString)%string = String x a). by rewrite IH.
Qed.

Lemma list_ascii_of_string_app (a b : string) :
  list_ascii_of_string (a ++ b) = list_ascii_of_string a ++ list_ascii_of_string b.
Proof.
  induction a as [|x a IH]; [done |].
  change (x :: list_ascii_of_string (a ++ b)
          = x :: (list_ascii_of_string a ++ list_ascii_of_string b)).
  by rewrite IH.
Qed.

Lemma output_loop (P : ascii -> bool) (l : list ascii) (acc : string) :
  list_ascii_of_string
    (fold_left (fun output_subscript s =>
                  if P s then (output_subscript ++ String s EmptyString)%string
                  else output_subscript) l acc)
  = list_ascii_of_string acc ++ filter (fun s => P s = true) l.
Proof.
  revert acc. induction l as [|x l IH]; intros acc; simpl.
  - by rewrite app_nil_r.
  - rewrite IH. destruct (P x) eqn:E.
    + rewrite filter_cons_True by done.
      rewrite list_ascii_of_string_app, <- app_assoc. done.
    + rewrite filter_cons_False by congruence. done.
Qed.

Lemma implicit_output_chars (input_subscripts : string) :
  list_ascii_of_string (implicit_output input_subscripts) =
  filter (fun s => (count_char s (remove_char "," input_subscripts) =? 1)%nat = true)
         (py_sort char_lt (elements (set_of_str (remove_char "," input_subscripts)))).
Proof. unfold implicit_output. cbv zeta. by rewrite output_loop. Qed.

Lemma StronglySorted_filter {A : Type} (R : relation A) (P : A -> Prop)
    `{!forall x, Decision (P x)} (l : list A) :
  StronglySorted R l -> StronglySorted R (filter P l).
Proof.
  induction 1 as [|x l Hs IH Hall]; [constructor |].
  destruct (decide (P x)).
  - rewrite filter_cons_True by done. constructor; [done |].
    rewrite Forall_forall in Hall |- *. intros y Hy.
    apply list_elem_of_filter in Hy as [_ Hy]. by apply Hall.
  - by rewrite filter_cons_False.
Qed.

Lemma sorted_chars (l : list ascii) :
  NoDup l -> StronglySorted char_before (py_sort char_lt l).
Proof.
  intros Hnd.
  set (R := fun a b => char_before a b \/ a = b).
  assert (StronglySorted R (py_sort char_lt l)) as Hs.
  { apply Sorted_StronglySorted.
    - intros x y z [Hxy| ->] [Hyz| ->]; unfold R, char_before in *; eauto.
      left. lia.
    - apply py_sort_sorted.
      + intros x y H. left. unfold char_lt in H. by apply N.ltb_lt in H.
      + intros x y H. unfold char_lt in H. apply N.ltb_ge in H.
        destruct (decide (N_of_ascii x = N_of_ascii y)) as [Heq|Hne].
        * right. by apply N_of_ascii_inj.
        * left. unfold char_before. lia. }
  assert (NoDup (py_sort char_lt l)) as Hnd' by (by rewrite py_sort_perm).
  clear Hnd. induction Hs as [|x k Hs IH Hall]; [constructor |].
  apply NoDup_cons in Hnd' as [Hx Hnd']. constructor; [by apply IH |].
  rewrite Forall_forall in Hall |- *. intros y Hy.
  destruct (Hall y Hy) as [?| ->]; [done | by destruct Hx].
Qed.

Lemma count_char_elem_of (c : ascii) (s : string) :
  (0 < count_char c s)%nat <-> c ∈ list_ascii_of_string s.
Proof.
  unfold count_char. split.
  - intros H. destruct (filter _ _) as [|x l] eqn:E; [simpl in H; lia |].
    assert (x ∈ filter (fun x => x = c) (list_ascii_of_string s)) as Hx
      by (rewrite E; by left).
    by apply list_elem_of_filter in Hx as [-> Hx].
  - intros H.
    assert (c ∈ filter (fun x => x = c) (list_ascii_of_string s)) as Hc
      by (by apply list_elem_of_filter).
    destruct (filter _ _); [by apply elem_of_nil in Hc | simpl; lia].
Qed.

Lemma implicit_output_elem_of (input_subscripts : string) (c : ascii) :
  c ∈ list_ascii_of_string (implicit_output input_subscripts) <->
  count_char c (remove_char "," input_subscripts) = 1%nat.
Proof.
  rewrite implicit_output_chars.
  rewrite list_elem_of_filter, py_sort_elem_of, elem_of_elements.
  unfold set_of_str. rewrite elem_of_list_to_set, Nat.eqb_eq.
  split; [by intros [? _] |]. intros H. split; [done |].
  apply count_char_elem_of. lia.
Qed.

(** X27: the output built when the subscripts give none lists exactly the
    labels that occur once in the input subscripts (commas apart), each once,
    in increasing order of their character codes. *)
Theorem implicit_output_spec (input_subscripts : string) :
  let output := list_ascii_of_string (implicit_output input_subscripts) in
  StronglySorted char_before output /\
  forall c, c ∈ output <-> count_char c (remove_char "," input_subscripts) = 1%nat.
Proof.
  cbv zeta. split; [| apply implicit_output_elem_of].
  rewrite implicit_output_chars.
  apply StronglySorted_filter, sorted_chars, NoDup_elements.
Qed.

Lemma remove_char_elem_of (c x : ascii) (s : string) :
  x ∈ list_ascii_of_string (remove_char c s) <->
  x ∈ list_ascii_of_string s /\ x <> c.
Proof.
  unfold remove_char. rewrite list_ascii_of_string_of_list_ascii.
  rewrite list_elem_of_filter. tauto.
Qed.

Lemma split_char_elem_of (sep x : ascii) (s : string) :
  x <> sep -> x ∈ list_ascii_of_string s ->
  exists part, part ∈ split_char sep s /\ x ∈ list_ascii_of_string part.
Proof.
  intros Hx. induction s as [|a s IH]; intros Hin.
  - by apply elem_of_nil in Hin.
  - change (list_ascii_of_string (String a s)) with (a :: list_ascii_of_string s) in Hin.
    simpl split_char. destruct (Ascii.eqb_spec a sep) as [->|Hne].
    + apply elem_of_cons in Hin as [?|Hin]; [done |].
      destruct (IH Hin) as (part & Hpart & Hxp). exists part. split; [by right | done].
    + pose proof (split_char_nonempty sep s) as Hnil.
      destruct (split_char sep s) as [|p ps]; [done |]. simpl.
      apply elem_of_cons in Hin as [->|Hin].
      * exists (String a p). split; [by left | by left].
      * destruct (IH Hin) as (part & Hpart & Hxp).
        apply elem_of_cons in Hpart as [->|Hpart].
        -- exists (String a p). split; [by left | by right].
        -- exists part. split; [by right | done].
Qed.

Lemma implicit_output_in_inputs (input_subscripts : string) :
  output_in_inputs (split_char "," input_subscripts) (implicit_output input_subscripts).
Proof.
  unfold output_in_inputs. intros c Hc. unfold set_of_str in Hc.
  apply elem_of_list_to_set in Hc.
  apply implicit_output_elem_of in Hc.
  assert (c ∈ list_ascii_of_string (remove_char "," input_subscripts)) as Hin
    by (apply count_char_elem_of; lia).
  apply remove_char_elem_of in Hin as [Hin Hne].
  destruct (split_char_elem_of "," c input_subscripts Hne Hin) as (part & Hpart & Hcp).
  apply elem_of_union_list. exists (set_of_str part). split.
  - apply list_elem_of_fmap. eauto.
  - unfold set_of_str. by apply elem_of_list_to_set.
Qed.

(** X28: a call whose subscripts give no output and hold no ellipsis cannot
    fail on its output.  Once the string is parsed into at least two terms
    that fit the operands, and the strategy is known or there are two terms,
    the call with [return_path] returns, and the call without it returns
    unless [np.einsum] raises in the contraction loop, and then with the
    exception [np.einsum] raised. *)
Theorem implicit_output_call_succeeds {T : Type} (shape_of : T -> shape)
    (einsum : string -> list T -> result T) (subscripts : string)
    (operands : list T) (kw : kwargs) (name : string) (input_list : list string)
    (output_subscript : string) :
  parse_subscripts subscripts (length operands) = Ok (Plain input_list output_subscript) ->
  contains "->" subscripts = false ->
  default (PathName "opportunistic") (kw_path kw) = PathName name ->
  (2 <= length input_list)%nat ->
  length input_list = 2%nat \/ known_strategy name ->
  shapes_consistent input_list (shape_of <$> operands) ->
  match contract_call shape_of einsum input_list output_subscript operands kw with
  | Ok _ => True
  | Raise e =>
      default false (kw_return_path kw) = false /\
      exists s args, einsum s args = Raise e
  end.
Proof.
  intros Hparse Harrow Hkw Hn Hname Hcons.
  assert (output_in_inputs input_list output_subscript) as Hout.
  { unfold parse_subscripts in Hparse.
    apply bind_Ok_inv in Hparse as ([] & _ & H).
    apply bind_Ok_inv in H as ([] & _ & H).
    apply bind_Ok_inv in H as ([input_subscripts out] & Hsplit & H).
    unfold split_subscripts in Hsplit. rewrite Harrow in Hsplit.
    injection Hsplit as <- <-. cbv zeta in H. simpl fst in H. simpl snd in H.
    destruct (negb _); [done |]. destruct (contains "..." subscripts); [done |].
    injection H as <- <-. apply implicit_output_in_inputs. }
  destruct (contract_call_named shape_of einsum input_list output_subscript
              operands kw name Hkw Hn Hcons Hout Hname)
    as [[r ->]|(Hrp & e & s & args & He & ->)]; [done |]. eauto.
Qed.

(** * Concrete instances of the further properties *)

Lemma chain_positive : positive_sizes chain_sizes.
Proof.
  change (map_Forall (fun _ v => 1 <= v) chain_sizes).
  apply (bool_decide_unpack _). by vm_compute.
Qed.

Lemma compute_size_by_dict_perm_witness :
  ["a"; "b"; "c"]%char ≡ₚ ["c"; "a"; "b"]%char /\
  _compute_size_by_dict ["a"; "b"; "c"]%char chain_sizes
  = _compute_size_by_dict ["c"; "a"; "b"]%char chain_sizes.
Proof.
  assert (H : ["a"; "b"; "c"]%char ≡ₚ ["c"; "a"; "b"]%char)
    by exact (Permutation_app_comm ["a"; "b"]%char ["c"]%char).
  split; [exact H |].
  exact (compute_size_by_dict_perm _ _ chain_sizes H).
Defined.

Lemma size_of_disjoint_union_witness :
  set_of_str "ab" ## set_of_str "cd" /\
  size_of_set (set_of_str "ab") chain_sizes = Ok 6 /\
  size_of_set (set_of_str "cd") chain_sizes = Ok 20 /\
  size_of_set (set_of_str "ab" ∪ set_of_str "cd") chain_sizes = Ok (6 * 20).
Proof.
  assert (H : set_of_str "ab" ## set_of_str "cd")
    by (apply (bool_decide_unpack _); by vm_compute).
  assert (H1 : size_of_set (set_of_str "ab") chain_sizes = Ok 6) by (by vm_compute).
  assert (H2 : size_of_set (set_of_str "cd") chain_sizes = Ok 20) by (by vm_compute).
  split; [exact H |]. split; [exact H1 |]. split; [exact H2 |].
  exact (size_of_disjoint_union _ _ chain_sizes 6 20 H H1 H2).
Defined.

Lemma size_of_set_monotone_witness :
  positive_sizes chain_sizes /\
  set_of_str "ab" ⊆ set_of_str "abc" /\
  size_of_set (set_of_str "ab") chain_sizes = Ok 6 /\
  size_of_set (set_of_str "abc") chain_sizes = Ok 24 /\
  1 <= 6 <= 24.
Proof.
  assert (H : set_of_str "ab" ⊆ set_of_str "abc")
    by (apply (bool_decide_unpack _); by vm_compute).
  assert (H1 : size_of_set (set_of_str "ab") chain_sizes = Ok 6) by (by vm_compute).
  assert (H2 : size_of_set (set_of_str "abc") chain_sizes = Ok 24) by (by vm_compute).
  split; [exact chain_positive |]. split; [exact H |]. split; [exact H1 |].
  split; [exact H2 |].
  exact (size_of_set_monotone _ _ chain_sizes 6 24 chain_positive H H1 H2).
Defined.

Lemma contraction_size_factors_witness :
  size_of_set (new_result (_find_contraction [0; 1] chain_sets chain_output))
              chain_sizes = Ok 8 /\
  size_of_set (idx_removed (_find_contraction [0; 1] chain_sets chain_output))
              chain_sizes = Ok 3 /\
  size_of_set (idx_contract (_find_contraction [0; 1] chain_sets chain_output))
              chain_sizes = Ok (8 * 3).
Proof.
  assert (H1 : size_of_set (new_result (_find_contraction [0; 1] chain_sets chain_output))
                           chain_sizes = Ok 8) by (by vm_compute).
  assert (H2 : size_of_set (idx_removed (_find_contraction [0; 1] chain_sets chain_output))
                           chain_sizes = Ok 3) by (by vm_compute).
  split; [exact H1 |]. split; [exact H2 |].
  exact (contraction_size_factors [0; 1] chain_sets chain_output chain_sizes 8 3 H1 H2).
Defined.

Lemma find_contraction_no_position_witness :
  (forall x, x ∈ [5; -1] -> x < 0 \/ Z.of_nat (length chain_sets) <= x) /\
  _find_contraction [5; -1] chain_sets chain_output =
  Contraction ∅ (chain_sets ++ [∅]) ∅ ∅.
Proof.
  assert (H : forall x, x ∈ [5; -1] -> x < 0 \/ Z.of_nat (length chain_sets) <= x).
  { intros x Hx. change (Z.of_nat (length chain_sets)) with 3.
    repeat (apply elem_of_cons in Hx as [->|Hx]); [lia | lia |].
    by apply elem_of_nil in Hx. }
  split; [exact H |].
  exact (find_contraction_no_position [5; -1] chain_sets chain_output H).
Defined.

Lemma find_contraction_positions_set_witness :
  (forall x, x ∈ [0; 1] <-> x ∈ [1; 0; 1]) /\
  _find_contraction [0; 1] chain_sets chain_output =
  _find_contraction [1; 0; 1] chain_sets chain_output.
Proof.
  assert (H : forall x : Z, x ∈ [0; 1] <-> x ∈ [1; 0; 1]) by set_solver.
  split; [exact H |].
  exact (find_contraction_positions_set [0; 1] [1; 0; 1] chain_sets chain_output H).
Defined.

Lemma find_contraction_length_witness :
  NoDup [0; 2] /\
  (forall x, x ∈ [0; 2] -> 0 <= x < Z.of_nat (length chain_sets)) /\
  (length (remaining (_find_contraction [0%Z; 2%Z] chain_sets chain_output))
   + length [0%Z; 2%Z] = S (length chain_sets))%nat.
Proof.
  assert (H1 : NoDup [0; 2]) by (apply (bool_decide_unpack _); by vm_compute).
  assert (H2 : forall x, x ∈ [0; 2] -> 0 <= x < Z.of_nat (length chain_sets)).
  { intros x Hx. change (Z.of_nat (length chain_sets)) with 3.
    repeat (apply elem_of_cons in Hx as [->|Hx]); [lia | lia |].
    by apply elem_of_nil in Hx. }
  split; [exact H1 |]. split; [exact H2 |].
  exact (find_contraction_length [0; 2] chain_sets chain_output H1 H2).
Defined.

Lemma path_optimal_too_few_witness :
  (length [set_of_str "ab"] <= 1)%nat /\
  _path_optimal [set_of_str "ab"] (set_of_str "a") chain_sizes 100
  = Raise UnboundLocalError.
Proof.
  assert (H : (length [set_of_str "ab"] <= 1)%nat) by (simpl; lia).
  split; [exact H |].
  exact (path_optimal_too_few [set_of_str "ab"] (set_of_str "a") chain_sizes 100 H).
Defined.

Lemma path_opportunistic_too_few_witness :
  (length [set_of_str "ab"] <= 1)%nat /\
  _path_opportunistic [set_of_str "ab"] (set_of_str "a") chain_sizes 100 = Ok [].
Proof.
  assert (H : (length [set_of_str "ab"] <= 1)%nat) by (simpl; lia).
  split; [exact H |].
  exact (path_opportunistic_too_few [set_of_str "ab"] (set_of_str "a") chain_sizes
           100 H).
Defined.

Lemma pair_covered : covers chain_sizes [set_of_str "ab"; set_of_str "bc"].
Proof. unfold covers. apply (bool_decide_unpack _). by vm_compute. Qed.

Lemma two_operands_one_step_witness :
  covers chain_sizes [set_of_str "ab"; set_of_str "bc"] /\
  length [set_of_str "ab"; set_of_str "bc"] = 2%nat /\
  _path_optimal [set_of_str "ab"; set_of_str "bc"] (set_of_str "ac") chain_sizes 1
  = Ok [[0; 1]] /\
  _path_opportunistic [set_of_str "ab"; set_of_str "bc"] (set_of_str "ac")
                      chain_sizes 1 = Ok [[0; 1]].
Proof.
  split; [exact pair_covered |]. split; [reflexivity |].
  exact (two_operands_one_step [set_of_str "ab"; set_of_str "bc"] (set_of_str "ac")
           chain_sizes 1 pair_covered eq_refl).
Defined.

Lemma search_paths_reduce_to_one_witness :
  (_path_optimal = _path_optimal \/ _path_optimal = _path_opportunistic) /\
  covers chain_sizes chain_sets /\
  (2 <= length chain_sets)%nat /\
  exists p, _path_optimal chain_sets chain_output chain_sizes 100 = Ok p /\
    (1 <= length p <= length chain_sets - 1)%nat /\
    each_step chain_output
      (fun ops g => is_pair (length ops) g \/ g = range (length ops)) p chain_sets /\
    length (replay chain_output p chain_sets) = 1%nat.
Proof.
  assert (H2 : (2 <= length chain_sets)%nat) by (vm_compute; lia).
  split; [by left |]. split; [exact chain_covered |]. split; [exact H2 |].
  exact (search_paths_reduce_to_one _path_optimal chain_sets chain_output chain_sizes
           100 (or_introl eq_refl) chain_covered H2).
Defined.

Lemma chain_optimal_path :
  _path_optimal chain_sets chain_output chain_sizes 100 = Ok [[0; 1]; [0; 1]].
Proof. by vm_compute. Qed.

Lemma path_optimal_memory_monotone_witness :
  covers chain_sizes chain_sets /\
  (2 <= length chain_sets)%nat /\
  100 <= 1000 /\
  _path_optimal chain_sets chain_output chain_sizes 100 = Ok [[0; 1]; [0; 1]] /\
  complete [[0; 1]; [0; 1]] chain_sets /\
  feasible_path chain_output chain_sizes 100 [[0; 1]; [0; 1]] chain_sets /\
  exists p',
    _path_optimal chain_sets chain_output chain_sizes 1000 = Ok p' /\
    complete p' chain_sets /\
    feasible_path chain_output chain_sizes 1000 p' chain_sets /\
    path_cost chain_output chain_sizes p' chain_sets
    <= path_cost chain_output chain_sizes [[0; 1]; [0; 1]] chain_sets.
Proof.
  assert (H2 : (2 <= length chain_sets)%nat) by (vm_compute; lia).
  assert (Hm : 100 <= 1000) by lia.
  assert (Hc : complete [[0; 1]; [0; 1]] chain_sets) by reflexivity.
  split; [exact chain_covered |]. split; [exact H2 |]. split; [exact Hm |].
  split; [exact chain_optimal_path |]. split; [exact Hc |].
  split; [exact chain_feasible |].
  exact (path_optimal_memory_monotone chain_sets chain_output chain_sizes 100 1000
           [[0; 1]; [0; 1]] chain_covered H2 Hm chain_optimal_path Hc chain_feasible).
Defined.

Lemma chain_opportunistic_path :
  _path_opportunistic chain_sets chain_output chain_sizes 100 = Ok [[1; 2]; [0; 1]].
Proof. by vm_compute. Qed.

Lemma chain_opportunistic_feasible :
  feasible_path chain_output chain_sizes 100 [[1; 2]; [0; 1]] chain_sets.
Proof.
  split; [split |split; [split | done]].
  - exists 1, 2. split; [done |]. vm_compute. split; [split |]; done.
  - unfold within_memory. by vm_compute.
  - exists 0, 1. split; [done |]. vm_compute. split; [split |]; done.
  - unfold within_memory. by vm_compute.
Qed.

Lemma optimal_no_worse_than_opportunistic_witness :
  covers chain_sizes chain_sets /\
  (2 <= length chain_sets)%nat /\
  _path_opportunistic chain_sets chain_output chain_sizes 100 = Ok [[1; 2]; [0; 1]] /\
  feasible_path chain_output chain_sizes 100 [[1; 2]; [0; 1]] chain_sets /\
  exists p,
    _path_optimal chain_sets chain_output chain_sizes 100 = Ok p /\
    complete p chain_sets /\
    feasible_path chain_output chain_sizes 100 p chain_sets /\
    path_cost chain_output chain_sizes p chain_sets
    <= path_cost chain_output chain_sizes [[1; 2]; [0; 1]] chain_sets.
Proof.
  assert (H2 : (2 <= length chain_sets)%nat) by (vm_compute; lia).
  split; [exact chain_covered |]. split; [exact H2 |].
  split; [exact chain_opportunistic_path |].
  split; [exact chain_opportunistic_feasible |].
  exact (optimal_no_worse_than_opportunistic chain_sets chain_output chain_sizes 100
           [[1; 2]; [0; 1]] chain_covered H2 chain_opportunistic_path
           chain_opportunistic_feasible).
Defined.

Lemma path_optimal_fallback_iff_witness :
  covers chain_sizes chain_sets /\
  (3 <= length chain_sets)%nat /\
  (_path_optimal chain_sets chain_output chain_sizes 1 = Ok [fallback chain_sets] <->
   (forall q, complete q chain_sets ->
              ~ feasible_path chain_output chain_sizes 1 q chain_sets)).
Proof.
  assert (H3 : (3 <= length chain_sets)%nat) by (vm_compute; lia).
  split; [exact chain_covered |]. split; [exact H3 |].
  exact (path_optimal_fallback_iff chain_sets chain_output chain_sizes 1
           chain_covered H3).
Defined.

Lemma dimension_dict_agrees_witness :
  length chain_terms = length chain_shapes /\
  build_dimension_dict chain_terms chain_shapes = Ok chain_sizes /\
  forall i term sh, chain_terms !! i = Some term -> chain_shapes !! i = Some sh ->
    length sh = String.length term /\
    forall k c dim, list_ascii_of_string term !! k = Some c -> sh !! k = Some dim ->
      chain_sizes !! c = Some (Z.of_N dim).
Proof.
  split; [reflexivity |]. split; [exact chain_dimension_dict |].
  exact (dimension_dict_agrees chain_terms chain_shapes chain_sizes eq_refl
           chain_dimension_dict).
Defined.

Lemma term_size_is_element_count_witness :
  length chain_terms = length chain_shapes /\
  build_dimension_dict chain_terms chain_shapes = Ok chain_sizes /\
  forall i term sh, chain_terms !! i = Some term -> chain_shapes !! i = Some sh ->
    _compute_size_by_dict (list_ascii_of_string term) chain_sizes
    = Ok (element_count sh).
Proof.
  split; [reflexivity |]. split; [exact chain_dimension_dict |].
  exact (term_size_is_element_count chain_terms chain_shapes chain_sizes eq_refl
           chain_dimension_dict).
Defined.

Lemma dimension_dict_built_iff_consistent_witness :
  length ["ab"; "bc"]%string = length [[2; 3]; [4; 5]]%N /\
  ((shapes_consistent ["ab"; "bc"]%string [[2; 3]; [4; 5]]%N /\
    exists d, build_dimension_dict ["ab"; "bc"]%string [[2; 3]; [4; 5]]%N = Ok d) \/
   (~ shapes_consistent ["ab"; "bc"]%string [[2; 3]; [4; 5]]%N /\
    build_dimension_dict ["ab"; "bc"]%string [[2; 3]; [4; 5]]%N = Raise ValueError)).
Proof.
  split; [reflexivity |].
  exact (dimension_dict_built_iff_consistent ["ab"; "bc"]%string [[2; 3]; [4; 5]]%N
           eq_refl).
Defined.

Lemma contract_outcome_by_inputs_witness :
  default (PathName "opportunistic") (kw_path (Kwargs None None None))
  = PathName "opportunistic" /\
  (2 <= length ["ab"; "bc"]%string)%nat /\
  match contract_call (fun sh : shape => sh) refusing_einsum
                      ["ab"; "bc"]%string "aa" [[2; 3]; [3; 4]]%N
                      (Kwargs None None None) with
  | Ok _ =>
      shapes_consistent ["ab"; "bc"]%string
                        ((fun sh : shape => sh) <$> [[2; 3]; [3; 4]]%N) /\
      output_in_inputs ["ab"; "bc"]%string "aa" /\
      (length ["ab"; "bc"]%string = 2%nat \/ known_strategy "opportunistic")
  | Raise e =>
      (e = ValueError /\
       ~ shapes_consistent ["ab"; "bc"]%string
                           ((fun sh : shape => sh) <$> [[2; 3]; [3; 4]]%N)) \/
      (e = KeyError /\
       shapes_consistent ["ab"; "bc"]%string
                         ((fun sh : shape => sh) <$> [[2; 3]; [3; 4]]%N) /\
       (~ output_in_inputs ["ab"; "bc"]%string "aa" \/
        ((3 <= length ["ab"; "bc"]%string)%nat /\ ~ known_strategy "opportunistic"))) \/
      (shapes_consistent ["ab"; "bc"]%string
                         ((fun sh : shape => sh) <$> [[2; 3]; [3; 4]]%N) /\
       output_in_inputs ["ab"; "bc"]%string "aa" /\
       (length ["ab"; "bc"]%string = 2%nat \/ known_strategy "opportunistic") /\
       default false (kw_return_path (Kwargs None None None)) = false /\
       exists s args, refusing_einsum s args = Raise e)
  end.
Proof.
  assert (H2 : (2 <= length ["ab"; "bc"]%string)%nat) by (simpl; lia).
  split; [reflexivity |]. split; [exact H2 |].
  exact (contract_outcome_by_inputs (fun sh : shape => sh) refusing_einsum
           ["ab"; "bc"]%string "aa" [[2; 3]; [3; 4]]%N (Kwargs None None None)
           "opportunistic" eq_refl H2).
Defined.

Lemma single_operand_call_fails_witness :
  default (PathName "opportunistic") (kw_path (Kwargs None None None))
  = PathName "opportunistic" /\
  length ["ab"%string] = 1%nat /\
  exists e, contract ["ab"%string] "ab" [[2; 3]%N] (Kwargs None None None) = Raise e /\
    (e = TypeError <->
     shapes_consistent ["ab"%string] [[2; 3]%N] /\
     output_in_inputs ["ab"%string] "ab").
Proof.
  split; [reflexivity |]. split; [reflexivity |].
  exact (single_operand_call_fails ["ab"%string] "ab" [[2; 3]%N]
           (Kwargs None None None) "opportunistic" eq_refl eq_refl).
Defined.

Lemma pair_consistent : shapes_consistent ["ab"; "bc"]%string [[2; 3]; [3; 4]]%N.
Proof. exists chain_sizes. repeat constructor. Qed.

Lemma pair_output_in_inputs : output_in_inputs ["ab"; "bc"]%string "ac".
Proof. unfold output_in_inputs. apply (bool_decide_unpack _). by vm_compute. Qed.

Lemma two_operand_plan_witness :
  default (PathName "opportunistic")
          (kw_path (Kwargs (Some (PathName "greedy")) (Some 1) None))
  = PathName "greedy" /\
  shapes_consistent ["ab"; "bc"]%string [[2; 3]; [3; 4]]%N /\
  output_in_inputs ["ab"; "bc"]%string "ac" /\
  contract_plan ["ab"; "bc"]%string "ac" [[2; 3]; [3; 4]]%N
                (Kwargs (Some (PathName "greedy")) (Some 1) None) =
  Ok (Plan [GTuple [0; 1]]
        (BuildState [set_of_str "ac"] ["ac"%string]
           [([1; 0], false, (String.concat "," ["bc"; "ab"] ++ "->" ++ "ac")%string,
             ["ac"%string])])).
Proof.
  split; [reflexivity |]. split; [exact pair_consistent |].
  split; [exact pair_output_in_inputs |].
  exact (two_operand_plan "ab" "bc" "ac" [[2; 3]; [3; 4]]%N
           (Kwargs (Some (PathName "greedy")) (Some 1) None) "greedy" eq_refl
           pair_consistent pair_output_in_inputs).
Defined.

Lemma chain_short_path :
  build_contraction_list [GTuple [0; 1]] chain_terms chain_sets "ad" chain_output
                         chain_sizes
  = Ok (BuildState [set_of_str "cd"; set_of_str "ac"] ["cd"; "ad"]%string
          [([1; 0], false, "bc,ab->ad", ["cd"; "ad"])]%string).
Proof. by vm_compute. Qed.

Lemma loop_follows_contraction_list_witness :
  build_contraction_list [GTuple [0; 1]] chain_terms chain_sets "ad" chain_output
                         chain_sizes
  = Ok (BuildState [set_of_str "cd"; set_of_str "ac"] ["cd"; "ad"]%string
          [([1; 0], false, "bc,ab->ad", ["cd"; "ad"])]%string) /\
  exists operands,
    for_each (run_body symbolic_einsum)
             [([1; 0], false, "bc,ab->ad", ["cd"; "ad"])]%string
             (symbolic_operands chain_terms) = Ok operands /\
    operands.*1 = ["cd"; "ad"]%string /\
    concat operands.*2 ≡ₚ seq 0 (length chain_terms).
Proof.
  split; [exact chain_short_path |].
  exact (loop_follows_contraction_list [GTuple [0; 1]] chain_terms chain_sets "ad"
           chain_output chain_sizes _ chain_short_path).
Defined.

Lemma chain_contract :
  contract chain_terms "ad" chain_shapes (Kwargs (Some (PathName "optimal")) None None)
  = Ok (Evaluate [([1; 0], false, "bc,ab->ac", ["cd"; "ac"]);
                  ([1; 0], false, "ac,cd->ad", ["ad"])]%string).
Proof. by vm_compute. Qed.

Lemma run_returns_output_witness :
  default (PathName "opportunistic")
          (kw_path (Kwargs (Some (PathName "optimal")) None None))
  = PathName "optimal" /\
  (2 <= length chain_terms)%nat /\
  contract chain_terms "ad" chain_shapes (Kwargs (Some (PathName "optimal")) None None)
  = Ok (Evaluate [([1; 0], false, "bc,ab->ac", ["cd"; "ac"]);
                  ([1; 0], false, "ac,cd->ad", ["ad"])]%string) /\
  exists used,
    run_contractions symbolic_einsum
      [([1; 0], false, "bc,ab->ac", ["cd"; "ac"]);
       ([1; 0], false, "ac,cd->ad", ["ad"])]%string
      (symbolic_operands chain_terms) = Ok ("ad"%string, used) /\
    used ≡ₚ seq 0 (length chain_terms).
Proof.
  assert (H2 : (2 <= length chain_terms)%nat) by (simpl; lia).
  split; [reflexivity |]. split; [exact H2 |]. split; [exact chain_contract |].
  exact (run_returns_output chain_terms "ad" chain_shapes
           (Kwargs (Some (PathName "optimal")) None None) "optimal" _
           eq_refl H2 chain_contract).
Defined.

Lemma checked_arrow_splits_witness :
  check_arrow "ab,bc,cd->ad" = Ok () /\
  contains "->" "ab,bc,cd->ad" = true /\
  exists input_subscripts output_subscript,
    split_arrow "ab,bc,cd->ad" = [input_subscripts; output_subscript] /\
    split_subscripts "ab,bc,cd->ad" = Ok (input_subscripts, Some output_subscript) /\
    "ab,bc,cd->ad"%string = (input_subscripts ++ "->" ++ output_subscript)%string.
Proof.
  split; [reflexivity |]. split; [reflexivity |].
  exact (checked_arrow_splits "ab,bc,cd->ad" eq_refl eq_refl).
Defined.

Lemma chain_parsed :
  parse_subscripts "ab,bc,cd->ad" 3 = Ok (Plain chain_terms "ad").
Proof. by vm_compute. Qed.

Lemma parse_round_trip_witness :
  parse_subscripts "ab,bc,cd->ad" 3 = Ok (Plain chain_terms "ad") /\
  length chain_terms = 3%nat /\
  if contains "->" "ab,bc,cd->ad"
  then "ab,bc,cd->ad"%string = (String.concat "," chain_terms ++ "->" ++ "ad")%string
  else "ab,bc,cd->ad"%string = String.concat "," chain_terms /\
       "ad"%string = implicit_output "ab,bc,cd->ad".
Proof.
  split; [exact chain_parsed |].
  exact (parse_round_trip "ab,bc,cd->ad" 3 chain_terms "ad" chain_parsed).
Defined.

Lemma dotted_parsed :
  parse_subscripts "ab.c,bc" (length [[2; 3; 6; 4]; [3; 4]]%N)
  = Ok (Plain ["ab.c"; "bc"]%string ".a").
Proof. by vm_compute. Qed.

Lemma dotted_consistent :
  shapes_consistent ["ab.c"; "bc"]%string
                    ((fun sh : shape => sh) <$> [[2; 3; 6; 4]; [3; 4]]%N).
Proof.
  exists (list_to_map [("a", 2); ("b", 3); (".", 6); ("c", 4)]%char).
  repeat constructor.
Qed.

Lemma implicit_output_call_succeeds_witness :
  parse_subscripts "ab.c,bc" (length [[2; 3; 6; 4]; [3; 4]]%N)
  = Ok (Plain ["ab.c"; "bc"]%string ".a") /\
  contains "->" "ab.c,bc" = false /\
  default (PathName "opportunistic") (kw_path (Kwargs None None None))
  = PathName "opportunistic" /\
  (2 <= length ["ab.c"; "bc"]%string)%nat /\
  (length ["ab.c"; "bc"]%string = 2%nat \/ known_strategy "opportunistic") /\
  shapes_consistent ["ab.c"; "bc"]%string
                    ((fun sh : shape => sh) <$> [[2; 3; 6; 4]; [3; 4]]%N) /\
  match contract_call (fun sh : shape => sh) refusing_einsum
                      ["ab.c"; "bc"]%string ".a" [[2; 3; 6; 4]; [3; 4]]%N
                      (Kwargs None None None) with
  | Ok _ => True
  | Raise e =>
      default false (kw_return_path (Kwargs None None None)) = false /\
      exists s args, refusing_einsum s args = Raise e
  end.
Proof.
  assert (H2 : (2 <= length ["ab.c"; "bc"]%string)%nat) by (simpl; lia).
  assert (Hk : length ["ab.c"; "bc"]%string = 2%nat \/ known_strategy "opportunistic")
    by (by left).
  split; [exact dotted_parsed |]. split; [reflexivity |].
  split; [reflexivity |]. split; [exact H2 |]. split; [exact Hk |].
  split; [exact dotted_consistent |].
  exact (implicit_output_call_succeeds (fun sh : shape => sh)
           refusing_einsum "ab.c,bc" [[2; 3; 6; 4]; [3; 4]]%N
           (Kwargs None None None) "opportunistic" ["ab.c"; "bc"]%string ".a"
           dotted_parsed eq_refl eq_refl H2 Hk dotted_consistent).
Defined.
